(** * Verification of [03_finalize_fbref.py]

    The script is a linear pandas pipeline: load one CSV, coalesce the
    [_standard]/[_misc] identity columns, drop the originals, tidy the string
    columns, coerce the numeric columns, deduplicate on
    (player, team, league, season), drop the current season and write the
    result.  The development embeds each function of the script as a Rocq
    function over a small model of the pandas objects it manipulates.

    Conventions of the model:
    - a cell is a [value]: missing ([NA], which stands for NaN, None and
      pd.NA alike), a Python int, a Python float or a Python str;
    - a float is represented by a rational ([Qc]) that stands for the double
      nearest to it; the script performs no floating point arithmetic, it
      only parses, casts and prints, and the one place where the rounding
      shows, the cast of a float to an integer, rounds first;
    - a Python str is a list of Unicode code points;
    - a [Series] is a dtype tag with its cells; a [DataFrame] is an ordered
      association list of named series.  Row labels are not modelled: every
      series the script combines comes from the same frame and so carries the
      same index;
    - an exception is an [Err] in the [result] monad.

    The pandas behaviour modelled is that of the 2.x series: text is read
    into object columns, [astype("string")] gives the nullable string dtype,
    [to_numeric] of that dtype gives a nullable (masked) numeric dtype whose
    cast to [Int64] truncates, a comparison on the string dtype yields pd.NA
    on a missing cell and boolean indexing reads pd.NA as False.  Boolean
    column inference of [read_csv] is left out: no column of the script is
    boolean.  Infinities are left out as well.

    Library routines whose behaviour the script does not fix (the CSV
    tokenizer, the tie order of the default sort kind, the float grammar, the
    writers) are variables of the sections that use them.  [Reference] gives
    instances of them for the sample inputs, among them a stable sort and
    NumPy's generic quicksort kernel. *)

From Stdlib Require Import ZArith QArith Qcanon Ascii String.
From stdpp Require Import base option list strings numbers pretty sorting gmap.

Local Open Scope Z_scope.

(** ** Exceptions *)

Inductive error :=
  | FileNotFoundError
  | ParserError
  | TypeError
  | AttributeError
  | KeyError (c : string).

Inductive result (A : Type) :=
  | Ok (a : A)
  | Err (e : error).
Arguments Ok {A} a.
Arguments Err {A} e.

#[global] Instance result_ret : MRet result := λ A a, Ok a.
#[global] Instance result_bind : MBind result := λ A B f m,
  match m with Ok a => f a | Err e => Err e end.

Definition is_Ok {A} (r : result A) : Prop := ∃ a, r = Ok a.

(** ** Cells *)

Abbreviation codepoint := N.
Abbreviation pystr := (list codepoint).

(** An ASCII literal of the script as a Python str. *)
Definition lit (s : string) : pystr :=
  (λ a, N_of_ascii a) <$> list_ascii_of_string s.

Definition Qc_of_Z (z : Z) : Qc := Q2Qc (inject_Z z).

Inductive value :=
  | NA
  | VInt (z : Z)
  | VFloat (q : Qc)
  | VStr (s : pystr).

#[global] Instance value_eq_dec : EqDecision value.
Proof. solve_decision. Defined.

Definition notna (v : value) : bool :=
  match v with NA => false | _ => true end.
Definition isna (v : value) : bool := negb (notna v).

(** Python compares numbers by value: [1 == 1.0].  [canon] sends a cell to
    the representative of its class. *)
Definition canon (v : value) : value :=
  match v with VInt z => VFloat (Qc_of_Z z) | _ => v end.

Definition value_eq (a b : value) : Prop := canon a = canon b.
Definition value_eqb (a b : value) : bool := bool_decide (canon a = canon b).
Infix "≈" := value_eq (at level 70, no associativity).

(** ** Series and frames *)

Inductive dtype :=
  | int64 | float64 | object          (* NumPy dtypes *)
  | string_dtype | Int64 | UInt64 | Float64.   (* nullable extension dtypes *)

#[global] Instance dtype_eq_dec : EqDecision dtype.
Proof. solve_decision. Defined.

Record Series := mkSeries { dtype_of : dtype; values : list value }.

Record DataFrame := mkDF { nrows : nat; columns : list (string * Series) }.

(** A Python object that is either a Series or [None] ([df.get] returns the
    latter for an absent label). *)
Definition pyobj := option Series.

Fixpoint assoc_get (c : string) (l : list (string * Series)) : option Series :=
  match l with
  | [] => None
  | (c', s) :: l' => if decide (c' = c) then Some s else assoc_get c l'
  end.

Fixpoint assoc_set (c : string) (s : Series) (l : list (string * Series))
  : list (string * Series) :=
  match l with
  | [] => [(c, s)]
  | (c', s') :: l' =>
      if decide (c' = c) then (c, s) :: l' else (c', s') :: assoc_set c s l'
  end.

(** [df.get(c)] *)
Definition df_get (df : DataFrame) (c : string) : pyobj :=
  assoc_get c (columns df).

(** [c in df.columns] *)
Definition has_col (df : DataFrame) (c : string) : bool :=
  bool_decide (is_Some (df_get df c)).

(** [df[c] = s]: an existing column is replaced in place, a new one is
    appended. *)
Definition set_col (df : DataFrame) (c : string) (s : Series) : DataFrame :=
  mkDF (nrows df) (assoc_set c s (columns df)).

(** [df[c] = obj] where [obj] may be [None], which pandas broadcasts to a
    column of missing objects. *)
Definition setitem (df : DataFrame) (c : string) (o : pyobj) : DataFrame :=
  match o with
  | Some s => set_col df c s
  | None => set_col df c (mkSeries object (replicate (nrows df) NA))
  end.

(** [df.drop(columns=cs, errors="ignore")] *)
Definition drop_cols (df : DataFrame) (cs : list string) : DataFrame :=
  mkDF (nrows df) (filter (λ p, p.1 ∉ cs) (columns df)).

(** The cell of column [c] at row position [i]; missing outside the table. *)
Definition cell (df : DataFrame) (c : string) (i : nat) : value :=
  default NA (s ← df_get df c; values s !! i).

(** ** Structural helpers of the script *)

(** Result dtype when rows of two series of different dtypes are
    concatenated. *)
Definition common_dtype (a b : dtype) : dtype :=
  if decide (a = b) then a
  else match a, b with
       | int64, float64 | float64, int64 => float64
       | _, _ => object
       end.

(** A Python int stored into a float64 array becomes a float: the double
    nearest to it, which the rational stands for. *)
Definition cast_value (d : dtype) (v : value) : value :=
  match d, v with
  | float64, VInt z => VFloat (Qc_of_Z z)
  | _, _ => v
  end.

(** The dtype of [a.combine_first(b)].  With equal dtypes it is kept.
    Otherwise pandas concatenates the rows it keeps from [a] (where [a] is
    present) with the rows it takes from [b] (where [a] is missing), and a
    side that contributes no row has no say in the dtype of the result. *)
Definition combined_dtype (a b : Series) : dtype :=
  let xs := (λ i, default NA (values a !! i))
              <$> seq 0 (max (length (values a)) (length (values b))) in
  let from_a := existsb notna xs in
  let from_b := existsb isna xs in
  if decide (dtype_of a = dtype_of b) then dtype_of a
  else if from_a && negb from_b then dtype_of a
  else if from_b && negb from_a then dtype_of b
  else common_dtype (dtype_of a) (dtype_of b).

(** [a.combine_first(b)]: row by row the cell of [a] unless it is missing,
    in which case the cell of [b]; the result spans the union of the two
    indexes. *)
Definition combine_first (a b : Series) : Series :=
  let d := combined_dtype a b in
  mkSeries d
    ((λ i, let x := default NA (values a !! i) in
           let y := default NA (values b !! i) in
           cast_value d (if notna x then x else y))
       <$> seq 0 (max (length (values a)) (length (values b)))).

(** The lambda passed to [reduce]: attribute access on [None], or a [None]
    argument, raises AttributeError. *)
Definition combine_first_obj (a b : pyobj) : result pyobj :=
  match a, b with
  | Some x, Some y => Ok (Some (combine_first x y))
  | _, _ => Err AttributeError
  end.

Fixpoint reduce_from (acc : pyobj) (rest : list pyobj) : result pyobj :=
  match rest with
  | [] => Ok acc
  | b :: rest' => acc' ← combine_first_obj acc b; reduce_from acc' rest'
  end.

(** [coalesce] is [reduce(lambda a, b: a.combine_first(b), series)] over its
    positional arguments. *)
Definition coalesce (series : list pyobj) : result pyobj :=
  match series with
  | [] => Err TypeError
  | a :: rest => reduce_from a rest
  end.

Definition canonical_fields : list string :=
  ["nationality"; "country_code"; "position"; "age"; "birth_year"].

Definition build_canonical (df : DataFrame) : result DataFrame :=
  v ← coalesce [df_get df "nationality_standard"; df_get df "nationality_misc"];
  let df := setitem df "nationality" v in
  v ← coalesce [df_get df "country_code_standard"; df_get df "country_code_misc"];
  let df := setitem df "country_code" v in
  v ← coalesce [df_get df "position_standard"; df_get df "position_misc"];
  let df := setitem df "position" v in
  v ← coalesce [df_get df "age_standard"; df_get df "age_misc"];
  let df := setitem df "age" v in
  v ← coalesce [df_get df "birth_year_standard"; df_get df "birth_year_misc"];
  let df := setitem df "birth_year" v in
  Ok df.

Definition to_drop : list string :=
  ["nationality_standard"; "country_code_standard"; "position_standard";
   "age_standard"; "birth_year_standard";
   "nationality_misc"; "country_code_misc"; "position_misc";
   "age_misc"; "birth_year_misc"].

Definition drop_redundant_source_cols (df : DataFrame) : DataFrame :=
  drop_cols df (filter (λ c, has_col df c = true) to_drop).

(** ** Python strings *)

(** Code points for which [str.isspace] holds; [str.strip()] removes them
    from both ends. *)
Definition is_space (c : codepoint) : bool :=
  bool_decide (c ∈ [9; 10; 11; 12; 13; 28; 29; 30; 31; 32; 133; 160; 5760;
                    8192; 8193; 8194; 8195; 8196; 8197; 8198; 8199; 8200;
                    8201; 8202; 8232; 8233; 8239; 8287; 12288]%N).

Fixpoint lstrip (s : pystr) : pystr :=
  match s with
  | c :: s' => if is_space c then lstrip s' else s
  | [] => []
  end.

Definition strip (s : pystr) : pystr := reverse (lstrip (reverse (lstrip s))).

(** [s.replace(c, "")] for a pattern that is one code point, and the regex
    alternation of such patterns. *)
Definition remove_chars (cs : list codepoint) (s : pystr) : pystr :=
  filter (λ c, c ∉ cs) s.

Definition THIN_SPACE : codepoint := 8201%N.   (* U+2009 *)
Definition NBSP : codepoint := 160%N.          (* U+00A0 *)
Definition COMMA : codepoint := 44%N.
Definition EM_DASH : codepoint := 8212%N.      (* U+2014 *)
Definition HYPHEN : codepoint := 45%N.
Definition PLUS : codepoint := 43%N.
Definition DOT : codepoint := 46%N.

(** [str(z)] for a Python int. *)
Definition str_of_Z (z : Z) : pystr := lit (pretty z).

(** ** Numeric literals *)

Definition digit_val (c : codepoint) : option Z :=
  if ((48 <=? c) && (c <=? 57))%N then Some (Z.of_N c - 48) else None.

Fixpoint parse_digits_from (acc : Z) (s : pystr) : option Z :=
  match s with
  | [] => Some acc
  | c :: s' => d ← digit_val c; parse_digits_from (10 * acc + d) s'
  end.

Definition parse_digits (s : pystr) : option Z :=
  match s with [] => None | _ => parse_digits_from 0 s end.

Definition split_sign (s : pystr) : Z * pystr :=
  match s with
  | c :: r => if decide (c = PLUS) then (1, r)
              else if decide (c = HYPHEN) then (-1, r) else (1, s)
  | [] => (1, s)
  end.

Definition INT64_MIN : Z := - 2 ^ 63.
Definition INT64_MAX : Z := 2 ^ 63 - 1.
Definition in_int64 (z : Z) : bool :=
  ((INT64_MIN <=? z) && (z <=? INT64_MAX))%Z.

Definition UINT64_MAX : Z := 2 ^ 64 - 1.

(** [int(s)] for an optionally signed run of ASCII digits, of any size. *)
Definition int_literal (s : pystr) : option Z :=
  let '(sg, r) := split_sign s in
  n ← parse_digits r; Some (sg * n).

(** An optionally signed run of ASCII digits that fits 64 bits. *)
Definition parse_int (s : pystr) : option Z :=
  let '(sg, r) := split_sign s in
  n ← parse_digits r;
  if in_int64 (sg * n) then Some (sg * n) else None.

Fixpoint split_dot (s : pystr) : option (pystr * pystr) :=
  match s with
  | [] => None
  | c :: s' =>
      if decide (c = DOT) then Some ([], s')
      else '(a, b) ← split_dot s'; Some (c :: a, b)
  end.

(** [digits.digits], optionally signed. *)
Definition parse_decimal (s : pystr) : option Qc :=
  let '(sg, r) := split_sign s in
  '(a, b) ← split_dot r;
  ip ← parse_digits a;
  fp ← parse_digits b;
  Some (Q2Qc (Qmake (sg * (ip * 10 ^ Z.of_nat (length b) + fp))
                    (Z.to_pos (10 ^ Z.of_nat (length b))))).

(** The integer a float denotes, when it is one that fits 64 bits. *)
Definition as_int64 (q : Qc) : option Z :=
  if decide (Qden (this q) = 1%positive)
  then (if in_int64 (Qnum (this q)) then Some (Qnum (this q)) else None)
  else None.

(** *** Rounding to binary64 *)

(** The integer nearest to [n / d], ties to the even one ([0 ≤ n], [0 < d]). *)
Definition round_half_even (n d : Z) : Z :=
  let q := n / d in
  let r := n mod d in
  if 2 * r <? d then q
  else if d <? 2 * r then q + 1
  else if Z.even q then q else q + 1.

(** [n / d] divided by [2 ^ e], as a fraction. *)
Definition scale2 (n d e : Z) : Z * Z :=
  if 0 <=? e then (n, d * 2 ^ e) else (n * 2 ^ (- e), d).

(** Mantissa [m] and exponent [e] of the double nearest to the positive
    rational [n / d]: the double is [m * 2 ^ e], with 53 significant bits
    (exponent range aside: the casts below only use the integer part). *)
Definition double_of_fraction (n d : Z) : Z * Z :=
  let k := Z.log2 n - Z.log2 d in
  let '(n1, d1) := scale2 n d k in
  let e := (if d1 <=? n1 then k else k - 1) - 52 in
  let '(n2, d2) := scale2 n d e in
  (round_half_even n2 d2, e).

(** The integer part, toward zero, of the double that [q] stands for. *)
Definition trunc_double (q : Qc) : Z :=
  let n := Qnum (this q) in
  if n =? 0 then 0
  else
    let '(m, e) := double_of_fraction (Z.abs n) (Z.pos (Qden (this q))) in
    Z.sgn n * (if 0 <=? e then m * 2 ^ e else m / 2 ^ (- e)).

(** The C cast of a double to a 64-bit integer, as NumPy performs it in
    [astype]: the integer part when it fits; out of range the result is left
    to the hardware, and is the smallest 64-bit integer on x86-64. *)
Definition double_to_int64 (q : Qc) : Z :=
  let z := trunc_double q in
  if in_int64 z then z else INT64_MIN.

(** The cast of an unsigned 64-bit integer to a signed one keeps the bits. *)
Definition wrap_int64 (z : Z) : Z := (z + 2 ^ 63) mod 2 ^ 64 - 2 ^ 63.

(** ** Messages printed by the script *)

Inductive message :=
  | MsgCoerceFailed (c : string)      (* [coerce_nullable_ints] Failed on .. *)
  | MsgParquetSkipped (e : string)    (* Parquet save skipped: .. *)
  | MsgDone.                          (* Finalized historical dataset .. *)

(** ** Raw input table *)

(** What the CSV tokenizer hands to column inference: the header labels
    and, per record, the text of each field. *)
Record RawTable := mkRaw { header : list string; records : list (list pystr) }.

(** The fields of column [j], one per record; a record that is too short
    is padded with empty fields. *)
Definition column_tokens (raw : RawTable) (j : nat) : list pystr :=
  (λ r, default [] (r !! j)) <$> records raw.

(** Position of the first header label equal to [c]. *)
Fixpoint label_position (c : string) (hdr : list string) : option nat :=
  match hdr with
  | [] => None
  | c' :: hdr' => if decide (c' = c) then Some 0%nat else S <$> label_position c hdr'
  end.

(** Tokens that [read_csv] reads as missing by default. *)
Definition default_na_values : list pystr :=
  lit <$> [""; "#N/A"; "#N/A N/A"; "#NA"; "-1.#IND"; "-1.#QNAN"; "-NaN";
           "-nan"; "1.#IND"; "1.#QNAN"; "<NA>"; "N/A"; "NA"; "NULL"; "NaN";
           "None"; "n/a"; "nan"; "null"].

Definition is_na_token (t : pystr) : bool := bool_decide (t ∈ default_na_values).

(** ** Row selection *)

(** The frame made of the rows at positions [idxs], in that order. *)
Definition take_series (idxs : list nat) (s : Series) : Series :=
  mkSeries (dtype_of s) ((λ i, default NA (values s !! i)) <$> idxs).

Definition take_rows (idxs : list nat) (df : DataFrame) : DataFrame :=
  mkDF (length idxs) (prod_map id (take_series idxs) <$> columns df).

(** [df.notna().sum(axis=1)] at row [i]. *)
Definition nnz (df : DataFrame) (i : nat) : Z :=
  Z.of_nat (length (filter (λ p, notna (default NA (values p.2 !! i)) = true)
                           (columns df))).

Definition notna_sum (df : DataFrame) : Series :=
  mkSeries int64 ((λ i, VInt (nnz df i)) <$> seq 0 (nrows df)).

Definition int_of_value (v : value) : Z :=
  match v with VInt z => z | _ => 0 end.

(** The key of a row for [drop_duplicates]: its cells in the [subset]
    columns, compared by value (missing equals missing). *)
Definition row_key (df : DataFrame) (subset : list string) (i : nat) : list value :=
  (λ c, canon (cell df c i)) <$> subset.

(** Positions of the rows that [duplicated(keep="first")] does not flag:
    those whose key has not been seen at an earlier position. *)
Fixpoint first_occurrences (seen : list (list value)) (ks : list (nat * list value))
  : list nat :=
  match ks with
  | [] => []
  | (i, k) :: ks' =>
      if decide (k ∈ seen) then first_occurrences seen ks'
      else i :: first_occurrences (k :: seen) ks'
  end.

(** [df.empty]: no row or no column. *)
Definition df_empty (df : DataFrame) : bool :=
  bool_decide (nrows df = 0%nat ∨ columns df = []).

(** [df.drop_duplicates(subset=subset, keep="first")].  An empty frame is
    returned as it is, before the labels of [subset] are looked up; on any
    other frame an absent label raises KeyError (the exception carries
    every absent label; the model names the first). *)
Definition drop_duplicates (df : DataFrame) (subset : list string)
  : result DataFrame :=
  if df_empty df then Ok df
  else
    match filter (λ c, has_col df c = false) subset with
    | c :: _ => Err (KeyError c)
    | [] =>
        Ok (take_rows
              (first_occurrences []
                 ((λ i, (i, row_key df subset i)) <$> seq 0 (nrows df)))
              df)
    end.

Definition KEY : list string := ["player"; "team"; "league"; "season"].

(** ** Boolean indexing *)

(** [s != x] element-wise.  On the nullable string dtype a missing cell
    compares to pd.NA (no truth value); on NumPy dtypes NaN differs from
    everything. *)
Definition nullable (d : dtype) : bool :=
  match d with string_dtype | Int64 | UInt64 | Float64 => true | _ => false end.

Definition series_ne (s : Series) (x : value) : list (option bool) :=
  (λ v, match v with
        | NA => if nullable (dtype_of s) then None else Some true
        | _ => Some (negb (value_eqb v x))
        end) <$> values s.

(** [df[mask]]: rows whose mask entry is True; a pd.NA entry selects
    nothing. *)
Fixpoint mask_positions (i : nat) (mask : list (option bool)) : list nat :=
  match mask with
  | [] => []
  | Some true :: m => i :: mask_positions (S i) m
  | _ :: m => mask_positions (S i) m
  end.

Definition getitem_mask (df : DataFrame) (mask : list (option bool)) : DataFrame :=
  take_rows (mask_positions 0 mask) df.

Definition CURRENT_SEASON : pystr := lit "2024-2025".

(** ** Programs that print *)

(** A computation that may print messages and may raise; what was printed
    before an exception stays printed. *)
Definition prog (A : Type) : Type := (result A * list message)%type.

Definition prog_lift {A} (r : result A) : prog A := (r, []).

Definition prog_then {A B} (m : prog A) (f : A → prog B) : prog B :=
  match m with
  | (Ok a, l) => let '(r, l') := f a in (r, l ++ l')
  | (Err e, l) => (Err e, l)
  end.

Notation "x ⇐ m ;; k" := (prog_then m (λ x, k))
  (at level 20, m at level 99, k at level 200, only parsing).

(** Apply a fallible function to every element, stopping at the first
    exception. *)
Fixpoint traverse {A B} (f : A → result B) (l : list A) : result (list B) :=
  match l with
  | [] => Ok []
  | x :: l' => y ← f x; ys ← traverse f l'; Ok (y :: ys)
  end.

(** ** File system and console *)

Record World := mkWorld {
  files : gmap string string;
  dirs : gset string;
  stdout : list message
}.

Definition INPUT_CSV : string :=
  "data/cleaned_and_merged/big5_standard_misc_merged/big5_standard_misc.csv".
Definition OUTPUT_DIR : string := "data/final".
Definition OUTPUT_CSV : string := "data/final/big5_player_season_final.csv".
Definition OUTPUT_PARQUET : string := "data/final/big5_player_season_final.parquet".

Definition write_file (path content : string) (w : World) : World :=
  mkWorld (<[path := content]> (files w)) (dirs w) (stdout w).

(** [OUTPUT_DIR.mkdir(parents=True, exist_ok=True)] *)
Definition mkdir_p (w : World) : World :=
  mkWorld (files w) ({["data"; OUTPUT_DIR]} ∪ dirs w) (stdout w).

Definition print_all (ms : list message) (w : World) : World :=
  mkWorld (files w) (dirs w) (stdout w ++ ms).

Definition canon_str : list string :=
  ["player"; "team"; "league"; "season"; "nationality"; "country_code"; "position"].

Definition int_cols : list string :=
  ["age"; "birth_year"; "matches_played"; "starts"; "minutes";
   "goals"; "assists"; "goals_and_assists"; "non_penalty_goals";
   "pens_scored"; "pens_attempted"; "fouls_drawn"; "offsides"; "pkwon";
   "progressive_carries"; "prgp"].

Definition float_cols : list string :=
  ["goals_per90"; "assists_per90"; "goals_and_assists_per90";
   "non_penalty_goals_per90"; "xg_expected_goals"; "npxg_non_penalty_xg";
   "xag_expected_assisted_goals"; "npxg+xag"; "non_penalty_goals_and_assists"].

Definition is_str (v : value) : bool :=
  match v with VStr _ => true | _ => false end.

(** A string array holds text and missing cells, nothing else. *)
Definition string_array (s : Series) : bool :=
  bool_decide (dtype_of s = string_dtype) && forallb (λ v, is_str v || isna v) (values s).

Definition is_int (v : value) : bool :=
  match v with VInt _ => true | _ => false end.

Definition map_values (f : value → value) (s : Series) : Series :=
  mkSeries (dtype_of s) (f <$> values s).

(** [s.str.replace(pat, "")] for the single-code-point patterns of the
    script; a missing cell stays missing. *)
Definition str_remove (cs : list codepoint) (s : Series) : Series :=
  map_values (λ v, match v with VStr t => VStr (remove_chars cs t) | _ => v end) s.

(** [s.str.strip()] *)
Definition str_strip (s : Series) : Series :=
  map_values (λ v, match v with VStr t => VStr (strip t) | _ => v end) s.

(** [s.replace({"": pd.NA})] *)
Definition replace_empty (s : Series) : Series :=
  map_values (λ v, if decide (v = VStr []) then NA else v) s.

(** [s.astype("Int64")] from a NumPy dtype: the cast must be safe, and a
    float that is not a 64-bit integer cannot be cast safely. *)
Definition to_Int64_value (v : value) : result value :=
  match v with
  | NA => Ok NA
  | VInt z => Ok (VInt z)
  | VFloat q => match as_int64 q with Some z => Ok (VInt z) | None => Err TypeError end
  | VStr _ => Err TypeError
  end.

(** [s.astype("Int64")] cell by cell.  From a masked dtype the data are
    cast as NumPy casts them, with no check: a float is truncated toward
    zero and an unsigned integer keeps its bits. *)
Definition cast_Int64_value (d : dtype) (v : value) : result value :=
  match d, v with
  | Float64, VFloat q => Ok (VInt (double_to_int64 q))
  | UInt64, VInt z => Ok (VInt (wrap_int64 z))
  | _, _ => to_Int64_value v
  end.

Definition astype_Int64 (s : Series) : result Series :=
  vs ← traverse (cast_Int64_value (dtype_of s)) (values s); Ok (mkSeries Int64 vs).

(** [s.astype(float)] of a numeric series. *)
Definition to_float_value (v : value) : result value :=
  match v with
  | NA => Ok NA
  | VInt z => Ok (VFloat (Qc_of_Z z))
  | VFloat q => Ok (VFloat q)
  | VStr _ => Err TypeError
  end.

Definition astype_float (s : Series) : result Series :=
  vs ← traverse to_float_value (values s); Ok (mkSeries float64 vs).

(** ** The part of the script that depends on library routines *)

Section Library.

(** The library's float grammar, consulted for a string that is neither a
    plain integer literal nor [digits.digits] (exponents, inf, padding..). *)
Variable parse_float : pystr → option Qc.
(** [repr] of a float that is not a small integer. *)
Variable repr_float : Qc → pystr.
(** Row order of [sort_values(ascending=False)] under the default sort kind,
    as a function of the sorted column. *)
Variable argsort_desc : list Z → list nat.
(** The CSV tokenizer: [None] when the text cannot be parsed. *)
Variable tokenize : string → option RawTable.
(** The writers; the columnar one may fail with a message. *)
Variable to_csv : DataFrame → string.
Variable to_parquet : DataFrame → string + string.

(** The float a string denotes when it is not an integer literal. *)
Definition parse_fraction (s : pystr) : option Qc :=
  match parse_decimal s with
  | Some q => Some q
  | None => parse_float s
  end.

(** The number a string denotes: an integer that fits 64 bits, or a
    float. *)
Definition parse_number (s : pystr) : option value :=
  match int_literal s with
  | Some z => Some (if in_int64 z then VInt z else VFloat (Qc_of_Z z))
  | None => VFloat <$> parse_fraction s
  end.

(** [floatify] of pandas: the float a string denotes and, when the string
    reads as an integer, that integer ([int(s)]). *)
Definition floatify (s : pystr) : option (Qc * option Z) :=
  match int_literal s with
  | Some z => Some (Qc_of_Z z, Some z)
  | None => (λ q, (q, None)) <$> parse_fraction s
  end.

(** [str(x)] for a Python float: [24.0] prints as ["24.0"]. *)
Definition str_of_float (q : Qc) : pystr :=
  match as_int64 q with
  | Some z => if (Z.abs z <? 10 ^ 16)%Z then str_of_Z z ++ lit ".0" else repr_float q
  | None => repr_float q
  end.

(** [s.astype("string")] *)
Definition astype_string_value (v : value) : value :=
  match v with
  | NA => NA
  | VInt z => VStr (str_of_Z z)
  | VFloat q => VStr (str_of_float q)
  | VStr s => VStr s
  end.

Definition astype_string (s : Series) : Series :=
  mkSeries string_dtype (astype_string_value <$> values s).

(** One iteration of the loop of [clean_strings]. *)
Definition clean_column (s : Series) : Series :=
  replace_empty (str_strip (astype_string s)).

Fixpoint clean_strings_loop (df : DataFrame) (cols : list string) : result DataFrame :=
  match cols with
  | [] => Ok df
  | c :: cols' =>
      match df_get df c with
      | None => Err (KeyError c)
      | Some s => clean_strings_loop (set_col df c (clean_column s)) cols'
      end
  end.

Definition clean_strings (df : DataFrame) (cols : list string) : result DataFrame :=
  clean_strings_loop df (filter (λ c, has_col df c = true) cols).

(** A cell that reads as a float and not as an integer. *)
Definition fractional (v : value) : bool :=
  match v with
  | VFloat _ => true
  | VStr t =>
      if decide (t = []) then false
      else match floatify t with Some (_, None) => true | _ => false end
  | _ => false
  end.

(** [pd.to_numeric(s, errors="coerce")] cell by cell: an empty or
    unparsable string becomes missing. *)
Definition to_numeric_value (v : value) : value :=
  match v with
  | VStr s => if decide (s = []) then NA else default NA (parse_number s)
  | _ => v
  end.

(** On a NumPy dtype the result is a NumPy array, of integers when every
    cell is one. *)
Definition to_numeric_numpy (s : Series) : Series :=
  let vs := to_numeric_value <$> values s in
  let d := if forallb is_int vs then int64 else float64 in
  mkSeries d (cast_value d <$> vs).

(** On the nullable string dtype the result is a masked array.  What
    [maybe_convert_numeric] has seen while it walks the cells decides
    whether it returns its integers, its unsigned integers or its floats. *)
Record Seen := mkSeen {
  int_ : bool; uint_ : bool; sint_ : bool; float_ : bool; null_ : bool
}.

Definition seen_nothing : Seen := mkSeen false false false false false.

Definition saw_null (s : Seen) : Seen :=
  mkSeen (int_ s) (uint_ s) (sint_ s) true true.

Definition saw_float (s : Seen) : Seen :=
  mkSeen (int_ s) (uint_ s) (sint_ s) true (null_ s).

(** A missing cell leaves integers possible while no float has been seen
    ([allow_null_in_int]). *)
Definition saw_masked (s : Seen) : Seen :=
  if float_ s then saw_null s
  else mkSeen (int_ s) (uint_ s) (sint_ s) (float_ s) true.

Definition saw_int (z : Z) (s : Seen) : Seen :=
  let sint := sint_ s || ((INT64_MIN <=? z) && (z <? 0)) in
  let uint := uint_ s || ((INT64_MAX <? z) && (z <=? UINT64_MAX)) in
  let out_of_range := (z <? INT64_MIN) || (UINT64_MAX <? z) in
  mkSeen true uint sint (float_ s || out_of_range || (uint && sint)) (null_ s).

Definition see_cell (s : Seen) (v : value) : Seen :=
  match v with
  | NA => saw_masked s
  | VInt z => saw_int z s
  | VFloat _ => saw_float s
  | VStr t =>
      if decide (t = []) then saw_null s
      else match floatify t with
           | None => saw_masked s
           | Some (_, Some z) => saw_int z s
           | Some (_, None) => saw_float s
           end
  end.

(** A column in which nothing but missing cells was seen comes back as
    floats. *)
Definition seen_all (vs : list value) : Seen :=
  let s := fold_left see_cell vs seen_nothing in
  if negb (float_ s) && null_ s && negb (int_ s) then saw_float s else s.

Inductive parse_mode := AsInt | AsUInt | AsFloat.

Definition mode_of (s : Seen) : parse_mode :=
  if float_ s then AsFloat else if uint_ s then AsUInt else AsInt.

Definition masked_dtype (m : parse_mode) : dtype :=
  match m with AsInt => Int64 | AsUInt => UInt64 | AsFloat => Float64 end.

(** The cell of the masked array: masked where nothing was parsed. *)
Definition masked_cell (m : parse_mode) (v : value) : value :=
  match v with
  | NA => NA
  | VInt z => match m with AsFloat => VFloat (Qc_of_Z z) | _ => VInt z end
  | VFloat q => VFloat q
  | VStr t =>
      if decide (t = []) then NA
      else match floatify t with
           | None => NA
           | Some (q, Some z) => match m with AsFloat => VFloat q | _ => VInt z end
           | Some (q, None) => VFloat q
           end
  end.

Definition to_numeric_masked (s : Series) : Series :=
  let m := mode_of (seen_all (values s)) in
  mkSeries (masked_dtype m) (masked_cell m <$> values s).

(** [pd.to_numeric(s, errors="coerce")].  The masked result is that of a
    string array; any other series, also one that is tagged as strings but
    holds a number, which pandas cannot build, is read as a NumPy array. *)
Definition to_numeric (s : Series) : Series :=
  if string_array s then to_numeric_masked s else to_numeric_numpy s.

(** The chain of replacements applied to an object column. *)
Definition sanitize (s : Series) : Series :=
  str_remove [HYPHEN]
    (str_remove [EM_DASH]
       (str_remove [COMMA]
          (str_remove [THIN_SPACE; NBSP] (astype_string s)))).

(** The body of the loop of [coerce_nullable_ints] for column [c].  The
    handler is reached from a NumPy float column only: the cast of the
    masked array that the sanitized text gives never raises. *)
Definition coerce_int_column (df : DataFrame) (c : string) (s : Series)
  : prog DataFrame :=
  let s := if decide (dtype_of s = object) then sanitize s else s in
  let s := to_numeric s in
  match astype_Int64 s with
  | Ok s' => (Ok (set_col df c s'), [])
  | Err _ => ((s' ← astype_float s; Ok (set_col df c s')), [MsgCoerceFailed c])
  end.

Fixpoint coerce_ints_loop (df : DataFrame) (cols : list string) : prog DataFrame :=
  match cols with
  | [] => (Ok df, [])
  | c :: cols' =>
      match df_get df c with
      | None => (Err (KeyError c), [])
      | Some s => df' ⇐ coerce_int_column df c s;; coerce_ints_loop df' cols'
      end
  end.

Definition coerce_nullable_ints (df : DataFrame) (cols : list string) : prog DataFrame :=
  coerce_ints_loop df (filter (λ c, has_col df c = true) cols).

Fixpoint coerce_floats_loop (df : DataFrame) (cols : list string) : result DataFrame :=
  match cols with
  | [] => Ok df
  | c :: cols' =>
      match df_get df c with
      | None => Err (KeyError c)
      | Some s =>
          s' ← astype_float (to_numeric s);
          coerce_floats_loop (set_col df c s') cols'
      end
  end.

Definition coerce_floats (df : DataFrame) (cols : list string) : result DataFrame :=
  coerce_floats_loop df (filter (λ c, has_col df c = true) cols).

(** [df.sort_values(c, ascending=False)] on an integer column. *)
Definition sort_values_desc (df : DataFrame) (c : string) : result DataFrame :=
  match df_get df c with
  | None => Err (KeyError c)
  | Some s => Ok (take_rows (argsort_desc (int_of_value <$> values s)) df)
  end.

Definition dedupe_rows (df : DataFrame) : result DataFrame :=
  let df := set_col df "_nnz" (notna_sum df) in
  df ← sort_values_desc df "_nnz";
  df ← drop_duplicates df KEY;
  Ok (drop_cols df ["_nnz"]).

(** Column inference of [read_csv]: default missing-value tokens, then
    int64 if every field is an integer, float64 if every present field is
    a number, object otherwise. *)
Definition csv_text_cell (t : pystr) : value :=
  if is_na_token t then NA else VStr t.

Definition csv_number_cell (t : pystr) : value :=
  if is_na_token t then NA else default NA (parse_number t).

Definition infer_column (tokens : list pystr) : Series :=
  let present := filter (λ t, is_na_token t = false) tokens in
  if decide (tokens = []) then mkSeries object []
  else if forallb (λ t, bool_decide (is_Some (parse_number t))) present then
    let d := if forallb (λ t, bool_decide (is_Some (parse_int t))) tokens
             then int64 else float64 in
    mkSeries d (cast_value d ∘ csv_number_cell <$> tokens)
  else mkSeries object (csv_text_cell <$> tokens).

Definition read_csv_table (raw : RawTable) : DataFrame :=
  mkDF (length (records raw))
       (imap (λ j c, (c, infer_column (column_tokens raw j))) (header raw)).

Definition read_csv (w : World) (path : string) : result DataFrame :=
  match files w !! path with
  | None => Err FileNotFoundError
  | Some content =>
      match tokenize content with
      | None => Err ParserError
      | Some raw => Ok (read_csv_table raw)
      end
  end.

(** [df[df["season"] != CURRENT_SEASON]] *)
Definition historical_of (df : DataFrame) : result DataFrame :=
  match df_get df "season" with
  | None => Err (KeyError "season")
  | Some s => Ok (getitem_mask df (series_ne s (VStr CURRENT_SEASON)))
  end.

(** Steps 2 to 4 of [main]. *)
Definition prepare (df : DataFrame) : prog DataFrame :=
  df ⇐ prog_lift (build_canonical df);;
  df ⇐ prog_lift (Ok (drop_redundant_source_cols df));;
  df ⇐ prog_lift (clean_strings df canon_str);;
  df ⇐ coerce_nullable_ints df int_cols;;
  prog_lift (coerce_floats df float_cols).

(** Steps 2 to 6 of [main]: the frame that is persisted. *)
Definition finalize (df : DataFrame) : prog DataFrame :=
  df ⇐ prepare df;;
  df ⇐ prog_lift (dedupe_rows df);;
  prog_lift (historical_of df).

(** Step 8 of [main].  The file system is taken to accept the directory
    and the files: of the writes only the columnar one, which needs an
    engine, is given a way to fail. *)
Definition save (historical : DataFrame) (w : World) : World :=
  let w := mkdir_p w in
  let w := write_file OUTPUT_CSV (to_csv historical) w in
  let w := match to_parquet historical with
           | inl content => write_file OUTPUT_PARQUET content w
           | inr e => print_all [MsgParquetSkipped e] w
           end in
  print_all [MsgDone] w.

Definition main (w : World) : result unit * World :=
  match read_csv w INPUT_CSV with
  | Err e => (Err e, w)
  | Ok df =>
      match finalize df with
      | (Err e, printed) => (Err e, print_all printed w)
      | (Ok historical, printed) => (Ok (), save historical (print_all printed w))
      end
  end.

End Library.

(** ** Which input row each output row comes from *)

(** Row positions in the order [sort_values] leaves them. *)
Definition sort_order (argsort_desc : list Z → list nat) (df : DataFrame) : list nat :=
  argsort_desc (nnz df <$> seq 0 (nrows df)).

(** Positions, in the frame given to [dedupe_rows], of the rows it returns. *)
Definition kept_rows (argsort_desc : list Z → list nat) (df : DataFrame) : list nat :=
  first_occurrences [] ((λ i, (i, row_key df KEY i)) <$> sort_order argsort_desc df).

(** Positions, in the frame given to [historical_of], of the rows it keeps. *)
Definition historical_rows (df : DataFrame) : list nat :=
  match df_get df "season" with
  | Some s => mask_positions 0 (series_ne s (VStr CURRENT_SEASON))
  | None => []
  end.

(** Positions, in the frame [p] that [prepare] returns, of the rows that
    are persisted, in output order. *)
Definition source_rows (argsort_desc : list Z → list nat) (p : DataFrame) : list nat :=
  let kept := kept_rows argsort_desc p in
  match df_get p "season" with
  | Some s =>
      (λ j, default 0%nat (kept !! j))
        <$> mask_positions 0 (series_ne (take_series kept s) (VStr CURRENT_SEASON))
  | None => []
  end.

(** The text of a cell after the four replacements of
    [coerce_nullable_ints]. *)
Definition sanitize_str (t : pystr) : pystr :=
  remove_chars [HYPHEN]
    (remove_chars [EM_DASH] (remove_chars [COMMA] (remove_chars [THIN_SPACE; NBSP] t))).

(** ** What the script may assume of the sort *)

Definition key_at (l : list Z) (i : nat) : Z := default 0 (l !! i).

(** Any sort kind returns the positions of the column, each once, with the
    keys in descending order. *)
Definition argsort_valid (argsort_desc : list Z → list nat) : Prop :=
  ∀ l, argsort_desc l ≡ₚ seq 0 (length l) ∧
       StronglySorted (λ i j, key_at l j ≤ key_at l i) (argsort_desc l).

(** A stable kind moreover leaves equal keys in their original order. *)
Definition argsort_stable (argsort_desc : list Z → list nat) : Prop :=
  ∀ l, StronglySorted (λ i j, key_at l i = key_at l j → (i ≤ j)%nat) (argsort_desc l).

(** The tie-break as the specification words it: of the rows of a key that
    reach the highest count, the output holds the one that comes first in
    the input. *)
Definition first_of_ties_kept (argsort_desc : list Z → list nat) : Prop :=
  ∀ df out i, dedupe_rows argsort_desc df = Ok out → (i < nrows df)%nat →
    ∃ k j, (k < nrows df)%nat ∧ (j < nrows out)%nat ∧
      row_key df KEY k = row_key df KEY i ∧
      (∀ c, c ≠ "_nnz" → cell out c j = cell df c k) ∧
      (∀ i', (i' < nrows df)%nat → row_key df KEY i' = row_key df KEY i →
             nnz df i' < nnz df k ∨ (nnz df i' = nnz df k ∧ (k ≤ i')%nat)).

(** ** Notions used to state the properties *)


(** [first_occurrences] over positions [l] whose key is [key]. *)
Definition fo (key : nat → list value) (seen : list (list value)) (l : list nat)
  : list nat :=
  first_occurrences seen ((λ i, (i, key i)) <$> l).

(** The column as [to_numeric] sees it in the loop of
    [coerce_nullable_ints]. *)
Definition presanitized (repr_float : Qc → pystr) (s : Series) : Series :=
  if decide (dtype_of s = object) then sanitize repr_float s else s.

(** The integer that the cast to [Int64] leaves in the place of the cell
    [v] of a text column whose cells are [vs]. *)
Definition int64_of_text (parse_float : pystr → option Qc) (vs : list value)
    (v : value) : value :=
  let m := mode_of (seen_all parse_float vs) in
  match cast_Int64_value (masked_dtype m) (masked_cell parse_float m v) with
  | Ok v' => v'
  | Err _ => NA
  end.

(** The cells the integer loop leaves in a column it visits: in a text
    column the integers cast from the masked array, in a numeric column the
    numbers as they were. *)
Definition coerced_cells (parse_float : pystr → option Qc) (repr_float : Qc → pystr)
    (s s' : Series) : Prop :=
  let t := presanitized repr_float s in
  if string_array t
  then s' = mkSeries Int64 (int64_of_text parse_float (values t) <$> values t)
  else ∀ i, default NA (values s' !! i) ≈
              to_numeric_value parse_float (default NA (values t !! i)) ∧
            (dtype_of s' = Int64 →
               default NA (values s' !! i) = NA ∨
               ∃ z, default NA (values s' !! i) = VInt z).

(** What the integer loop leaves in a column it visits. *)
Definition coerced_from (parse_float : pystr → option Qc) (repr_float : Qc → pystr)
    (c : string) (s s' : Series) (msgs : list message) : Prop :=
  (dtype_of s' = Int64 ∧ MsgCoerceFailed c ∉ msgs ∨
   dtype_of s' = float64 ∧ MsgCoerceFailed c ∈ msgs) ∧
  coerced_cells parse_float repr_float s s'.

(** The first cell that is not missing, left to right. *)
Fixpoint first_notna (vs : list value) : value :=
  match vs with
  | [] => NA
  | v :: vs' => if notna v then v else first_notna vs'
  end.

(** A text that is not empty and neither starts nor ends with white
    space. *)
Definition trimmed (t : pystr) : Prop :=
  t ≠ [] ∧
  (∀ c, head t = Some c → is_space c = false) ∧
  (∀ c, last t = Some c → is_space c = false).

(** Text lives in object columns only. *)
Definition strings_in_object (s : Series) : Prop :=
  ∀ v, v ∈ values s → is_str v = true → dtype_of s = object.

(** ** Instances of the library routines *)

Module Reference.

Definition indexed (l : list Z) : list (nat * Z) := imap (λ i a, (i, a)) l.

(** Descending keys, ties in input order. *)
Definition before_stable (x y : nat * Z) : Prop :=
  y.2 < x.2 ∨ (y.2 = x.2 ∧ (x.1 ≤ y.1)%nat).

#[global] Instance before_stable_dec x y : Decision (before_stable x y).
Proof. unfold before_stable. apply _. Defined.

Definition argsort_mergesort (l : list Z) : list nat :=
  fst <$> merge_sort before_stable (indexed l).

(** *** The default sort kind

    [sort_values] is called without [kind], so the column is sorted by
    [np.argsort(kind="quicksort")].  What follows is NumPy's generic kernel
    for it, the introsort [aquicksort] of [npysort/quicksort.cpp] with the
    [aheapsort] of [npysort/heapsort.cpp], which runs wherever no vectorised
    kernel is dispatched for the key type. *)

Definition SMALL_QUICKSORT : nat := 16.

(** [npy_get_msb]: the position of the highest set bit. *)
Fixpoint npy_get_msb_from (fuel : nat) (n : Z) : Z :=
  match fuel with
  | O => 0
  | S fuel => if 1 <? n then 1 + npy_get_msb_from fuel (n / 2) else 0
  end.

Definition npy_get_msb (n : nat) : Z := npy_get_msb_from n (Z.of_nat n).

Section argsort.
(** The keys [v]; the array [tosort] of positions is threaded through the
    steps as [t]. *)
Variable v : list Z.

Definition at_pos (t : list nat) (p : nat) : nat := default 0%nat (t !! p).
Definition key_of (i : nat) : Z := default 0 (v !! i).
Definition key_at_pos (t : list nat) (p : nat) : Z := key_of (at_pos t p).

(** [INTP_SWAP] of the cells at [p] and [q]. *)
Definition swap (p q : nat) (t : list nat) : list nat :=
  <[p := at_pos t q]> (<[q := at_pos t p]> t).

(** [if (v[tosort[p]] < v[tosort[q]]) INTP_SWAP] *)
Definition swap_if_less (p q : nat) (t : list nat) : list nat :=
  if key_at_pos t p <? key_at_pos t q then swap p q t else t.

(** [do ++pi; while (v[tosort[pi]] < vp)], entered at the incremented
    [pi]. *)
Fixpoint scan_up (fuel : nat) (vp : Z) (t : list nat) (pi : nat) : nat :=
  match fuel with
  | O => pi
  | S fuel => if key_at_pos t pi <? vp then scan_up fuel vp t (S pi) else pi
  end.

(** [do --pj; while (vp < v[tosort[pj]])], entered at the decremented
    [pj]. *)
Fixpoint scan_down (fuel : nat) (vp : Z) (t : list nat) (pj : nat) : nat :=
  match fuel with
  | O => pj
  | S fuel => if vp <? key_at_pos t pj then scan_down fuel vp t (pred pj) else pj
  end.

Fixpoint partition_loop (fuel : nat) (vp : Z) (pi pj : nat) (t : list nat)
  : list nat * nat :=
  match fuel with
  | O => (t, pi)
  | S fuel =>
      let pi := scan_up (length t) vp t (S pi) in
      let pj := scan_down (length t) vp t (pred pj) in
      if (pj <=? pi)%nat then (t, pi)
      else partition_loop fuel vp pi pj (swap pi pj t)
  end.

(** One partition step on [pl..pr]: the median of three goes to the
    middle, the pivot is parked at [pr - 1], the two scans run, and the
    pivot is put in its place [pi]. *)
Definition partition (pl pr : nat) (t : list nat) : list nat * nat :=
  let pm := (pl + (pr - pl) / 2)%nat in
  let t := swap_if_less pm pl t in
  let t := swap_if_less pr pm t in
  let t := swap_if_less pm pl t in
  let vp := key_at_pos t pm in
  let t := swap pm (pr - 1) t in
  let '(t, pi) := partition_loop (length t) vp pl (pr - 1)%nat t in
  (swap pi (pr - 1) t, pi).

(** The inner loop of the insertion sort: cells move up while [pj > pl]
    and the key [vp] is less than the one below. *)
Fixpoint shift_up (fuel : nat) (pl : nat) (vp : Z) (pj : nat) (t : list nat)
  : list nat * nat :=
  match fuel with
  | O => (t, pj)
  | S fuel =>
      if (pl <? pj)%nat && (vp <? key_at_pos t (pj - 1))
      then shift_up fuel pl vp (pj - 1)%nat (<[pj := at_pos t (pj - 1)]> t)
      else (t, pj)
  end.

Definition insertion_sort (pl pr : nat) (t : list nat) : list nat :=
  foldl (λ t pi,
           let vi := at_pos t pi in
           let '(t, pj) := shift_up pi pl (key_of vi) pi t in
           <[pj := vi]> t)
        t (seq (S pl) (pr - pl)).

(** The sift of [aheapsort], on the one-based array that starts at
    [lo]. *)
Fixpoint sift (fuel : nat) (lo : nat) (tmp : nat) (i j n : nat) (t : list nat)
  : list nat * nat :=
  match fuel with
  | O => (t, i)
  | S fuel =>
      if (j <=? n)%nat then
        let j := if (j <? n)%nat && (key_at_pos t (lo + j - 1) <? key_at_pos t (lo + j))
                 then S j else j in
        if key_of tmp <? key_at_pos t (lo + j - 1)
        then sift fuel lo tmp j (j + j)%nat n
               (<[(lo + i - 1)%nat := at_pos t (lo + j - 1)]> t)
        else (t, i)
      else (t, i)
  end.

Definition sift_in (lo : nat) (tmp : nat) (i n : nat) (t : list nat) : list nat :=
  let '(t, i) := sift n lo tmp i (2 * i)%nat n t in
  <[(lo + i - 1)%nat := tmp]> t.

Definition aheapsort (lo n : nat) (t : list nat) : list nat :=
  let t := foldl (λ t l, sift_in lo (at_pos t (lo + l - 1)) l n t)
                 t (reverse (seq 1 (n / 2))) in
  foldl (λ t n,
           let tmp := at_pos t (lo + n - 1) in
           let t := <[(lo + n - 1)%nat := at_pos t lo]> t in
           sift_in lo tmp 1 (n - 1) t)
        t (reverse (seq 2 (n - 1))).

(** The main loop.  A range taken from the stack is heap-sorted when its
    depth budget is spent; otherwise it is partitioned for as long as it is
    longer than [SMALL_QUICKSORT], the larger part going to the stack, and
    what is left is insertion-sorted. *)
Fixpoint aquicksort_loop (fuel : nat) (popped : bool) (cdepth : Z) (pl pr : nat)
    (stack : list (nat * nat * Z)) (t : list nat) : list nat :=
  match fuel with
  | O => t
  | S fuel =>
      if popped && (cdepth <? 0) then
        let t := aheapsort pl (pr - pl + 1) t in
        match stack with
        | [] => t
        | (pl, pr, cdepth) :: stack => aquicksort_loop fuel true cdepth pl pr stack t
        end
      else if (SMALL_QUICKSORT <? pr - pl)%nat then
        let '(t, pi) := partition pl pr t in
        if (pi - pl <? pr - pi)%nat
        then aquicksort_loop fuel false (cdepth - 1) pl (pi - 1)%nat
               ((S pi, pr, cdepth - 1) :: stack) t
        else aquicksort_loop fuel false (cdepth - 1) (S pi) pr
               ((pl, (pi - 1)%nat, cdepth - 1) :: stack) t
      else
        let t := insertion_sort pl pr t in
        match stack with
        | [] => t
        | (pl, pr, cdepth) :: stack => aquicksort_loop fuel true cdepth pl pr stack t
        end
  end.

(** [np.argsort(v, kind="quicksort")] *)
Definition aquicksort : list nat :=
  let num := length v in
  aquicksort_loop (2 * num + 1) true (2 * npy_get_msb num) 0 (num - 1) [] (seq 0 num).

End argsort.

(** [nargsort(items, kind="quicksort", ascending=False)] of pandas, which
    [sort_values] calls: the reversed column is sorted in ascending order
    and the positions found are reversed. *)
Definition nargsort_desc (items : list Z) : list nat :=
  let idx := reverse (seq 0 (length items)) in
  reverse ((λ k, default 0%nat (idx !! k)) <$> aquicksort (reverse items)).

(** No float syntax beyond [digits.digits]. *)
Definition parse_float_none (s : pystr) : option Qc := None.

Definition repr_float_ratio (q : Qc) : pystr :=
  lit (pretty (Qnum (this q)) +:+ "/" +:+ pretty (Z.pos (Qden (this q)))).

(** A tokenizer for comma-separated text without quoting: the first line is
    the header. *)
Fixpoint split_on (sep : ascii) (s : string) : list string :=
  match s with
  | EmptyString => [EmptyString]
  | String a s' =>
      if decide (a = sep) then EmptyString :: split_on sep s'
      else match split_on sep s' with
           | x :: xs => String a x :: xs
           | [] => [String a EmptyString]
           end
  end.

Definition tokenize_plain (content : string) : option RawTable :=
  match split_on "010"%char content with
  | h :: rows =>
      if decide (h = EmptyString) then None
      else Some (mkRaw (split_on ","%char h)
                       ((λ r, lit <$> split_on ","%char r) <$> rows))
  | [] => None
  end.

Definition render_value (v : value) : string :=
  match v with
  | NA => ""
  | VInt z => pretty z
  | VFloat q => pretty (Qnum (this q)) +:+ "/" +:+ pretty (Z.pos (Qden (this q)))
  | VStr s => string_of_list_ascii ((λ c, ascii_of_N c) <$> s)
  end.

Fixpoint join (sep : string) (l : list string) : string :=
  match l with
  | [] => EmptyString
  | [x] => x
  | x :: l' => x +:+ sep +:+ join sep l'
  end.

Definition to_csv_plain (df : DataFrame) : string :=
  join (String "010" EmptyString)
    (join "," (fst <$> columns df) ::
     ((λ i, join "," ((λ p, render_value (default NA (values p.2 !! i))) <$> columns df))
        <$> seq 0 (nrows df))).

Definition to_parquet_ok (df : DataFrame) : string + string :=
  inl ("PAR1" +:+ to_csv_plain df).

Definition to_parquet_unavailable (df : DataFrame) : string + string :=
  inr "Unable to find a usable engine".

End Reference.

(** ** Sample inputs *)

Module Samples.
Import Reference.

Definition nl : string := String "010" EmptyString.

Definition header_line : string :=
  "player,team,league,season,nationality_standard,nationality_misc,country_code_standard,country_code_misc,position_standard,position_misc,age_standard,age_misc,birth_year_standard,birth_year_misc,goals".

(** Two records for one player-season (the first more complete, with an
    empty [age_standard]), one record of the current season and one
    without a season. *)
Definition csv_text : string :=
  header_line +:+ nl +:+
  "John Doe,TeamA,LeagueX,2022-2023,,FRA,,fr,FW,MF,,24,1998,,7" +:+ nl +:+
  "John Doe,TeamA,LeagueX,2022-2023,ENG,,,,,,,,,,7" +:+ nl +:+
  "Jane Roe,TeamB,LeagueX,2024-2025,ENG,,en,,MF,,30,31,1994,,3" +:+ nl +:+
  "Sam Poe,TeamC,LeagueX,,ENG,,en,,MF,,28,,1996,,5".

(** The same table without the [age_misc] column. *)
Definition csv_without_age_misc : string :=
  "player,team,league,season,nationality_standard,nationality_misc,country_code_standard,country_code_misc,position_standard,position_misc,age_standard,birth_year_standard,birth_year_misc,goals"
  +:+ nl +:+ "John Doe,TeamA,LeagueX,2022-2023,,FRA,,fr,FW,MF,24,1998,,7".

Definition world_of (content : string) : World :=
  mkWorld {[ INPUT_CSV := content ]} ∅ [].

Definition world : World := world_of csv_text.
Definition world_without_age_misc : World := world_of csv_without_age_misc.
(** A file system with leftovers and no working columnar writer. *)
Definition world_again : World :=
  mkWorld (<[OUTPUT_CSV := "stale"]> {[ INPUT_CSV := csv_text ]}) {[ "data" ]} [MsgDone].

Definition run (to_parquet : DataFrame → string + string) (w : World)
  : result () * World :=
  main parse_float_none repr_float_ratio argsort_mergesort tokenize_plain
       to_csv_plain to_parquet w.

Definition or_empty (r : result DataFrame) : DataFrame :=
  match r with Ok d => d | Err _ => mkDF 0 [] end.

Definition raw : RawTable := default (mkRaw [] []) (tokenize_plain csv_text).
Definition table : DataFrame := read_csv_table parse_float_none raw.
Definition table_without_age_misc : DataFrame :=
  read_csv_table parse_float_none
    (default (mkRaw [] []) (tokenize_plain csv_without_age_misc)).
(** A file that holds the header alone, without the [player] column. *)
Definition csv_header_only : string :=
  "team,league,season,nationality_standard,nationality_misc,country_code_standard,country_code_misc,position_standard,position_misc,age_standard,age_misc,birth_year_standard,birth_year_misc,goals".

Definition table_header_only : DataFrame :=
  read_csv_table parse_float_none
    (default (mkRaw [] []) (tokenize_plain csv_header_only)).

Definition canonical : DataFrame := or_empty (build_canonical table).
Definition prepared : DataFrame :=
  or_empty (prepare parse_float_none repr_float_ratio table).1.
Definition deduped : DataFrame := or_empty (dedupe_rows argsort_mergesort prepared).
Definition historical : DataFrame := or_empty (historical_of deduped).

(** Twenty-four records, one for each of twenty-three players: records 2
    and 6 are of the same player and share their key.  [shirt] numbers the
    records; [goals] is missing in every other block of three records, so
    that records 2 and 6 are equally complete. *)
Definition squad : DataFrame :=
  mkDF 24
    [("player", mkSeries object
                  ((λ i, VStr (lit "P" ++ str_of_Z (Z.of_nat (if decide (i = 6%nat)
                                                               then 2 else i))))
                     <$> seq 0 24));
     ("team", mkSeries object (replicate 24 (VStr (lit "T"))));
     ("league", mkSeries object (replicate 24 (VStr (lit "L"))));
     ("season", mkSeries object (replicate 24 (VStr (lit "2022-2023"))));
     ("shirt", mkSeries int64 ((λ i, VInt (Z.of_nat i)) <$> seq 0 24));
     ("goals", mkSeries float64
                 ((λ i, if Nat.even (i / 3) then NA else VFloat (Qc_of_Z 1)) <$> seq 0 24))].

Definition squad_deduped : DataFrame := or_empty (dedupe_rows nargsort_desc squad).

(** An integer column read as text. *)
Definition matches : Series :=
  mkSeries object [VStr (lit "1,234"); VStr [EM_DASH]; VStr [HYPHEN];
                   VStr (lit "-5"); VStr (lit "twelve")].

Definition stats : DataFrame := mkDF 5 [("matches_played", matches)].



End Samples.

(** ** A small roster with untidy cells *)

Module Roster.
Import Reference Samples.

(** Names with stray white space, a blank one and a missing one. *)
Definition names : Series :=
  mkSeries object [VStr (lit " John Doe "); VStr (lit "  "); NA].

(** Minutes already read as integers. *)
Definition minutes : Series := mkSeries int64 [VInt 90; VInt 45; VInt 0].

(** Goals read as text, with a fractional entry. *)
Definition goals : Series :=
  mkSeries object [VStr (lit "1.5"); VStr (lit "3"); NA].

(** Assists read as floats, with a fractional entry, which no integer
    column can hold. *)
Definition assists : Series :=
  mkSeries float64 [VFloat (Q2Qc (3 # 2)); VFloat (Qc_of_Z 3); NA].

Definition per90 : Series :=
  mkSeries object [VStr (lit "0.5"); VStr (lit "n/a"); VStr (lit "2")].

Definition roster : DataFrame :=
  mkDF 3 [("player", names); ("minutes", minutes); ("goals", goals);
          ("goals_per90", per90); ("assists", assists)].

(** The deduplicated sample, deduplicated once more. *)
Definition deduped_again : DataFrame :=
  or_empty (dedupe_rows argsort_mergesort deduped).

(** A file system without the input file. *)
Definition world_empty : World := mkWorld ∅ ∅ [].

End Roster.

(** * Properties *)

#[local] Set Warnings "-clear-no-such-hyp".

(** ** Frames *)

Ltac str_ne := let H := fresh in intros H; discriminate H.

(** Refutes membership of a label in a literal list of other labels. *)
Ltac not_in_list H :=
  repeat (apply elem_of_cons in H as [H|H]; [discriminate H|]);
  by apply elem_of_nil in H.

Lemma assoc_get_set_eq c s l : assoc_get c (assoc_set c s l) = Some s.
Proof.
  induction l as [|[c' s'] l IH]; simpl.
  - by rewrite decide_True.
  - destruct (decide (c' = c)) as [->|Hne]; simpl.
    + by rewrite decide_True.
    + by rewrite decide_False.
Qed.

Lemma assoc_get_set_ne c c' s l :
  c ≠ c' → assoc_get c' (assoc_set c s l) = assoc_get c' l.
Proof.
  intros Hne. induction l as [|[c0 s0] l IH]; simpl.
  - by rewrite decide_False.
  - destruct (decide (c0 = c)) as [->|Hne0]; simpl.
    + by rewrite !decide_False.
    + destruct (decide (c0 = c')); [done | apply IH].
Qed.

Lemma df_get_set_col_eq df c s : df_get (set_col df c s) c = Some s.
Proof. apply assoc_get_set_eq. Qed.

Lemma df_get_set_col_ne df c c' s :
  c ≠ c' → df_get (set_col df c s) c' = df_get df c'.
Proof. apply assoc_get_set_ne. Qed.

Lemma df_get_set_col df c c' s :
  df_get (set_col df c s) c' = if decide (c = c') then Some s else df_get df c'.
Proof.
  destruct (decide (c = c')) as [->|Hne];
    [apply df_get_set_col_eq | by apply df_get_set_col_ne].
Qed.

Lemma df_get_setitem_ne df c c' o :
  c ≠ c' → df_get (setitem df c o) c' = df_get df c'.
Proof. intros Hne. destruct o; by apply df_get_set_col_ne. Qed.

Lemma nrows_set_col df c s : nrows (set_col df c s) = nrows df.
Proof. done. Qed.

Lemma assoc_get_filter (P : string → Prop) `{!∀ c, Decision (P c)} c l :
  assoc_get c (filter (λ p, P p.1) l) = if decide (P c) then assoc_get c l else None.
Proof.
  induction l as [|[c' s'] l IH]; simpl.
  - by destruct (decide (P c)).
  - rewrite filter_cons. simpl. destruct (decide (P c')) as [HP|HP]; simpl.
    + destruct (decide (c' = c)) as [->|Hne].
      * by rewrite decide_True.
      * apply IH.
    + rewrite IH. destruct (decide (c' = c)) as [->|Hne]; [|done].
      by destruct (decide (P c)).
Qed.

Lemma df_get_drop_cols df cs c :
  df_get (drop_cols df cs) c = if decide (c ∈ cs) then None else df_get df c.
Proof.
  unfold df_get, drop_cols. simpl.
  pose proof (assoc_get_filter (λ c, c ∉ cs) c (columns df)) as E.
  cbv beta in E. rewrite E. clear E.
  destruct (decide (c ∈ cs)); [by rewrite decide_False by auto | by rewrite decide_True].
Qed.

Lemma assoc_get_fmap (f : Series → Series) c l :
  assoc_get c (prod_map id f <$> l) = f <$> assoc_get c l.
Proof.
  induction l as [|[c' s'] l IH]; simpl; [done|].
  destruct (decide (c' = c)); [done | apply IH].
Qed.

Lemma df_get_take_rows idxs df c :
  df_get (take_rows idxs df) c = take_series idxs <$> df_get df c.
Proof. apply assoc_get_fmap. Qed.

Lemma cell_take_rows idxs df c j :
  cell (take_rows idxs df) c j =
  match idxs !! j with Some i => cell df c i | None => NA end.
Proof.
  unfold cell. rewrite df_get_take_rows.
  destruct (df_get df c) as [s|]; simpl.
  - rewrite list_lookup_fmap. by destruct (idxs !! j).
  - by destruct (idxs !! j).
Qed.

Lemma cell_of_get df c s i :
  df_get df c = Some s → cell df c i = default NA (values s !! i).
Proof. intros H. unfold cell. by rewrite H. Qed.

Lemma cell_set_col_ne df c c' s i :
  c ≠ c' → cell (set_col df c s) c' i = cell df c' i.
Proof. intros Hne. unfold cell. by rewrite df_get_set_col_ne. Qed.

Lemma cell_drop_cols_ne df cs c i :
  c ∉ cs → cell (drop_cols df cs) c i = cell df c i.
Proof. intros Hne. unfold cell. rewrite df_get_drop_cols. by rewrite decide_False. Qed.

Lemma has_col_true df c : has_col df c = true ↔ is_Some (df_get df c).
Proof. unfold has_col. apply bool_decide_eq_true. Qed.

Lemma has_col_false df c : has_col df c = false ↔ df_get df c = None.
Proof.
  unfold has_col. rewrite bool_decide_eq_false, <- eq_None_not_Some. done.
Qed.

(** ** Values *)

Lemma value_eq_refl v : v ≈ v.
Proof. done. Qed.

Lemma value_eq_sym a b : a ≈ b → b ≈ a.
Proof. unfold value_eq. congruence. Qed.

Lemma value_eq_trans a b c : a ≈ b → b ≈ c → a ≈ c.
Proof. unfold value_eq. congruence. Qed.

Lemma cast_value_eq d v : cast_value d v ≈ v.
Proof. by destruct d, v. Qed.

Lemma cast_value_NA d : cast_value d NA = NA.
Proof. by destruct d. Qed.

Lemma value_eq_NA v : v ≈ NA → v = NA.
Proof. unfold value_eq. by destruct v. Qed.

Lemma notna_value_eq a b : a ≈ b → notna a = notna b.
Proof. unfold value_eq. by destruct a, b. Qed.

(** ** Canonical columns *)

Lemma combine_first_lookup a b i :
  default NA (values (combine_first a b) !! i) =
  cast_value (combined_dtype a b)
    (if notna (default NA (values a !! i))
     then default NA (values a !! i) else default NA (values b !! i)).
Proof.
  unfold combine_first. cbn [values]. rewrite list_lookup_fmap.
  destruct (decide (i < max (length (values a)) (length (values b)))%nat) as [Hlt|Hge].
  - by rewrite lookup_seq_lt.
  - rewrite lookup_seq_ge by lia. simpl.
    rewrite (lookup_ge_None_2 (values a)) by lia.
    rewrite (lookup_ge_None_2 (values b)) by lia.
    simpl. by rewrite cast_value_NA.
Qed.

Ltac canon_step df :=
  rewrite ?df_get_set_col_ne by str_ne;
  match goal with
  | |- context [df_get df ?c] =>
      destruct (df_get df c) eqn:?; simpl; try discriminate
  end.

(** When [build_canonical] returns, each canonical column is the
    [combine_first] of its two source columns. *)
Lemma build_canonical_Ok df df' f :
  build_canonical df = Ok df' → f ∈ canonical_fields →
  ∃ a b, df_get df (f +:+ "_standard") = Some a ∧
         df_get df (f +:+ "_misc") = Some b ∧
         df_get df' f = Some (combine_first a b).
Proof.
  intros H Hf. revert H. unfold build_canonical, coalesce. simpl.
  do 10 canon_step df. intros [= <-].
  unfold canonical_fields in Hf.
  repeat (apply elem_of_cons in Hf as [->|Hf]); [..|by apply elem_of_nil in Hf];
    simpl; eexists _, _; (split_and!; [eassumption..|]);
    rewrite ?df_get_set_col_ne by str_ne; apply df_get_set_col_eq.
Qed.

(** The columns other than the five canonical ones are left as they were. *)
Lemma build_canonical_other df df' c :
  build_canonical df = Ok df' → c ∉ canonical_fields →
  df_get df' c = df_get df c.
Proof.
  intros H Hc. revert H. unfold build_canonical, coalesce. simpl.
  do 10 canon_step df. intros [= <-].
  unfold canonical_fields in Hc.
  rewrite !df_get_set_col_ne; [done|intros <-; apply Hc; set_solver..].
Qed.

Lemma nrows_build_canonical df df' :
  build_canonical df = Ok df' → nrows df' = nrows df.
Proof.
  unfold build_canonical, coalesce. simpl.
  do 10 canon_step df. by intros [= <-].
Qed.

(** [build_canonical] returns as soon as the ten source columns exist. *)
Lemma build_canonical_total df :
  (∀ c, c ∈ to_drop → is_Some (df_get df c)) → is_Ok (build_canonical df).
Proof.
  intros Hall. unfold build_canonical, coalesce. simpl.
  do 10 (rewrite ?df_get_set_col_ne by str_ne;
         match goal with
         | |- context [df_get df ?c] =>
             let H := fresh in
             destruct (Hall c) as [? H]; [unfold to_drop; set_solver|];
             rewrite H; simpl
         end).
  by eexists.
Qed.

(** A missing source column makes it raise AttributeError. *)
Lemma build_canonical_missing df c :
  c ∈ to_drop → df_get df c = None → build_canonical df = Err AttributeError.
Proof.
  intros Hc Hnone. unfold to_drop in Hc.
  repeat (apply elem_of_cons in Hc as [->|Hc]); [..|by apply elem_of_nil in Hc];
    unfold build_canonical, coalesce; simpl;
    repeat (rewrite ?df_get_set_col_ne by str_ne; rewrite ?Hnone; simpl;
            try reflexivity;
            match goal with
            | |- context [df_get df ?c] => destruct (df_get df c) eqn:?; simpl
            end; try reflexivity).
Qed.

Lemma build_canonical_Err df e :
  build_canonical df = Err e →
  e = AttributeError ∧ ∃ c, c ∈ to_drop ∧ df_get df c = None.
Proof.
  destruct (decide (Forall (λ c, is_Some (df_get df c)) to_drop)) as [Hall|Hex].
  - rewrite Forall_forall in Hall.
    destruct (build_canonical_total df) as [? ->]; [|done].
    intros c Hc. by apply Hall.
  - apply not_Forall_Exists in Hex; [|apply _].
    apply Exists_exists in Hex as (c & Hc & Hn).
    apply eq_None_not_Some in Hn.
    rewrite (build_canonical_missing df c) by done.
    intros [= <-]. eauto.
Qed.

(** C1. For every row and every field among nationality, country_code,
    position, age and birth_year: when the [_standard] cell is present the
    canonical cell equals it, whatever the [_misc] cell; when the
    [_standard] cell is missing and the [_misc] cell is present the
    canonical cell equals the [_misc] cell; when both are missing the
    canonical cell is missing.  Equality is equality of values: a cell may
    move from an int64 to a float64 column on the way. *)
Theorem build_canonical_first_non_null df df' f i :
  build_canonical df = Ok df' → f ∈ canonical_fields →
  (notna (cell df (f +:+ "_standard") i) = true →
     cell df' f i ≈ cell df (f +:+ "_standard") i) ∧
  (notna (cell df (f +:+ "_standard") i) = false →
   notna (cell df (f +:+ "_misc") i) = true →
     cell df' f i ≈ cell df (f +:+ "_misc") i) ∧
  (notna (cell df (f +:+ "_standard") i) = false →
   notna (cell df (f +:+ "_misc") i) = false →
     cell df' f i = NA).
Proof.
  intros H Hf.
  destruct (build_canonical_Ok df df' f H Hf) as (a & b & Ha & Hb & Hc).
  rewrite (cell_of_get _ _ _ _ Ha), (cell_of_get _ _ _ _ Hb), (cell_of_get _ _ _ _ Hc).
  rewrite combine_first_lookup.
  split_and!.
  - intros ->. apply cast_value_eq.
  - intros -> _. apply cast_value_eq.
  - intros -> Hn. destruct (default NA (values b !! i)); try discriminate.
    apply cast_value_NA.
Qed.

(** ** Deduplication *)

Arguments row_key : simpl never.
Arguments cell : simpl never.
Arguments nnz : simpl never.

Lemma list_as_lookups (l : list nat) :
  l = (λ p, default 0%nat (l !! p)) <$> seq 0 (length l).
Proof.
  apply list_eq. intros p. rewrite list_lookup_fmap.
  destruct (decide (p < length l)%nat) as [Hlt|Hge].
  - rewrite lookup_seq_lt by done. simpl.
    destruct (lookup_lt_is_Some_2 l p Hlt) as [x Hx]. by rewrite Hx.
  - rewrite lookup_seq_ge by lia. by rewrite lookup_ge_None_2 by lia.
Qed.

Section fo.
Variable key : nat → list value.

Lemma fo_cons seen i l :
  fo key seen (i :: l) =
  if decide (key i ∈ seen) then fo key seen l else i :: fo key (key i :: seen) l.
Proof. done. Qed.

Lemma fo_elem seen l j : j ∈ fo key seen l → j ∈ l ∧ key j ∉ seen.
Proof.
  revert seen. induction l as [|i l IH]; intros seen.
  - intros []%elem_of_nil.
  - rewrite fo_cons. destruct (decide (key i ∈ seen)) as [Hin|Hnin].
    + intros [??]%IH. split; [by right | done].
    + intros [->|Hj]%elem_of_cons; [split; [by left | done]|].
      apply IH in Hj as [? Hns]. split; [by right|].
      intros ?. apply Hns. by right.
Qed.

Lemma fo_lt seen l n : Forall (λ i, i < n)%nat l → Forall (λ i, i < n)%nat (fo key seen l).
Proof.
  rewrite !Forall_forall. intros H j Hj. apply H. by apply fo_elem in Hj as [? _].
Qed.

(** The rows kept have pairwise different keys. *)
Lemma fo_keys_NoDup seen l : NoDup (key <$> fo key seen l).
Proof.
  revert seen. induction l as [|i l IH]; intros seen.
  - constructor.
  - rewrite fo_cons. destruct (decide (key i ∈ seen)) as [Hin|Hnin]; [apply IH|].
    rewrite fmap_cons. constructor; [|apply IH].
    intros (j & Hk & Hj)%list_elem_of_fmap.
    apply fo_elem in Hj as [_ Hns]. apply Hns. rewrite <- Hk. by left.
Qed.

(** Every row is represented by a kept row of the same key that the sort
    placed no later. *)
Lemma fo_covers (R : relation nat) seen l i :
  StronglySorted R l → i ∈ l →
  key i ∈ seen ∨ ∃ k, k ∈ fo key seen l ∧ key k = key i ∧ (k = i ∨ R k i).
Proof.
  intros Hs. revert seen. induction Hs as [|i0 l Hs IH Hall]; intros seen.
  - intros []%elem_of_nil.
  - rewrite fo_cons. intros [->|Hi]%elem_of_cons.
    + destruct (decide (key i0 ∈ seen)); [by left|].
      right. exists i0. split_and!; [by left | done | by left].
    + destruct (decide (key i0 ∈ seen)) as [Hin|Hnin]; [by apply IH|].
      destruct (IH (key i0 :: seen) Hi) as [[Heq|Hin]%elem_of_cons|(k & Hk & ? & ?)].
      * right. exists i0. split_and!; [by left | done |].
        right. rewrite Forall_forall in Hall. by apply Hall.
      * by left.
      * right. exists k. split_and!; [by right | done..].
Qed.

End fo.

Lemma first_occurrences_fmap (g : nat → nat) (k : nat → list value) seen l :
  first_occurrences seen ((λ p, (g p, k p)) <$> l) =
  g <$> first_occurrences seen ((λ p, (p, k p)) <$> l).
Proof.
  revert seen. induction l as [|p l IH]; intros seen; simpl; [done|].
  destruct (decide (k p ∈ seen)); [apply IH|].
  rewrite fmap_cons. f_equal. apply IH.
Qed.

Lemma take_rows_take_rows idxs k df :
  Forall (λ p, p < length idxs)%nat k →
  take_rows k (take_rows idxs df) =
  take_rows ((λ p, default 0%nat (idxs !! p)) <$> k) df.
Proof.
  intros Hk. unfold take_rows. simpl. rewrite length_fmap. f_equal.
  rewrite <- list_fmap_compose. apply list_fmap_ext. intros _ [c s] _. simpl.
  unfold prod_map, take_series. simpl. do 2 f_equal.
  rewrite <- list_fmap_compose. apply Forall_fmap_ext_1.
  eapply Forall_impl; [exact Hk|]. intros p Hp. simpl.
  rewrite list_lookup_fmap.
  destruct (lookup_lt_is_Some_2 idxs p Hp) as [x Hx]. by rewrite Hx.
Qed.

Lemma has_col_take_rows idxs df c : has_col (take_rows idxs df) c = has_col df c.
Proof.
  unfold has_col. rewrite df_get_take_rows. apply bool_decide_ext.
  by rewrite fmap_is_Some.
Qed.

Lemma has_col_set_col_ne df c c' s :
  c ≠ c' → has_col (set_col df c s) c' = has_col df c'.
Proof. intros Hne. unfold has_col. by rewrite df_get_set_col_ne. Qed.

Lemma row_key_ext df1 df2 subset i j :
  (∀ c, c ∈ subset → cell df1 c i = cell df2 c j) →
  row_key df1 subset i = row_key df2 subset j.
Proof.
  intros H. unfold row_key. apply list_fmap_ext. intros ? c Hc.
  f_equal. apply H. by eapply list_elem_of_lookup_2.
Qed.

Lemma missing_key_cols_ext df df' :
  (∀ c, c ≠ "_nnz" → has_col df' c = has_col df c) →
  filter (λ c, has_col df' c = false) KEY = filter (λ c, has_col df c = false) KEY.
Proof.
  intros H. unfold KEY. rewrite !filter_cons, !filter_nil.
  by rewrite !H by str_ne.
Qed.

Section dedupe.
Variable argsort_desc : list Z → list nat.

Lemma assoc_set_not_nil c s l : assoc_set c s l ≠ [].
Proof. destruct l as [|[c' s'] l]; simpl; [done|]. by destruct (decide (c' = c)). Qed.

(** What [dedupe_rows] computes: the rows [kept_rows], and KeyError when
    a key column is absent from a frame that has rows. *)
Lemma dedupe_rows_unfold df :
  dedupe_rows argsort_desc df =
  match (if decide (sort_order argsort_desc df = []) then []
         else filter (λ c, has_col df c = false) KEY) with
  | c :: _ => Err (KeyError c)
  | [] => Ok (drop_cols (take_rows (kept_rows argsort_desc df)
                           (set_col df "_nnz" (notna_sum df))) ["_nnz"])
  end.
Proof.
  unfold dedupe_rows, sort_values_desc. rewrite df_get_set_col_eq. simpl.
  set (df1 := set_col df "_nnz" (notna_sum df)).
  assert (int_of_value <$> ((λ i, VInt (nnz df i)) <$> seq 0 (nrows df))
          = nnz df <$> seq 0 (nrows df)) as ->.
  { rewrite <- list_fmap_compose. by apply list_fmap_ext. }
  fold (sort_order argsort_desc df). set (perm := sort_order argsort_desc df).
  unfold drop_duplicates.
  assert (Hh : ∀ c, c ≠ "_nnz" → has_col (take_rows perm df1) c = has_col df c).
  { intros c Hc. rewrite has_col_take_rows. apply has_col_set_col_ne. congruence. }
  rewrite (missing_key_cols_ext df _ Hh).
  assert (df_empty (take_rows perm df1) = bool_decide (perm = [])) as ->.
  { unfold df_empty. apply bool_decide_ext. simpl. split.
    - intros [Hl|Hc]; [by apply length_zero_iff_nil|].
      apply fmap_nil_inv in Hc. by apply assoc_set_not_nil in Hc.
    - intros ->. by left. }
  destruct (decide (perm = [])) as [Hperm|Hperm].
  { rewrite bool_decide_eq_true_2 by done. cbn [mbind result_bind]. do 2 f_equal.
    unfold kept_rows. fold perm. by rewrite Hperm. }
  rewrite bool_decide_eq_false_2 by done.
  destruct (filter _ KEY); [|done]. cbn [mbind result_bind]. do 2 f_equal.
  rewrite take_rows_take_rows.
  2:{ simpl. eapply Forall_impl.
      - apply (fo_lt (row_key (take_rows perm df1) KEY) [] _ (length perm)).
        apply Forall_forall. intros p Hp%elem_of_seq. lia.
      - done. }
  f_equal. unfold kept_rows. fold perm.
  rewrite <- (first_occurrences_fmap (λ p, default 0%nat (perm !! p))
                (λ p, row_key (take_rows perm df1) KEY p)).
  f_equal.
  trans ((λ i, (i, row_key df KEY i))
           <$> ((λ p, default 0%nat (perm !! p)) <$> seq 0 (length perm)));
    [|by rewrite <- list_as_lookups].
  rewrite <- list_fmap_compose.
  apply list_fmap_ext. intros q p Hp. simpl.
  apply lookup_seq in Hp as [-> Hp]. simpl.
  destruct (lookup_lt_is_Some_2 perm q Hp) as [x Hx]. rewrite Hx. simpl. f_equal.
  apply row_key_ext. intros c Hc. rewrite cell_take_rows, Hx.
  apply cell_set_col_ne. intros <-. unfold KEY in Hc. not_in_list Hc.
Qed.

Lemma dedupe_rows_Ok df out :
  dedupe_rows argsort_desc df = Ok out →
  out = drop_cols (take_rows (kept_rows argsort_desc df)
                     (set_col df "_nnz" (notna_sum df))) ["_nnz"].
Proof.
  rewrite dedupe_rows_unfold.
  destruct (if decide _ then _ else _); [|done]. by intros [= <-].
Qed.

Lemma dedupe_rows_nrows df out :
  dedupe_rows argsort_desc df = Ok out →
  nrows out = length (kept_rows argsort_desc df).
Proof. intros ->%dedupe_rows_Ok. done. Qed.

(** Every output row is the input row [kept_rows] names, cell for cell. *)
Lemma dedupe_rows_cell df out c j i :
  dedupe_rows argsort_desc df = Ok out → c ≠ "_nnz" →
  kept_rows argsort_desc df !! j = Some i →
  cell out c j = cell df c i.
Proof.
  intros ->%dedupe_rows_Ok Hc Hj.
  rewrite cell_drop_cols_ne by (intros H; apply Hc; by apply list_elem_of_singleton in H).
  rewrite cell_take_rows, Hj. apply cell_set_col_ne. congruence.
Qed.

Lemma dedupe_rows_key df out j i :
  dedupe_rows argsort_desc df = Ok out →
  kept_rows argsort_desc df !! j = Some i →
  row_key out KEY j = row_key df KEY i.
Proof.
  intros H Hj. apply row_key_ext. intros c Hc.
  eapply dedupe_rows_cell; [done| |done].
  intros ->. unfold KEY in Hc. not_in_list Hc.
Qed.

Lemma dedupe_rows_total df :
  (∀ c, c ∈ KEY → is_Some (df_get df c)) → is_Ok (dedupe_rows argsort_desc df).
Proof.
  intros Hall. rewrite dedupe_rows_unfold.
  destruct (decide (sort_order argsort_desc df = [])); [by eexists|].
  destruct (filter _ KEY) as [|c l] eqn:Hf; [by eexists|].
  assert (c ∈ filter (λ c, has_col df c = false) KEY) as Hc by (rewrite Hf; by left).
  apply list_elem_of_filter in Hc as [Hn Hc].
  apply has_col_false in Hn. destruct (Hall c Hc) as [? ?]. congruence.
Qed.

(** A frame without rows is returned as it is, whatever columns it has. *)
Lemma dedupe_rows_empty df :
  sort_order argsort_desc df = [] → is_Ok (dedupe_rows argsort_desc df).
Proof. intros H. rewrite dedupe_rows_unfold, decide_True by done. by eexists. Qed.

Lemma dedupe_rows_Err df e :
  dedupe_rows argsort_desc df = Err e →
  ∃ c, c ∈ KEY ∧ df_get df c = None ∧ e = KeyError c.
Proof.
  rewrite dedupe_rows_unfold.
  destruct (decide (sort_order argsort_desc df = [])); [done|].
  destruct (filter _ KEY) as [|c l] eqn:Hf; [done|]. intros [= <-].
  assert (c ∈ filter (λ c, has_col df c = false) KEY) as Hc by (rewrite Hf; by left).
  apply list_elem_of_filter in Hc as [Hn Hc]. apply has_col_false in Hn. eauto.
Qed.

Lemma kept_rows_keys_NoDup df :
  NoDup (row_key df KEY <$> kept_rows argsort_desc df).
Proof. apply (fo_keys_NoDup (row_key df KEY)). Qed.

End dedupe.

Lemma NoDup_fmap_inj_on {A B} (f : A → B) (l : list A) x y :
  NoDup (f <$> l) → x ∈ l → y ∈ l → f x = f y → x = y.
Proof.
  intros Hnd [ix Hx]%list_elem_of_lookup_1 [iy Hy]%list_elem_of_lookup_1 Heq.
  assert (ix = iy) as ->.
  { eapply NoDup_lookup; [exact Hnd| |].
    - rewrite list_lookup_fmap, Hx. done.
    - rewrite list_lookup_fmap, Hy. simpl. by rewrite Heq. }
  congruence.
Qed.

Lemma StronglySorted_and {A} (R1 R2 : relation A) l :
  StronglySorted R1 l → StronglySorted R2 l →
  StronglySorted (λ a b, R1 a b ∧ R2 a b) l.
Proof.
  induction l as [|a l IH]; [constructor|].
  intros [? H1]%StronglySorted_inv [? H2]%StronglySorted_inv.
  constructor; [by apply IH|].
  rewrite Forall_forall in H1, H2. apply Forall_forall. intros b Hb. split; auto.
Qed.

Lemma key_at_nnz df i :
  (i < nrows df)%nat → key_at (nnz df <$> seq 0 (nrows df)) i = nnz df i.
Proof.
  intros Hi. unfold key_at. rewrite list_lookup_fmap, lookup_seq_lt by done. done.
Qed.

(** C3. After deduplication any two distinct output rows differ in their
    (player, team, league, season) key. *)
Theorem dedupe_rows_unique_key argsort_desc df out j1 j2 :
  dedupe_rows argsort_desc df = Ok out →
  (j1 < nrows out)%nat → (j2 < nrows out)%nat → j1 ≠ j2 →
  row_key out KEY j1 ≠ row_key out KEY j2.
Proof.
  intros H Hj1 Hj2 Hne Heq.
  rewrite (dedupe_rows_nrows _ _ _ H) in Hj1, Hj2.
  destruct (lookup_lt_is_Some_2 _ _ Hj1) as [i1 Hi1].
  destruct (lookup_lt_is_Some_2 _ _ Hj2) as [i2 Hi2].
  rewrite (dedupe_rows_key _ _ _ _ _ H Hi1), (dedupe_rows_key _ _ _ _ _ H Hi2) in Heq.
  apply Hne. eapply NoDup_lookup; [apply (kept_rows_keys_NoDup argsort_desc df)|..].
  - rewrite list_lookup_fmap, Hi1. done.
  - rewrite list_lookup_fmap, Hi2. simpl. by rewrite Heq.
Qed.

Section most_complete.
Variable argsort_desc : list Z → list nat.
Hypothesis Hvalid : argsort_valid argsort_desc.

Lemma sort_order_elem df i :
  i ∈ sort_order argsort_desc df ↔ (i < nrows df)%nat.
Proof.
  unfold sort_order. destruct (Hvalid (nnz df <$> seq 0 (nrows df))) as [Hp _].
  rewrite Hp, length_fmap, length_seq, elem_of_seq. lia.
Qed.

Lemma kept_rows_lt df k : k ∈ kept_rows argsort_desc df → (k < nrows df)%nat.
Proof.
  intros Hk. apply (fo_elem (row_key df KEY)) in Hk as [Hk _].
  by apply sort_order_elem.
Qed.

(** The row kept for the key of row [i], under any relation [R] the sort
    order obeys. *)
Lemma kept_rows_represent (R : relation nat) df i :
  StronglySorted R (sort_order argsort_desc df) → (i < nrows df)%nat →
  ∃ k, k ∈ kept_rows argsort_desc df ∧ row_key df KEY k = row_key df KEY i ∧
       (k = i ∨ R k i).
Proof.
  intros Hs Hi. apply sort_order_elem in Hi.
  destruct (fo_covers (row_key df KEY) R [] _ i Hs Hi) as [[]%elem_of_nil|H]; done.
Qed.

Lemma sort_order_descending df :
  StronglySorted (λ i j, key_at (nnz df <$> seq 0 (nrows df)) j
                         ≤ key_at (nnz df <$> seq 0 (nrows df)) i)
                 (sort_order argsort_desc df).
Proof. apply Hvalid. Qed.

Lemma most_complete_kept df out i :
  dedupe_rows argsort_desc df = Ok out → (i < nrows df)%nat →
  ∃ k j, (k < nrows df)%nat ∧ (j < nrows out)%nat ∧
    kept_rows argsort_desc df !! j = Some k ∧
    row_key df KEY k = row_key df KEY i ∧
    (∀ c, c ≠ "_nnz" → cell out c j = cell df c k) ∧
    (∀ j', (j' < nrows out)%nat → row_key out KEY j' = row_key df KEY i → j' = j) ∧
    (∀ i', (i' < nrows df)%nat → row_key df KEY i' = row_key df KEY i →
           nnz df i' ≤ nnz df k) ∧
    (argsort_stable argsort_desc →
     ∀ i', (i' < nrows df)%nat → row_key df KEY i' = row_key df KEY i →
           nnz df i' = nnz df k → (k ≤ i')%nat).
Proof.
  intros H Hi.
  destruct (kept_rows_represent _ df i (sort_order_descending df) Hi)
    as (k & Hk & Hkey & _).
  pose proof (kept_rows_lt df k Hk) as Hklt.
  destruct (list_elem_of_lookup_1 _ _ Hk) as [j Hj].
  exists k, j. split_and!; try done.
  - rewrite (dedupe_rows_nrows _ _ _ H). by eapply lookup_lt_Some.
  - intros c Hc. by eapply dedupe_rows_cell.
  - intros j' Hj' Hkey'.
    rewrite (dedupe_rows_nrows _ _ _ H) in Hj'.
    destruct (lookup_lt_is_Some_2 _ _ Hj') as [k' Hk'].
    rewrite (dedupe_rows_key _ _ _ _ _ H Hk') in Hkey'.
    eapply NoDup_lookup; [apply (kept_rows_keys_NoDup argsort_desc df)|..].
    + rewrite list_lookup_fmap, Hk'. done.
    + rewrite list_lookup_fmap, Hj. simpl. congruence.
  - intros i' Hi' Hkey'.
    destruct (kept_rows_represent _ df i' (sort_order_descending df) Hi')
      as (k' & Hk' & Hkk & Hord).
    assert (k' = k) as ->.
    { eapply NoDup_fmap_inj_on;
        [apply (kept_rows_keys_NoDup argsort_desc df)|done..|congruence]. }
    destruct Hord as [->|Hord]; [lia|].
    by rewrite !key_at_nnz in Hord.
  - intros Hstable i' Hi' Hkey' Hnnz.
    pose proof (StronglySorted_and _ _ _ (sort_order_descending df)
                  (Hstable (nnz df <$> seq 0 (nrows df)))) as Hs.
    destruct (kept_rows_represent _ df i' Hs Hi') as (k' & Hk' & Hkk & Hord).
    assert (k' = k) as ->.
    { eapply NoDup_fmap_inj_on;
        [apply (kept_rows_keys_NoDup argsort_desc df)|done..|congruence]. }
    destruct Hord as [->|[_ Hord]]; [lia|].
    rewrite !key_at_nnz in Hord by done. apply Hord. lia.
Qed.

End most_complete.

(** C2, as the code has it.  For every input row, the rows sharing its
    (player, team, league, season) key are represented in the output by
    exactly one row; that row is an input row of the key whose count of
    non-missing cells is the highest of the key.  Which of several rows
    tied on the highest count is kept is decided by the sort: it is the
    first in input order when the sort kind is stable, which the default
    kind used by the script does not promise. *)
Theorem dedupe_rows_keeps_most_complete argsort_desc df out i :
  argsort_valid argsort_desc →
  dedupe_rows argsort_desc df = Ok out → (i < nrows df)%nat →
  ∃ k j, (k < nrows df)%nat ∧ (j < nrows out)%nat ∧
    row_key df KEY k = row_key df KEY i ∧
    (∀ c, c ≠ "_nnz" → cell out c j = cell df c k) ∧
    (∀ j', (j' < nrows out)%nat → row_key out KEY j' = row_key df KEY i → j' = j) ∧
    (∀ i', (i' < nrows df)%nat → row_key df KEY i' = row_key df KEY i →
           nnz df i' ≤ nnz df k) ∧
    (argsort_stable argsort_desc →
     ∀ i', (i' < nrows df)%nat → row_key df KEY i' = row_key df KEY i →
           nnz df i' = nnz df k → (k ≤ i')%nat).
Proof.
  intros Hv H Hi.
  destruct (most_complete_kept _ Hv df out i H Hi)
    as (k & j & ? & ? & ? & ? & ? & ? & ? & ?).
  exists k, j. split_and!; done.
Qed.

(** With a stable sort the tie-break is the one of the specification. *)
Lemma stable_first_of_ties_kept argsort_desc :
  argsort_valid argsort_desc → argsort_stable argsort_desc →
  first_of_ties_kept argsort_desc.
Proof.
  intros Hv Hs df out i H Hi.
  destruct (most_complete_kept _ Hv df out i H Hi)
    as (k & j & ? & ? & ? & ? & ? & ? & Hmax & Hfirst).
  exists k, j. split_and!; try done.
  intros i' Hi' Hkey. specialize (Hmax i' Hi' Hkey).
  destruct (decide (nnz df i' = nnz df k)) as [Heq|Hne]; [|lia].
  right. split; [done|]. by apply Hfirst.
Qed.

(** ** Numeric coercion *)

Lemma traverse_Ok {A B} (f : A → result B) l l' :
  traverse f l = Ok l' → Forall2 (λ x y, f x = Ok y) l l'.
Proof.
  revert l'. induction l as [|x l IH]; intros l'; simpl.
  - intros [= <-]. constructor.
  - destruct (f x) as [y|] eqn:Hx; simpl; [|done].
    destruct (traverse f l) as [ys|] eqn:Hl; simpl; [|done].
    intros [= <-]. constructor; [done | by apply IH].
Qed.

Lemma traverse_total {A B} (f : A → result B) l :
  Forall (λ x, is_Ok (f x)) l → is_Ok (traverse f l).
Proof.
  induction 1 as [|x l [y Hy] _ [ys IH]]; simpl; [by eexists|].
  rewrite Hy, IH. simpl. by eexists.
Qed.

Lemma Qc_of_Z_inj a b : Qc_of_Z a = Qc_of_Z b → a = b.
Proof.
  unfold Qc_of_Z. intros H%Q2Qc_eq_iff.
  unfold Qeq in H. simpl in H. lia.
Qed.

Lemma VInt_value_eq a b : VInt a ≈ VInt b → a = b.
Proof.
  unfold value_eq. cbn [canon]. intros H. apply Qc_of_Z_inj.
  by apply (f_equal (λ v, match v with VFloat q => q | _ => Qc_of_Z 0 end)) in H.
Qed.

Lemma as_int64_Some q z : as_int64 q = Some z → Qc_of_Z z = q.
Proof.
  unfold as_int64. destruct q as [[n d] Hc]. simpl.
  destruct (decide (d = 1%positive)) as [->|]; [|done].
  destruct (in_int64 n); [|done]. intros [= <-].
  apply Qc_is_canon. simpl. apply Qred_correct.
Qed.

Lemma to_Int64_value_eq v v' : to_Int64_value v = Ok v' → v' ≈ v.
Proof.
  destruct v as [|z|q|s]; simpl; try by intros [= <-].
  destruct (as_int64 q) as [z|] eqn:Hq; [|done]. intros [= <-].
  unfold value_eq. simpl. by rewrite (as_int64_Some _ _ Hq).
Qed.

Lemma to_Int64_value_shape v v' :
  to_Int64_value v = Ok v' → v' = NA ∨ ∃ z, v' = VInt z.
Proof.
  destruct v as [|z|q|s]; simpl; try (intros [= <-]; eauto; fail).
  destruct (as_int64 q); [|done]. intros [= <-]. eauto.
Qed.

Lemma cast_Int64_value_shape d v v' :
  cast_Int64_value d v = Ok v' → v' = NA ∨ ∃ z, v' = VInt z.
Proof.
  destruct d, v; simpl; try (intros [= <-]; eauto; fail);
    try apply (to_Int64_value_shape (VFloat _)); done.
Qed.

(** From a NumPy dtype the cast keeps the value. *)
Lemma cast_Int64_value_eq d v v' :
  d ≠ Float64 → d ≠ UInt64 → cast_Int64_value d v = Ok v' → v' ≈ v.
Proof.
  intros H1 H2. destruct d; try done; destruct v; apply to_Int64_value_eq.
Qed.

Lemma to_float_value_eq v v' : to_float_value v = Ok v' → v' ≈ v.
Proof. destruct v; simpl; try by intros [= <-]. Qed.

Lemma to_float_value_total v : is_str v = false → is_Ok (to_float_value v).
Proof. destruct v; simpl; try done; by eexists. Qed.

Lemma cast_value_is_str d v : is_str (cast_value d v) = is_str v.
Proof. by destruct d, v. Qed.

Lemma traverse_fmap {A B C} (f : B → result C) (h : A → B) (g : A → C) l :
  Forall (λ x, f (h x) = Ok (g x)) l → traverse f (h <$> l) = Ok (g <$> l).
Proof.
  induction 1 as [|x l Hx _ IH]; [done|].
  rewrite !fmap_cons. cbn [traverse]. rewrite Hx. cbn [mbind result_bind].
  by rewrite IH.
Qed.

(** *** Rounding *)

Lemma this_Qc_of_Z z : this (Qc_of_Z z) = inject_Z z.
Proof. unfold Qc_of_Z. simpl. apply Qred_identity. simpl. apply Z.gcd_1_r. Qed.

Lemma round_half_even_exact n : round_half_even n 1 = n.
Proof. unfold round_half_even. by rewrite Z.mod_1_r, Z.div_1_r. Qed.

(** An integer of at most 53 bits is a double. *)
Lemma double_of_integer a :
  0 < a → a ≤ 2 ^ 53 →
  let '(m, e) := double_of_fraction a 1 in
  (if 0 <=? e then m * 2 ^ e else m / 2 ^ (- e)) = a.
Proof.
  intros Hpos Hle. unfold double_of_fraction. simpl (Z.log2 1). rewrite Z.sub_0_r.
  pose proof (Z.log2_nonneg a) as Hk0.
  destruct (Z.log2_spec a Hpos) as [Hlo Hhi].
  assert (Z.log2 a ≤ 53) as Hk.
  { destruct (decide (Z.log2 a ≤ 53)); [done|].
    assert (2 ^ 54 ≤ 2 ^ Z.log2 a) by (apply Z.pow_le_mono_r; lia). lia. }
  set (k := Z.log2 a) in *.
  unfold scale2 at 1. rewrite (proj2 (Z.leb_le 0 k)) by done.
  rewrite Z.mul_1_l. rewrite (proj2 (Z.leb_le _ _) Hlo).
  unfold scale2. destruct (0 <=? k - 52) eqn:He.
  - apply Z.leb_le in He. rewrite Z.mul_1_l.
    assert (k = 52 ∨ k = 53) as [->| ->] by lia.
    + change (52 - 52) with 0. change (2 ^ 0) with 1.
      rewrite round_half_even_exact. change (0 <=? 0) with true. cbv iota. lia.
    + assert (a = 2 ^ 53) as -> by (change (2 ^ 53) with 9007199254740992 in *; lia).
      reflexivity.
  - rewrite round_half_even_exact, He. apply Z.leb_gt in He.
    apply Z.div_mul. apply Z.pow_nonzero; lia.
Qed.

Lemma trunc_double_integer z : Z.abs z ≤ 2 ^ 53 → trunc_double (Qc_of_Z z) = z.
Proof.
  intros Hz. unfold trunc_double. rewrite this_Qc_of_Z. simpl.
  destruct (z =? 0) eqn:H0; [apply Z.eqb_eq in H0; lia|].
  apply Z.eqb_neq in H0.
  pose proof (double_of_integer (Z.abs z) ltac:(lia) Hz) as H.
  destruct (double_of_fraction (Z.abs z) 1) as [m e]. rewrite H. lia.
Qed.

Lemma in_int64_53 z : Z.abs z ≤ 2 ^ 53 → in_int64 z = true.
Proof.
  intros Hz. unfold in_int64, INT64_MIN, INT64_MAX.
  change (2 ^ 53) with 9007199254740992 in Hz.
  apply andb_true_iff. split; apply Z.leb_le; lia.
Qed.

(** The float of an integer of at most 53 bits is cast back to it. *)
Lemma double_to_int64_integer z :
  Z.abs z ≤ 2 ^ 53 → double_to_int64 (Qc_of_Z z) = z.
Proof.
  intros Hz. unfold double_to_int64. rewrite trunc_double_integer by done.
  by rewrite in_int64_53.
Qed.

Lemma wrap_int64_id z : in_int64 z = true → wrap_int64 z = z.
Proof.
  unfold in_int64, INT64_MIN, INT64_MAX, wrap_int64.
  intros [H1%Z.leb_le H2%Z.leb_le]%andb_true_iff.
  rewrite Z.mod_small; lia.
Qed.

Section coercion.
Variable parse_float : pystr → option Qc.
Variable repr_float : Qc → pystr.

Abbreviation masked := (masked_cell parse_float).
Abbreviation seen := (seen_all parse_float).

Lemma parse_int_literal s :
  parse_int s = z ← int_literal s; if in_int64 z then Some z else None.
Proof.
  unfold parse_int, int_literal. destruct (split_sign s) as [sg r].
  by destruct (parse_digits r).
Qed.

Lemma parse_number_is_str s v : parse_number parse_float s = Some v → is_str v = false.
Proof.
  unfold parse_number. destruct (int_literal s) as [z|].
  - intros [= <-]. by destruct (in_int64 z).
  - destruct (parse_fraction parse_float s); simpl; [by intros [= <-]|done].
Qed.

(** [to_numeric] leaves no string behind. *)
Lemma to_numeric_value_is_str v : is_str (to_numeric_value parse_float v) = false.
Proof.
  destruct v as [| | |s]; simpl; try done.
  destruct (decide (s = [])); [done|].
  destruct (parse_number parse_float s) as [v|] eqn:Hp; simpl; [|done].
  by eapply parse_number_is_str.
Qed.

Lemma Qc_of_Z_value_eq z : VFloat (Qc_of_Z z) ≈ VInt z.
Proof. reflexivity. Qed.

(** Whatever the masked array is made of, its cells are the numbers the
    cells denote. *)
Lemma masked_cell_eq m v : masked m v ≈ to_numeric_value parse_float v.
Proof.
  destruct v as [|z|q|t]; simpl; [done|by destruct m|done|].
  destruct (decide (t = [])); [done|].
  unfold floatify, parse_number. destruct (int_literal t) as [z|]; simpl.
  - destruct m, (in_int64 z); done.
  - by destruct (parse_fraction parse_float t).
Qed.

Lemma masked_cell_is_str m v : is_str (masked m v) = false.
Proof.
  destruct v as [|z|q|t]; simpl; [done|by destruct m|done|].
  destruct (decide (t = [])); [done|].
  destruct (floatify parse_float t) as [[q [z|]]|]; [by destruct m|done..].
Qed.

Lemma to_numeric_lookup s i :
  default NA (values (to_numeric parse_float s) !! i) ≈
  to_numeric_value parse_float (default NA (values s !! i)).
Proof.
  unfold to_numeric. destruct (string_array s).
  - unfold to_numeric_masked. simpl. rewrite list_lookup_fmap.
    destruct (values s !! i) as [v|]; simpl; [apply masked_cell_eq | done].
  - unfold to_numeric_numpy. simpl. rewrite !list_lookup_fmap.
    destruct (values s !! i) as [v|]; simpl; [apply cast_value_eq | done].
Qed.

Lemma to_numeric_no_str s :
  Forall (λ v, is_str v = false) (values (to_numeric parse_float s)).
Proof.
  unfold to_numeric. destruct (string_array s).
  - unfold to_numeric_masked. simpl. apply Forall_fmap, Forall_true.
    intros v. apply masked_cell_is_str.
  - unfold to_numeric_numpy. simpl. apply Forall_fmap, Forall_fmap, Forall_true.
    intros v. simpl. rewrite cast_value_is_str. apply to_numeric_value_is_str.
Qed.

Lemma astype_float_to_numeric_total s :
  is_Ok (astype_float (to_numeric parse_float s)).
Proof.
  unfold astype_float.
  destruct (traverse_total to_float_value (values (to_numeric parse_float s)))
    as [vs Hvs].
  - eapply Forall_impl; [apply to_numeric_no_str|].
    intros v. apply to_float_value_total.
  - rewrite Hvs. simpl. by eexists.
Qed.

Lemma astype_float_lookup s s' i :
  astype_float s = Ok s' →
  default NA (values s' !! i) ≈ default NA (values s !! i).
Proof.
  unfold astype_float. destruct (traverse _ _) as [vs|] eqn:Ht; simpl; [|done].
  intros [= <-]. simpl. apply traverse_Ok in Ht.
  destruct (values s !! i) as [v|] eqn:Hv.
  - destruct (Forall2_lookup_l _ _ _ _ _ Ht Hv) as (v' & -> & Hv'). simpl.
    by apply to_float_value_eq.
  - apply lookup_ge_None in Hv. rewrite (Forall2_length _ _ _ Ht) in Hv.
    by rewrite (lookup_ge_None_2 vs).
Qed.

Lemma astype_Int64_lookup s s' i :
  astype_Int64 s = Ok s' →
  (dtype_of s ≠ Float64 → dtype_of s ≠ UInt64 →
   default NA (values s' !! i) ≈ default NA (values s !! i)) ∧
  (default NA (values s' !! i) = NA ∨ ∃ z, default NA (values s' !! i) = VInt z).
Proof.
  unfold astype_Int64. destruct (traverse _ _) as [vs|] eqn:Ht; simpl; [|done].
  intros [= <-]. simpl. apply traverse_Ok in Ht.
  destruct (values s !! i) as [v|] eqn:Hv.
  - destruct (Forall2_lookup_l _ _ _ _ _ Ht Hv) as (v' & -> & Hv'). simpl.
    split; [intros; by eapply cast_Int64_value_eq | by eapply cast_Int64_value_shape].
  - apply lookup_ge_None in Hv. rewrite (Forall2_length _ _ _ Ht) in Hv.
    rewrite (lookup_ge_None_2 vs) by done. simpl. split; [done | by left].
Qed.

Lemma dtype_to_numeric_numpy s :
  dtype_of (to_numeric_numpy parse_float s) = int64 ∨
  dtype_of (to_numeric_numpy parse_float s) = float64.
Proof. unfold to_numeric_numpy. simpl. destruct (forallb _ _); auto. Qed.

(** *** The masked array *)

Lemma see_cell_float s v :
  float_ s = true ∨ fractional parse_float v = true → float_ (see_cell parse_float s v) = true.
Proof.
  intros H. destruct v as [|z|q|t]; simpl in *.
  - destruct H as [H|?]; [|done]. unfold saw_masked. by rewrite H.
  - destruct H as [H|?]; [|done]. unfold saw_int. simpl. by rewrite H.
  - done.
  - destruct (decide (t = [])); [done|].
    destruct (floatify parse_float t) as [[q [z|]]|]; [| done |].
    + destruct H as [H|?]; [|done]. unfold saw_int. simpl. by rewrite H.
    + destruct H as [H|?]; [|done]. unfold saw_masked. by rewrite H.
Qed.

Lemma fold_see_float vs s :
  float_ s = true ∨ Exists (λ v, fractional parse_float v = true) vs →
  float_ (fold_left (see_cell parse_float) vs s) = true.
Proof.
  revert s. induction vs as [|v vs IH]; intros s; simpl.
  - intros [H|H]; [done | by apply Exists_nil in H].
  - intros [H|H]; apply IH.
    + left. apply see_cell_float. by left.
    + apply Exists_cons in H as [H|H]; [|by right].
      left. apply see_cell_float. by right.
Qed.

(** A fractional cell makes the whole array one of floats. *)
Lemma mode_of_fractional vs v :
  v ∈ vs → fractional parse_float v = true → mode_of (seen vs) = AsFloat.
Proof.
  intros Hin Hv. unfold mode_of, seen_all.
  assert (float_ (fold_left (see_cell parse_float) vs seen_nothing) = true) as Hf.
  { apply fold_see_float. right. apply Exists_exists. eauto. }
  rewrite Hf. simpl. by rewrite Hf.
Qed.

Lemma masked_cell_shape m v :
  masked m v = NA ∨ (∃ z, masked m v = VInt z ∧ m ≠ AsFloat) ∨
  (∃ q, masked m v = VFloat q ∧ (m = AsFloat ∨ fractional parse_float v = true)).
Proof.
  destruct v as [|z|q|t]; simpl.
  - by left.
  - destruct m; [right; left | right; left | right; right]; eauto.
  - right; right. eauto.
  - destruct (decide (t = [])); [by left|].
    destruct (floatify parse_float t) as [[q [z|]]|]; [| |by left].
    + destruct m; [right; left | right; left | right; right]; eauto.
    + right; right. eauto.
Qed.

(** The cast of the masked array to [Int64] never raises. *)
Lemma cast_masked_Ok vs v :
  v ∈ vs →
  cast_Int64_value (masked_dtype (mode_of (seen vs))) (masked (mode_of (seen vs)) v)
  = Ok (int64_of_text parse_float vs v).
Proof.
  intros Hin. unfold int64_of_text.
  set (m := mode_of (seen vs)).
  destruct (masked_cell_shape m v) as [->|[(z & -> & Hm)|(q & -> & Hq)]].
  - by destruct m.
  - by destruct m.
  - assert (m = AsFloat) as -> by (destruct Hq; [done | by eapply mode_of_fractional]).
    done.
Qed.

Lemma astype_Int64_masked s :
  astype_Int64 (to_numeric_masked parse_float s)
  = Ok (mkSeries Int64 (int64_of_text parse_float (values s) <$> values s)).
Proof.
  unfold astype_Int64, to_numeric_masked. cbn [dtype_of values].
  rewrite (traverse_fmap _ _ (int64_of_text parse_float (values s))); [done|].
  apply Forall_forall. intros v Hv. by apply cast_masked_Ok.
Qed.

Lemma int64_of_text_shape vs v :
  int64_of_text parse_float vs v = NA ∨ ∃ z, int64_of_text parse_float vs v = VInt z.
Proof.
  unfold int64_of_text. destruct (cast_Int64_value _ _) eqn:H; [|by left].
  by eapply cast_Int64_value_shape.
Qed.

(** A missing cell, an empty text and a text that is no number are
    masked. *)
Lemma int64_of_text_NA vs v :
  to_numeric_value parse_float v = NA → int64_of_text parse_float vs v = NA.
Proof.
  intros H. unfold int64_of_text.
  pose proof (masked_cell_eq (mode_of (seen vs)) v) as Heq. rewrite H in Heq.
  apply value_eq_NA in Heq. rewrite Heq. by destruct (mode_of _).
Qed.

(** An integer literal of at most 53 bits comes out as that integer,
    whatever else the column holds. *)
Lemma int64_of_text_literal vs t z :
  int_literal t = Some z → Z.abs z ≤ 2 ^ 53 →
  int64_of_text parse_float vs (VStr t) = VInt z.
Proof.
  intros Ht Hz. unfold int64_of_text. simpl.
  assert (t ≠ []) as Hne by (intros ->; done).
  rewrite decide_False by done. unfold floatify. rewrite Ht.
  destruct (mode_of _); simpl.
  - done.
  - by rewrite wrap_int64_id by by apply in_int64_53.
  - by rewrite double_to_int64_integer.
Qed.


Lemma sanitize_lookup s i :
  default NA (values (sanitize repr_float s) !! i) =
  match astype_string_value repr_float (default NA (values s !! i)) with
  | VStr t => VStr (sanitize_str t)
  | v => v
  end.
Proof.
  unfold sanitize, str_remove, map_values, astype_string. simpl.
  rewrite !list_lookup_fmap.
  destruct (values s !! i) as [v|]; simpl; [|done].
  by destruct v.
Qed.

(** What [sanitize] returns is a string array. *)
Lemma string_array_sanitize s : string_array (sanitize repr_float s) = true.
Proof.
  unfold string_array, sanitize, str_remove, map_values, astype_string.
  cbn [dtype_of values]. rewrite bool_decide_eq_true_2 by done. cbn [andb].
  apply forallb_forall. intros v Hv. apply list_elem_of_In in Hv.
  apply list_elem_of_fmap in Hv as (v4 & -> & Hv).
  apply list_elem_of_fmap in Hv as (v3 & -> & Hv).
  apply list_elem_of_fmap in Hv as (v2 & -> & Hv).
  apply list_elem_of_fmap in Hv as (v1 & -> & Hv).
  apply list_elem_of_fmap in Hv as (v0 & -> & Hv).
  by destruct v0.
Qed.


(** The loop body always assigns a column.  A text column comes out as
    [Int64] without a message; a numeric column keeps its numbers and
    falls back to floats, with the message, when the cast is not safe. *)
Lemma coerce_int_column_spec df c s :
  ∃ s' m, coerce_int_column parse_float repr_float df c s = (Ok (set_col df c s'), m) ∧
    (dtype_of s' = Int64 ∧ m = [] ∨ dtype_of s' = float64 ∧ m = [MsgCoerceFailed c]) ∧
    coerced_cells parse_float repr_float s s'.
Proof.
  unfold coerce_int_column, coerced_cells. fold (presanitized repr_float s).
  set (t := presanitized repr_float s).
  destruct (string_array t) eqn:Ht.
  - unfold to_numeric. rewrite Ht, astype_Int64_masked.
    eexists _, []. split_and!; [done | by left | done].
  - destruct (astype_Int64 (to_numeric parse_float t)) as [s'|e] eqn:HI.
    + exists s', []. split_and!; [done| |].
      * left. split; [|done]. revert HI. unfold astype_Int64.
        destruct (traverse _ _); simpl; [|done]. by intros [= <-].
      * intros i. destruct (astype_Int64_lookup _ _ i HI) as [H1 H2]. split; [|done].
        eapply value_eq_trans; [|apply to_numeric_lookup]. apply H1.
        -- unfold to_numeric. rewrite Ht.
           by destruct (dtype_to_numeric_numpy t) as [-> | ->].
        -- unfold to_numeric. rewrite Ht.
           by destruct (dtype_to_numeric_numpy t) as [-> | ->].
    + destruct (astype_float_to_numeric_total t) as [s' HF].
      exists s', [MsgCoerceFailed c]. rewrite HF. simpl. split_and!; [done| |].
      * right. split; [|done]. revert HF. unfold astype_float.
        destruct (traverse _ _); simpl; [|done]. by intros [= <-].
      * intros i. split.
        -- eapply value_eq_trans; [by apply astype_float_lookup | apply to_numeric_lookup].
        -- intros Hd. revert HF Hd. unfold astype_float.
           destruct (traverse _ _); simpl; [|done]. by intros [= <-].
Qed.

End coercion.

(** ** The column loops *)

Lemma has_col_set_col df c c' s :
  has_col (set_col df c s) c' = if decide (c = c') then true else has_col df c'.
Proof.
  unfold has_col. rewrite df_get_set_col.
  destruct (decide (c = c')); [|done]. apply bool_decide_eq_true. by eexists.
Qed.

Lemma has_col_set_col_present df c c' s :
  is_Some (df_get df c) → has_col (set_col df c s) c' = has_col df c'.
Proof.
  intros Hc. rewrite has_col_set_col. destruct (decide (c = c')) as [<-|]; [|done].
  symmetry. by apply has_col_true.
Qed.

Lemma present_filter df (cols : list string) c :
  c ∈ filter (λ c, has_col df c = true) cols ↔ c ∈ cols ∧ is_Some (df_get df c).
Proof. rewrite list_elem_of_filter, has_col_true. tauto. Qed.

Section loops.
Variable parse_float : pystr → option Qc.
Variable repr_float : Qc → pystr.

Lemma clean_strings_loop_spec df cols :
  (∀ c, c ∈ cols → is_Some (df_get df c)) →
  ∃ df', clean_strings_loop repr_float df cols = Ok df' ∧
    nrows df' = nrows df ∧
    (∀ c, has_col df' c = has_col df c) ∧
    (∀ c, c ∉ cols → df_get df' c = df_get df c).
Proof.
  revert df. induction cols as [|c cols IH]; intros df Hall; simpl.
  - by exists df.
  - destruct (Hall c) as [s Hs]; [by left|]. rewrite Hs.
    destruct (IH (set_col df c (clean_column repr_float s))) as (df' & -> & Hn & Hh & Ho).
    { intros c' Hc'. rewrite df_get_set_col. case_decide; [by eexists|].
      apply Hall. by right. }
    exists df'. split_and!; [done|done| |].
    + intros c'. rewrite Hh. apply has_col_set_col_present. by eexists.
    + intros c' Hc'. rewrite Ho by (intros ?; apply Hc'; by right).
      apply df_get_set_col_ne. intros ->. apply Hc'. by left.
Qed.

Lemma clean_strings_spec df cols :
  ∃ df', clean_strings repr_float df cols = Ok df' ∧
    nrows df' = nrows df ∧
    (∀ c, has_col df' c = has_col df c) ∧
    (∀ c, c ∉ cols → df_get df' c = df_get df c).
Proof.
  unfold clean_strings.
  destruct (clean_strings_loop_spec df (filter (λ c, has_col df c = true) cols))
    as (df' & H & Hn & Hh & Ho).
  { by intros c [_ ?]%present_filter. }
  exists df'. split_and!; [done..|].
  intros c Hc. apply Ho. by intros [? _]%present_filter.
Qed.

Lemma coerce_floats_loop_spec df cols :
  (∀ c, c ∈ cols → is_Some (df_get df c)) →
  ∃ df', coerce_floats_loop parse_float df cols = Ok df' ∧
    nrows df' = nrows df ∧
    (∀ c, has_col df' c = has_col df c) ∧
    (∀ c, c ∉ cols → df_get df' c = df_get df c).
Proof.
  revert df. induction cols as [|c cols IH]; intros df Hall; simpl.
  - by exists df.
  - destruct (Hall c) as [s Hs]; [by left|]. rewrite Hs.
    destruct (astype_float_to_numeric_total parse_float s) as [s' ->]. simpl.
    destruct (IH (set_col df c s')) as (df' & -> & Hn & Hh & Ho).
    { intros c' Hc'. rewrite df_get_set_col. case_decide; [by eexists|].
      apply Hall. by right. }
    exists df'. split_and!; [done|done| |].
    + intros c'. rewrite Hh. apply has_col_set_col_present. by eexists.
    + intros c' Hc'. rewrite Ho by (intros ?; apply Hc'; by right).
      apply df_get_set_col_ne. intros ->. apply Hc'. by left.
Qed.

Lemma coerce_floats_spec df cols :
  ∃ df', coerce_floats parse_float df cols = Ok df' ∧
    nrows df' = nrows df ∧
    (∀ c, has_col df' c = has_col df c) ∧
    (∀ c, c ∉ cols → df_get df' c = df_get df c).
Proof.
  unfold coerce_floats.
  destruct (coerce_floats_loop_spec df (filter (λ c, has_col df c = true) cols))
    as (df' & H & Hn & Hh & Ho).
  { by intros c [_ ?]%present_filter. }
  exists df'. split_and!; [done..|].
  intros c Hc. apply Ho. by intros [? _]%present_filter.
Qed.

Lemma coerce_ints_loop_spec df cols :
  NoDup cols → (∀ c, c ∈ cols → is_Some (df_get df c)) →
  ∃ df' msgs, coerce_ints_loop parse_float repr_float df cols = (Ok df', msgs) ∧
    nrows df' = nrows df ∧
    (∀ c, has_col df' c = has_col df c) ∧
    (∀ c, c ∉ cols → df_get df' c = df_get df c) ∧
    (∀ c, MsgCoerceFailed c ∈ msgs → c ∈ cols) ∧
    (∀ c s, c ∈ cols → df_get df c = Some s →
       ∃ s', df_get df' c = Some s' ∧ coerced_from parse_float repr_float c s s' msgs).
Proof.
  intros Hnd. revert df.
  induction cols as [|c cols IH]; intros df Hall; simpl.
  - exists df, []. split_and!; try done.
    + by intros c []%elem_of_nil.
    + by intros c s []%elem_of_nil.
  - apply NoDup_cons in Hnd as [Hc Hnd].
    destruct (Hall c) as [s Hs]; [by left|]. rewrite Hs.
    destruct (coerce_int_column_spec parse_float repr_float df c s)
      as (s1 & m & -> & Hm & Hcells).
    simpl.
    destruct (IH Hnd (set_col df c s1)) as (df' & msgs & -> & Hn & Hh & Ho & Hmsg & Hin).
    { intros c' Hc'. rewrite df_get_set_col. case_decide; [by eexists|].
      apply Hall. by right. }
    exists df', (m ++ msgs). split_and!; [done|done|..].
    + intros c'. rewrite Hh. apply has_col_set_col_present. by eexists.
    + intros c' Hc'. rewrite Ho by (intros ?; apply Hc'; by right).
      apply df_get_set_col_ne. intros ->. apply Hc'. by left.
    + intros c' [Hc'|Hc']%elem_of_app; [|right; by apply Hmsg].
      destruct Hm as [[_ ->]|[_ ->]]; [by apply elem_of_nil in Hc'|].
      apply list_elem_of_singleton in Hc' as [= ->]. by left.
    + intros c' s0 [->|Hc']%elem_of_cons Hs0.
      * assert (s0 = s) as -> by congruence.
        exists s1. split; [by rewrite Ho, df_get_set_col_eq|].
        split; [|done].
        destruct Hm as [[Hd ->]|[Hd ->]].
        -- left. split; [done|]. simpl. intros Hf. apply Hc. by apply Hmsg.
        -- right. split; [done|]. by left.
      * assert (c ≠ c') as Hne by (intros ->; done).
        destruct (Hin c' s0 Hc') as (s' & Hs' & [Hdt Hcl]).
        { by rewrite df_get_set_col_ne. }
        exists s'. split; [done|]. split; [|done].
        destruct Hdt as [[Hd Hnm]|[Hd Hnm]].
        -- left. split; [done|]. intros [Hf|Hf]%elem_of_app; [|done].
           destruct Hm as [[_ ->]|[_ ->]]; [by apply elem_of_nil in Hf|].
           apply list_elem_of_singleton in Hf as [= ->]. done.
        -- right. split; [done|]. apply elem_of_app. by right.
Qed.

Lemma coerce_nullable_ints_spec df cols :
  NoDup cols →
  ∃ df' msgs, coerce_nullable_ints parse_float repr_float df cols = (Ok df', msgs) ∧
    nrows df' = nrows df ∧
    (∀ c, has_col df' c = has_col df c) ∧
    (∀ c, c ∉ cols → df_get df' c = df_get df c) ∧
    (∀ c s, c ∈ cols → df_get df c = Some s →
       ∃ s', df_get df' c = Some s' ∧ coerced_from parse_float repr_float c s s' msgs).
Proof.
  intros Hnd. unfold coerce_nullable_ints.
  destruct (coerce_ints_loop_spec df (filter (λ c, has_col df c = true) cols))
    as (df' & msgs & H & Hn & Hh & Ho & _ & Hin).
  { by apply NoDup_filter. }
  { by intros c [_ ?]%present_filter. }
  exists df', msgs. split_and!; [done..| |].
  - intros c Hc. apply Ho. by intros [? _]%present_filter.
  - intros c s Hc Hs. apply Hin; [|done]. apply present_filter. split; [done|by eexists].
Qed.

End loops.

(** ** The main flow *)

Lemma prog_then_Ok_inv {A B} (m : prog A) (f : A → prog B) b l :
  prog_then m f = (Ok b, l) →
  ∃ a l1 l2, m = (Ok a, l1) ∧ f a = (Ok b, l2) ∧ l = l1 ++ l2.
Proof.
  destruct m as [[a|e] l1]; simpl; [|done].
  destruct (f a) as [r l2] eqn:Hf. intros [= -> <-]. eauto 6.
Qed.

Lemma prog_then_Err_inv {A B} (m : prog A) (f : A → prog B) e l :
  prog_then m f = (Err e, l) →
  m = (Err e, l) ∨ ∃ a l1 l2, m = (Ok a, l1) ∧ f a = (Err e, l2) ∧ l = l1 ++ l2.
Proof.
  destruct m as [[a|e'] l1]; simpl; [|intros [= -> ->]; by left].
  destruct (f a) as [r l2] eqn:Hf. intros [= -> <-]. right. eauto 6.
Qed.

Lemma int_cols_NoDup : NoDup int_cols.
Proof. by apply (bool_decide_unpack _). Qed.

Lemma int_cols_apart c :
  c ∈ int_cols →
  (c ∉ to_drop) ∧ (c ∉ canon_str) ∧ (c ∉ float_cols) ∧ c ≠ "_nnz".
Proof.
  revert c. apply Forall_forall. by apply (bool_decide_unpack _).
Qed.

Lemma KEY_apart c :
  c ∈ KEY → (c ∉ to_drop) ∧ (c ∉ canonical_fields) ∧ c ≠ "_nnz".
Proof.
  revert c. apply Forall_forall. by apply (bool_decide_unpack _).
Qed.

Lemma canonical_fields_apart c : c ∈ canonical_fields → c ∉ to_drop.
Proof.
  revert c. apply Forall_forall. by apply (bool_decide_unpack _).
Qed.

Lemma df_get_drop_redundant df c :
  c ∉ to_drop → df_get (drop_redundant_source_cols df) c = df_get df c.
Proof.
  intros Hc. unfold drop_redundant_source_cols. rewrite df_get_drop_cols.
  rewrite decide_False; [done|]. by intros [_ ?]%list_elem_of_filter.
Qed.

Section main_flow.
Variable parse_float : pystr → option Qc.
Variable repr_float : Qc → pystr.
Variable argsort_desc : list Z → list nat.
Variable tokenize : string → option RawTable.
Variable to_csv : DataFrame → string.

Abbreviation prepare' := (prepare parse_float repr_float).
Abbreviation finalize' := (finalize parse_float repr_float argsort_desc).
Abbreviation dedupe_rows' := (dedupe_rows argsort_desc).
Abbreviation read_csv' := (read_csv parse_float tokenize).
Abbreviation main' := (main parse_float repr_float argsort_desc tokenize to_csv).

Lemma prepare_Err df e :
  build_canonical df = Err e → prepare' df = (Err e, []).
Proof. intros H. unfold prepare', prog_lift. by rewrite H. Qed.

(** Once the canonical columns are built, steps 3 and 4 always complete. *)
Lemma prepare_Ok df b :
  build_canonical df = Ok b →
  ∃ p msgs, prepare' df = (Ok p, msgs) ∧
    nrows p = nrows b ∧
    (∀ c, c ∉ to_drop → has_col p c = has_col b c) ∧
    (∀ c s, c ∈ int_cols → df_get b c = Some s →
       ∃ s', df_get p c = Some s' ∧ coerced_from parse_float repr_float c s s' msgs).
Proof.
  intros H. unfold prepare', prog_lift. rewrite H. simpl.
  destruct (clean_strings_spec repr_float (drop_redundant_source_cols b) canon_str)
    as (d1 & -> & Hn1 & Hh1 & Ho1). simpl.
  destruct (coerce_nullable_ints_spec parse_float repr_float d1 int_cols int_cols_NoDup)
    as (d2 & msgs & -> & Hn2 & Hh2 & Ho2 & Hin2). simpl.
  destruct (coerce_floats_spec parse_float d2 float_cols) as (d3 & -> & Hn3 & Hh3 & Ho3).
  exists d3, msgs. rewrite app_nil_r. split_and!; [done| | |].
  - by rewrite Hn3, Hn2, Hn1.
  - intros c Hc. rewrite Hh3, Hh2, Hh1. unfold has_col.
    by rewrite df_get_drop_redundant.
  - intros c s Hc Hs. destruct (int_cols_apart c Hc) as (Hd & Hcs & Hf & _).
    destruct (Hin2 c s Hc) as (s' & Hs' & Hco).
    { by rewrite Ho1, df_get_drop_redundant. }
    exists s'. split; [by rewrite Ho3|done].
Qed.

Lemma finalize_Ok_inv df h msgs :
  finalize' df = (Ok h, msgs) →
  ∃ p d, prepare' df = (Ok p, msgs) ∧ dedupe_rows' p = Ok d ∧ historical_of d = Ok h.
Proof.
  unfold finalize', prog_lift.
  intros (p & l1 & l2 & Hp & H2 & ->)%prog_then_Ok_inv.
  apply prog_then_Ok_inv in H2 as (d & l3 & l4 & [= Hd <-] & [= Hh <-] & ->).
  exists p, d. by rewrite !app_nil_r.
Qed.

Lemma finalize_Ok_intro df p d h msgs :
  prepare' df = (Ok p, msgs) → dedupe_rows' p = Ok d → historical_of d = Ok h →
  finalize' df = (Ok h, msgs).
Proof.
  intros Hp Hd Hh. unfold finalize', prog_lift. rewrite Hp. simpl.
  rewrite Hd. simpl. rewrite Hh. by rewrite !app_nil_r.
Qed.

Lemma dedupe_rows_Ok_keys df out c :
  dedupe_rows' df = Ok out → sort_order argsort_desc df ≠ [] →
  c ∈ KEY → is_Some (df_get df c).
Proof.
  rewrite dedupe_rows_unfold. intros H Hne. rewrite decide_False in H by done.
  revert H. destruct (filter _ KEY) as [|c' l] eqn:Hf; [|done].
  intros _ Hc. apply has_col_true. destruct (has_col df c) eqn:Hh; [done|].
  assert (c ∈ filter (λ c, has_col df c = false) KEY) as Hin
    by (by apply list_elem_of_filter).
  rewrite Hf in Hin. by apply elem_of_nil in Hin.
Qed.

Lemma dedupe_rows_get df out c :
  dedupe_rows' df = Ok out → c ≠ "_nnz" →
  df_get out c = take_series (kept_rows argsort_desc df) <$> df_get df c.
Proof.
  intros ->%dedupe_rows_Ok Hc. rewrite df_get_drop_cols.
  rewrite decide_False by (intros ?%list_elem_of_singleton; done).
  rewrite df_get_take_rows. by rewrite df_get_set_col_ne by congruence.
Qed.

Lemma historical_of_total df :
  is_Some (df_get df "season") → is_Ok (historical_of df).
Proof. intros [s Hs]. unfold historical_of. rewrite Hs. by eexists. Qed.

Lemma sort_order_nil df :
  argsort_valid argsort_desc →
  sort_order argsort_desc df = [] ↔ nrows df = 0%nat.
Proof.
  intros Hvalid. unfold sort_order.
  destruct (Hvalid (nnz df <$> seq 0 (nrows df))) as [Hperm _].
  apply Permutation_length in Hperm. rewrite !length_fmap, !length_seq in Hperm.
  split.
  - intros H. by rewrite H in Hperm.
  - intros H. apply length_zero_iff_nil. by rewrite Hperm.
Qed.

Lemma key_col_prepared df b p c :
  build_canonical df = Ok b →
  (∀ c, c ∉ to_drop → has_col p c = has_col b c) → c ∈ KEY →
  is_Some (df_get p c) ↔ is_Some (df_get df c).
Proof.
  intros Hb Hh Hc. destruct (KEY_apart c Hc) as (Hnd & Hnc & _).
  rewrite <- !has_col_true, Hh by done. unfold has_col.
  by rewrite (build_canonical_other df b c Hb Hnc).
Qed.

Section with_parquet.
Variable to_parquet : DataFrame → string + string.

Lemma files_save_csv h w :
  files (save to_csv to_parquet h w) !! OUTPUT_CSV = Some (to_csv h).
Proof.
  unfold save. destruct (to_parquet h); simpl.
  - rewrite lookup_insert_ne by done. apply lookup_insert_eq.
  - apply lookup_insert_eq.
Qed.

Lemma files_save_other h w path :
  path ≠ OUTPUT_CSV → path ≠ OUTPUT_PARQUET →
  files (save to_csv to_parquet h w) !! path = files w !! path.
Proof.
  intros H1 H2. unfold save. destruct (to_parquet h); simpl.
  - by rewrite !lookup_insert_ne.
  - by rewrite lookup_insert_ne.
Qed.

Lemma main_Ok_inv w w' :
  main' to_parquet w = (Ok (), w') →
  ∃ df h msgs, read_csv' w INPUT_CSV = Ok df ∧ finalize' df = (Ok h, msgs) ∧
               w' = save to_csv to_parquet h (print_all msgs w).
Proof.
  unfold main. destruct (read_csv' w INPUT_CSV) as [df|] eqn:Hr; [|done].
  destruct (finalize' df) as [[h|e] msgs] eqn:Hf; [|done].
  intros [= <-]. by exists df, h, msgs.
Qed.

Lemma main_Ok_intro w df h msgs :
  read_csv' w INPUT_CSV = Ok df → finalize' df = (Ok h, msgs) →
  main' to_parquet w = (Ok (), save to_csv to_parquet h (print_all msgs w)).
Proof. intros Hr Hf. unfold main. by rewrite Hr, Hf. Qed.

(** The run leaves its input file as it found it. *)
Lemma main_keeps_input w :
  files (main' to_parquet w).2 !! INPUT_CSV = files w !! INPUT_CSV.
Proof.
  unfold main. destruct (read_csv' w INPUT_CSV) as [df|]; [|done].
  destruct (finalize' df) as [[h|e] msgs]; [|done]. cbn [snd].
  by rewrite files_save_other.
Qed.

End with_parquet.

End main_flow.

(** ** The historical slice *)

Lemma elem_of_mask_positions b m i :
  i ∈ mask_positions b m ↔ ∃ p, i = (b + p)%nat ∧ m !! p = Some (Some true).
Proof.
  revert b. induction m as [|x m IH]; intros b; simpl.
  - split; [by intros []%elem_of_nil | by intros (p & _ & ?)].
  - assert (Hrec : i ∈ mask_positions (S b) m ↔
                   ∃ p, i = (b + S p)%nat ∧ m !! p = Some (Some true)).
    { rewrite IH. split; intros (p & -> & Hp); exists p; split; [lia|done|lia|done]. }
    destruct x as [[]|].
    + rewrite elem_of_cons, Hrec. split.
      * intros [->|(p & -> & Hp)]; [exists 0%nat; split; [lia|done] | by exists (S p)].
      * intros ([|p] & -> & Hp); [left; lia | right; by exists p].
    + rewrite Hrec. split.
      * intros (p & -> & Hp). by exists (S p).
      * intros ([|p] & -> & Hp); [done | by exists p].
    + rewrite Hrec. split.
      * intros (p & -> & Hp). by exists (S p).
      * intros ([|p] & -> & Hp); [done | by exists p].
Qed.

Lemma value_eqb_refl v : value_eqb v v = true.
Proof. by apply bool_decide_eq_true. Qed.

Lemma series_ne_true s t i :
  series_ne s (VStr t) !! i = Some (Some true) →
  ∃ v, values s !! i = Some v ∧ v ≠ VStr t.
Proof.
  unfold series_ne. rewrite list_lookup_fmap.
  destruct (values s !! i) as [v|]; simpl; [|done].
  intros [= Hv]. exists v. split; [done|]. intros ->.
  by rewrite value_eqb_refl in Hv.
Qed.

Lemma series_ne_str s t t' i :
  values s !! i = Some (VStr t) → t ≠ t' →
  series_ne s (VStr t') !! i = Some (Some true).
Proof.
  intros Hv Hne. unfold series_ne. rewrite list_lookup_fmap, Hv. simpl.
  do 2 f_equal. apply negb_true_iff, bool_decide_eq_false. simpl. congruence.
Qed.

(** A missing season in a nullable column selects nothing. *)
Lemma series_ne_missing s x i :
  nullable (dtype_of s) = true → values s !! i = Some NA →
  series_ne s x !! i = Some None.
Proof.
  intros Hn Hv. unfold series_ne. rewrite list_lookup_fmap, Hv. simpl. by rewrite Hn.
Qed.

Lemma historical_of_Ok df h :
  historical_of df = Ok h →
  ∃ s, df_get df "season" = Some s ∧ h = take_rows (historical_rows df) df.
Proof.
  unfold historical_of, historical_rows, getitem_mask.
  destruct (df_get df "season") as [s|]; [|done]. intros [= <-]. eauto.
Qed.

Lemma historical_no_current df h j :
  historical_of df = Ok h → (j < nrows h)%nat →
  cell h "season" j ≠ VStr CURRENT_SEASON.
Proof.
  intros (s & Hs & ->)%historical_of_Ok Hj. simpl in Hj.
  destruct (lookup_lt_is_Some_2 _ _ Hj) as [i Hi].
  rewrite cell_take_rows, Hi.
  assert (i ∈ historical_rows df) as Hin by (by eapply list_elem_of_lookup_2).
  unfold historical_rows in Hin. rewrite Hs in Hin.
  apply elem_of_mask_positions in Hin as (p & -> & Hp).
  apply series_ne_true in Hp as (v & Hv & Hne).
  rewrite (cell_of_get _ _ _ _ Hs). simpl. by rewrite Hv.
Qed.

Lemma historical_includes df h i t :
  historical_of df = Ok h →
  cell df "season" i = VStr t → t ≠ CURRENT_SEASON →
  ∃ j, (j < nrows h)%nat ∧ historical_rows df !! j = Some i ∧
       ∀ c, cell h c j = cell df c i.
Proof.
  intros (s & Hs & ->)%historical_of_Ok Hc Hne.
  rewrite (cell_of_get _ _ _ _ Hs) in Hc.
  destruct (values s !! i) as [v|] eqn:Hv; simpl in Hc; [subst v|done].
  assert (i ∈ historical_rows df) as Hin.
  { unfold historical_rows. rewrite Hs. apply elem_of_mask_positions.
    exists i. split; [done|]. by apply (series_ne_str s t). }
  apply list_elem_of_lookup_1 in Hin as [j Hj].
  exists j. split_and!; [by eapply lookup_lt_Some | done |].
  intros c. by rewrite cell_take_rows, Hj.
Qed.

Lemma historical_excludes_missing df h i s :
  historical_of df = Ok h → df_get df "season" = Some s →
  nullable (dtype_of s) = true → values s !! i = Some NA →
  i ∉ historical_rows df.
Proof.
  intros _ Hs Hn Hv. unfold historical_rows. rewrite Hs.
  intros (p & Hp & Hm)%elem_of_mask_positions. simpl in Hp. subst p.
  by rewrite (series_ne_missing _ _ _ Hn Hv) in Hm.
Qed.

Section run.
Variable parse_float : pystr → option Qc.
Variable repr_float : Qc → pystr.
Variable argsort_desc : list Z → list nat.
Variable tokenize : string → option RawTable.
Variable to_csv : DataFrame → string.

Abbreviation prepare' := (prepare parse_float repr_float).
Abbreviation finalize' := (finalize parse_float repr_float argsort_desc).
Abbreviation read_csv' := (read_csv parse_float tokenize).
Abbreviation main' := (main parse_float repr_float argsort_desc tokenize to_csv).

(** C10. When one of the ten [_standard]/[_misc] columns is absent from
    the loaded table, canonicalization raises AttributeError and the run
    ends there with the file system and the console untouched: no run
    completes without the ten columns. *)
Theorem missing_variant_column_aborts to_parquet w df c :
  read_csv' w INPUT_CSV = Ok df → c ∈ to_drop → df_get df c = None →
  build_canonical df = Err AttributeError ∧
  main' to_parquet w = (Err AttributeError, w) ∧
  ∀ w', main' to_parquet w ≠ (Ok (), w').
Proof.
  intros Hr Hc Hg.
  pose proof (build_canonical_missing df c Hc Hg) as Hb.
  assert (main' to_parquet w = (Err AttributeError, w)) as Hm.
  { unfold main. rewrite Hr. unfold finalize.
    rewrite (prepare_Err parse_float repr_float df _ Hb). simpl.
    destruct w. unfold print_all. simpl. by rewrite app_nil_r. }
  split_and!; [done..|]. intros w'. by rewrite Hm.
Qed.

(** X19. When the steps before the writes complete and the columnar
    write fails, the failure is caught: the run returns normally, the
    diagnostic and the final message are printed, and the CSV file holds
    the historical table, the same as under any other behaviour of the
    columnar writer. *)
Theorem parquet_failure_is_contained to_parquet w df h msgs e :
  read_csv' w INPUT_CSV = Ok df →
  finalize' df = (Ok h, msgs) → to_parquet h = inr e →
  (main' to_parquet w).1 = Ok () ∧
  files (main' to_parquet w).2 = <[OUTPUT_CSV := to_csv h]> (files w) ∧
  stdout (main' to_parquet w).2 = stdout w ++ msgs ++ [MsgParquetSkipped e; MsgDone] ∧
  ∀ to_parquet', files (main' to_parquet' w).2 !! OUTPUT_CSV
                 = files (main' to_parquet w).2 !! OUTPUT_CSV.
Proof.
  intros Hr Hf He.
  rewrite (main_Ok_intro _ _ _ _ _ _ _ _ _ _ Hr Hf).
  split_and!.
  - done.
  - unfold save. rewrite He. done.
  - unfold save. rewrite He. simpl. by rewrite <- !app_assoc.
  - intros tp'. rewrite (main_Ok_intro _ _ _ _ _ _ _ _ _ _ Hr Hf).
    cbn [snd]. by rewrite !files_save_csv.
Qed.

(** X20. Of the file system the run reads the input file only: two runs
    that find the same content there end the same way and, when they
    complete, leave the same bytes in the CSV file, whatever else the file
    system held and whether or not the columnar writer works.  In
    particular the files a run leaves do not change what a second run
    writes. *)
Theorem main_reads_input_only to_parquet1 to_parquet2 w1 w2 :
  files w1 !! INPUT_CSV = files w2 !! INPUT_CSV →
  (main' to_parquet1 w1).1 = (main' to_parquet2 w2).1 ∧
  ((main' to_parquet1 w1).1 = Ok () →
     is_Some (files (main' to_parquet1 w1).2 !! OUTPUT_CSV) ∧
     files (main' to_parquet1 w1).2 !! OUTPUT_CSV
     = files (main' to_parquet2 w2).2 !! OUTPUT_CSV ∧
     files (main' to_parquet2 (main' to_parquet1 w1).2).2 !! OUTPUT_CSV
     = files (main' to_parquet1 w1).2 !! OUTPUT_CSV).
Proof.
  intros Hin.
  assert (Hsame : ∀ tp tp' w w', files w !! INPUT_CSV = files w' !! INPUT_CSV →
            (main' tp w).1 = (main' tp' w').1 ∧
            ((main' tp w).1 = Ok () →
               is_Some (files (main' tp w).2 !! OUTPUT_CSV) ∧
               files (main' tp w).2 !! OUTPUT_CSV
               = files (main' tp' w').2 !! OUTPUT_CSV)).
  { intros tp tp' w w' Hw. unfold main, read_csv. rewrite <- Hw.
    destruct (files w !! INPUT_CSV) as [content|]; [|done].
    destruct (tokenize content) as [raw|]; [|done].
    destruct (finalize' (read_csv_table parse_float raw)) as [[h|e] msgs]; [|done].
    cbn [fst snd]. split; [done|]. intros _. rewrite !files_save_csv.
    split; [by eexists | done]. }
  destruct (Hsame to_parquet1 to_parquet2 w1 w2 Hin) as [H1 H2].
  split; [done|]. intros Hok. destruct (H2 Hok) as [H3 H4].
  split_and!; [done..|].
  destruct (Hsame to_parquet2 to_parquet1 (main' to_parquet1 w1).2 w1) as [H5 H6].
  { apply main_keeps_input. }
  apply H6. by rewrite H5.
Qed.

End run.

(** ** Sanitizing integer columns *)

Lemma elem_of_remove_chars cs s c : c ∈ remove_chars cs s ↔ (c ∉ cs) ∧ c ∈ s.
Proof. unfold remove_chars. by rewrite list_elem_of_filter. Qed.

Lemma sanitize_str_clean t ch :
  ch ∈ [THIN_SPACE; NBSP; COMMA; EM_DASH; HYPHEN] → ch ∉ sanitize_str t.
Proof.
  intros Hch Hin. unfold sanitize_str in Hin.
  apply elem_of_remove_chars in Hin as [H1 Hin].
  apply elem_of_remove_chars in Hin as [H2 Hin].
  apply elem_of_remove_chars in Hin as [H3 Hin].
  apply elem_of_remove_chars in Hin as [H4 Hin].
  set_solver.
Qed.










Section integer_columns.
Variable parse_float : pystr → option Qc.
Variable repr_float : Qc → pystr.

Abbreviation coerce_ints := (coerce_nullable_ints parse_float repr_float).
Abbreviation numeric := (to_numeric_value parse_float).
Abbreviation sanitized := (sanitize repr_float).
Abbreviation as_int64_text := (int64_of_text parse_float).

(** In an object column the loop leaves the integers cast from the masked
    array of the sanitized text, and prints nothing. *)
Lemma coerce_nullable_ints_text df cols c s :
  NoDup cols → c ∈ cols → df_get df c = Some s → dtype_of s = object →
  ∃ df' msgs, coerce_ints df cols = (Ok df', msgs) ∧
    (MsgCoerceFailed c ∉ msgs) ∧
    df_get df' c
    = Some (mkSeries Int64
              (as_int64_text (values (sanitized s)) <$> values (sanitized s))).
Proof.
  intros Hnd Hc Hs Hd.
  destruct (coerce_nullable_ints_spec parse_float repr_float df cols Hnd)
    as (df' & msgs & H & _ & _ & _ & Hin).
  destruct (Hin c s Hc Hs) as (s' & Hs' & Hdt & Hcells).
  exists df', msgs. split; [done|].
  assert (presanitized repr_float s = sanitized s) as Hpre
    by (unfold presanitized; by rewrite decide_True).
  unfold coerced_cells in Hcells. cbv zeta in Hcells. rewrite Hpre in Hcells.
  rewrite string_array_sanitize in Hcells.
  subst s'. split; [|done].
  by destruct Hdt as [[_ ?]|[? _]].
Qed.

(** A string cell of an object column comes out as the integer cast from
    its sanitized text. *)
Lemma coerce_nullable_ints_cell df cols c s i t :
  NoDup cols → c ∈ cols → df_get df c = Some s → dtype_of s = object →
  values s !! i = Some (VStr t) →
  ∃ df' msgs s', coerce_ints df cols = (Ok df', msgs) ∧
    df_get df' c = Some s' ∧ dtype_of s' = Int64 ∧ (MsgCoerceFailed c ∉ msgs) ∧
    cell df' c i = as_int64_text (values (sanitized s)) (VStr (sanitize_str t)).
Proof.
  intros Hnd Hc Hs Hd Hv.
  destruct (coerce_nullable_ints_text df cols c s Hnd Hc Hs Hd)
    as (df' & msgs & H & Hmsg & Hs').
  eexists df', msgs, _. split_and!; [done | exact Hs' | done | done |].
  rewrite (cell_of_get _ _ _ _ Hs'). cbn [values]. rewrite list_lookup_fmap.
  pose proof (sanitize_lookup repr_float s i) as Hl. rewrite Hv in Hl.
  destruct (values (sanitized s) !! i) as [v|] eqn:Hv'; simpl in Hl.
  - by subst v.
  - apply lookup_ge_None in Hv'. apply lookup_lt_Some in Hv.
    unfold sanitize, str_remove, map_values, astype_string in Hv'. simpl in Hv'.
    rewrite !length_fmap in Hv'. lia.
Qed.

(** C5. In an integer column read as text (an object column), every string
    cell loses its thousands separators, em dashes, plain dashes and
    thin/no-break spaces before it is parsed, and the coercion never raises
    nor falls back: the column comes out as nullable integers, ["1,234"]
    becomes the integer 1234 (as does every integer literal of at most 53
    bits), an em dash or a dash alone becomes missing, and a cell whose
    sanitized text is empty or not a number becomes missing. *)
Theorem coerce_nullable_ints_sanitizes df cols c s i t :
  NoDup cols → c ∈ cols → df_get df c = Some s → dtype_of s = object →
  values s !! i = Some (VStr t) →
  ∃ df' msgs s', coerce_ints df cols = (Ok df', msgs) ∧
    df_get df' c = Some s' ∧ dtype_of s' = Int64 ∧ (MsgCoerceFailed c ∉ msgs) ∧
    (∀ ch, ch ∈ [THIN_SPACE; NBSP; COMMA; EM_DASH; HYPHEN] → ch ∉ sanitize_str t) ∧
    (∀ z, int_literal (sanitize_str t) = Some z → Z.abs z ≤ 2 ^ 53 →
          cell df' c i = VInt z) ∧
    (sanitize_str t = [] ∨ parse_number parse_float (sanitize_str t) = None →
     cell df' c i = NA) ∧
    (t = lit "1,234" → cell df' c i = VInt 1234) ∧
    (t = [EM_DASH] ∨ t = [HYPHEN] → cell df' c i = NA).
Proof.
  intros Hnd Hc Hs Hd Hv.
  destruct (coerce_nullable_ints_cell df cols c s i t Hnd Hc Hs Hd Hv)
    as (df' & msgs & s' & H & Hs' & Hdt & Hmsg & Hcell).
  exists df', msgs, s'. split_and!; [done..| | | | |].
  - intros ch. apply sanitize_str_clean.
  - intros z Hz Hle. rewrite Hcell. by apply int64_of_text_literal.
  - intros Hbad. rewrite Hcell. apply int64_of_text_NA. simpl.
    destruct (decide (sanitize_str t = [])); [done|].
    destruct Hbad as [?|Hp]; [done|]. by rewrite Hp.
  - intros ->. rewrite Hcell. by apply int64_of_text_literal.
  - intros Ht. rewrite Hcell. apply int64_of_text_NA. by destruct Ht as [-> | ->].
Qed.


End integer_columns.

(** ** From the raw table to the output *)

Lemma assoc_get_imap (F : nat → Series) c hdr :
  assoc_get c (imap (λ j c', (c', F j)) hdr) = F <$> label_position c hdr.
Proof.
  revert F. induction hdr as [|c' hdr IH]; intros F; simpl; [done|].
  destruct (decide (c' = c)); [done|].
  change (imap ((λ j c'0, (c'0, F j)) ∘ S) hdr)
    with (imap (λ j c'0, (c'0, (F ∘ S) j)) hdr).
  rewrite (IH (F ∘ S)). by destruct (label_position c hdr).
Qed.

Section raw_table.
Variable parse_float : pystr → option Qc.

Abbreviation infer := (infer_column parse_float).

Lemma df_get_read_csv_table raw c :
  df_get (read_csv_table parse_float raw) c =
  (λ j, infer (column_tokens raw j)) <$> label_position c (header raw).
Proof. unfold df_get, read_csv_table. simpl. apply assoc_get_imap. Qed.

Lemma column_tokens_lookup raw j i rec :
  records raw !! i = Some rec →
  column_tokens raw j !! i = Some (default [] (rec !! j)).
Proof. intros H. unfold column_tokens. by rewrite list_lookup_fmap, H. Qed.

(** An empty field, like any default missing-value token, is read as
    missing whatever the column turns out to hold. *)
Lemma infer_column_na tokens i t :
  tokens !! i = Some t → is_na_token t = true →
  values (infer tokens) !! i = Some NA.
Proof.
  intros Ht Hna. unfold infer_column.
  rewrite decide_False by (intros ->; done).
  destruct (forallb _ _); simpl; rewrite list_lookup_fmap, Ht; simpl.
  - unfold csv_number_cell. rewrite Hna. by rewrite cast_value_NA.
  - unfold csv_text_cell. by rewrite Hna.
Qed.

(** An integer field is read as that integer, as the float of that integer
    or, in a column with text, as its own text. *)
Lemma infer_column_int tokens i t z :
  tokens !! i = Some t → is_na_token t = false → parse_int t = Some z →
  ∃ v, values (infer tokens) !! i = Some v ∧
       (v = VInt z ∨ v = VFloat (Qc_of_Z z) ∨ v = VStr t).
Proof.
  intros Ht Hna Hz. unfold infer_column.
  rewrite decide_False by (intros ->; done).
  destruct (forallb _ _); simpl; rewrite list_lookup_fmap, Ht; simpl.
  - unfold csv_number_cell, parse_number. rewrite Hna.
    rewrite parse_int_literal in Hz.
    destruct (int_literal t) as [z'|]; [|done]. simpl in Hz.
    destruct (in_int64 z'); [|done]. injection Hz as ->. simpl.
    destruct (forallb _ tokens); simpl; eauto.
  - unfold csv_text_cell. rewrite Hna. eauto.
Qed.

End raw_table.

Section provenance.
Variable argsort_desc : list Z → list nat.

Lemma mask_positions_lt b m i : i ∈ mask_positions b m → (i < b + length m)%nat.
Proof.
  intros (p & -> & Hp)%elem_of_mask_positions.
  apply lookup_lt_Some in Hp. lia.
Qed.

(** Each persisted row is the row of the prepared frame that [source_rows]
    names. *)
Lemma source_rows_cell p d h j i c :
  dedupe_rows argsort_desc p = Ok d → historical_of d = Ok h →
  source_rows argsort_desc p !! j = Some i → c ≠ "_nnz" →
  cell h c j = cell p c i.
Proof.
  intros Hd Hh Hj Hc.
  apply historical_of_Ok in Hh as (sd & Hsd & ->).
  rewrite (dedupe_rows_get _ _ _ "season" Hd) in Hsd by done.
  destruct (df_get p "season") as [sp|] eqn:Hsp; simpl in Hsd; [|done].
  injection Hsd as <-.
  unfold source_rows in Hj. rewrite Hsp in Hj. simpl in Hj.
  rewrite list_lookup_fmap in Hj.
  destruct (mask_positions 0 _ !! j) as [j1|] eqn:Hj1; simpl in Hj; [|done].
  injection Hj as <-.
  assert (j1 < length (kept_rows argsort_desc p))%nat as Hlt.
  { apply list_elem_of_lookup_2, mask_positions_lt in Hj1.
    unfold series_ne, take_series in Hj1. simpl in Hj1.
    by rewrite !length_fmap in Hj1. }
  destruct (lookup_lt_is_Some_2 _ _ Hlt) as [i Hi]. rewrite Hi. simpl.
  rewrite cell_take_rows.
  assert (historical_rows d !! j = Some j1) as ->.
  { unfold historical_rows.
    rewrite (dedupe_rows_get _ _ _ "season" Hd), Hsp by done. done. }
  by eapply dedupe_rows_cell.
Qed.

End provenance.

Section empty_standard.
Variable parse_float : pystr → option Qc.
Variable repr_float : Qc → pystr.
Variable argsort_desc : list Z → list nat.

Abbreviation prepare' := (prepare parse_float repr_float).
Abbreviation finalize' := (finalize parse_float repr_float argsort_desc).
Abbreviation table := (read_csv_table parse_float).

(** However the integer 24 is held in the canonical column, the integer
    loop reads it back as 24: a text column goes through ["24"] or
    ["24.0"], a numeric one keeps the number. *)
Lemma int64_of_text_24 vs v :
  v = VInt 24 ∨ v = VFloat (Qc_of_Z 24) ∨ v = VStr (lit "24") ∨ v = VStr (lit "24.0") →
  int64_of_text parse_float vs v = VInt 24.
Proof.
  intros Hv. unfold int64_of_text.
  destruct Hv as [->|[->|[->| ->]]]; by destruct (mode_of _).
Qed.

Lemma coerced_24 s s' i v :
  coerced_cells parse_float repr_float s s' →
  default NA (values s !! i) = v →
  v = VInt 24 ∨ v = VFloat (Qc_of_Z 24) ∨ v = VStr (lit "24") →
  default NA (values s' !! i) ≈ VInt 24.
Proof.
  intros Hco Hv Hcases. unfold coerced_cells in Hco.
  destruct (string_array (presanitized repr_float s)) eqn:Ht.
  - subst s'. cbn [values]. rewrite list_lookup_fmap.
    set (vs := values (presanitized repr_float s)).
    assert (default NA (int64_of_text parse_float vs <$> vs !! i)
            = int64_of_text parse_float vs (default NA (vs !! i))) as ->.
    { destruct (vs !! i); simpl; [done|]. symmetry. by apply int64_of_text_NA. }
    rewrite int64_of_text_24; [reflexivity|].
    subst vs. unfold presanitized.
    destruct (decide (dtype_of s = object)) as [Hd|Hd].
    + rewrite sanitize_lookup, Hv.
      destruct Hcases as [->|[->| ->]]; vm_compute; auto.
    + rewrite Hv. tauto.
  - destruct (Hco i) as [Heq _]. eapply value_eq_trans; [exact Heq|].
    unfold presanitized in *.
    destruct (decide (dtype_of s = object)) as [Hd|Hd];
      [by rewrite string_array_sanitize in Ht|].
    rewrite Hv. destruct Hcases as [->|[->| ->]].
    + reflexivity.
    + by vm_compute.
    + reflexivity.
Qed.

(** C6. A record whose [age_standard] field is the empty string and whose
    [age_misc] field is ["24"] gets canonical age 24: the empty field is
    read as missing, so the fallback applies, and the row carries age 24
    into the persisted table whenever it is one of the rows kept. *)
Theorem empty_age_standard_falls_back raw i rec js jm p msgs :
  label_position "age_standard" (header raw) = Some js →
  label_position "age_misc" (header raw) = Some jm →
  records raw !! i = Some rec →
  default [] (rec !! js) = [] →
  default [] (rec !! jm) = lit "24" →
  prepare' (table raw) = (Ok p, msgs) →
  cell (table raw) "age_standard" i = NA ∧
  cell p "age" i ≈ VInt 24 ∧
  ∀ h msgs' j, finalize' (table raw) = (Ok h, msgs') →
    source_rows argsort_desc p !! j = Some i → cell h "age" j ≈ VInt 24.
Proof.
  intros Hjs Hjm Hrec Hstd Hmisc Hp.
  destruct (build_canonical (table raw)) as [b|e] eqn:Hb;
    [|by rewrite (prepare_Err _ _ _ _ Hb) in Hp].
  destruct (build_canonical_Ok _ _ "age" Hb) as (a0 & b0 & Ha & Hb0 & Hage).
  { unfold canonical_fields. set_solver. }
  change ("age" +:+ "_standard") with "age_standard" in Ha.
  change ("age" +:+ "_misc") with "age_misc" in Hb0.
  rewrite df_get_read_csv_table, Hjs in Ha. simpl in Ha. injection Ha as <-.
  rewrite df_get_read_csv_table, Hjm in Hb0. simpl in Hb0. injection Hb0 as <-.
  pose proof (column_tokens_lookup raw js i rec Hrec) as Hts. rewrite Hstd in Hts.
  pose proof (column_tokens_lookup raw jm i rec Hrec) as Htm. rewrite Hmisc in Htm.
  pose proof (infer_column_na parse_float _ i _ Hts eq_refl) as Hna.
  destruct (infer_column_int parse_float _ i _ 24 Htm eq_refl eq_refl)
    as (v & Hv & Hcases).
  assert (Hcell : cell p "age" i ≈ VInt 24).
  { destruct (prepare_Ok parse_float repr_float _ b Hb) as (p' & msgs' & Hp' & _ & _ & Hin).
    assert (p' = p) as -> by congruence.
    destruct (Hin "age" _ ltac:(unfold int_cols; set_solver) Hage)
      as (s' & Hs' & _ & Hcells).
    rewrite (cell_of_get _ _ _ _ Hs').
    eapply coerced_24; [exact Hcells | apply combine_first_lookup|].
    rewrite Hna, Hv. simpl.
    destruct Hcases as [->|[->| ->]];
      destruct (combined_dtype _ _); simpl; auto. }
  split_and!; [|done|].
  - unfold cell. rewrite df_get_read_csv_table, Hjs. simpl. by rewrite Hna.
  - intros h msgs' j Hf Hj.
    apply finalize_Ok_inv in Hf as (p' & d & Hp' & Hd & Hh).
    assert (p' = p) as -> by congruence.
    by rewrite (source_rows_cell argsort_desc p d h j i "age" Hd Hh Hj).
Qed.

End empty_standard.

(** ** Text in integer columns *)

Lemma common_dtype_object_l d : common_dtype object d = object.
Proof. by destruct d. Qed.

Lemma common_dtype_object_r d : common_dtype d object = object.
Proof. by destruct d. Qed.

Lemma combined_dtype_taken a b i :
  (i < max (length (values a)) (length (values b)))%nat →
  let x := default NA (values a !! i) in
  existsb (if notna x then notna else isna)
    ((λ i, default NA (values a !! i))
       <$> seq 0 (max (length (values a)) (length (values b)))) = true.
Proof.
  intros Hi x. apply existsb_exists. exists x. split.
  - apply list_elem_of_In, list_elem_of_fmap. exists i. split; [done|].
    apply elem_of_seq. lia.
  - unfold isna. by destruct (notna x) eqn:Hx; rewrite Hx.
Qed.

Lemma combined_dtype_object_l a b i :
  dtype_of a = object → notna (default NA (values a !! i)) = true →
  combined_dtype a b = object.
Proof.
  intros Hd Hn.
  assert (i < max (length (values a)) (length (values b)))%nat as Hi.
  { destruct (values a !! i) eqn:Hx; [|done]. apply lookup_lt_Some in Hx. lia. }
  pose proof (combined_dtype_taken a b i Hi) as Hex. simpl in Hex. rewrite Hn in Hex.
  unfold combined_dtype. rewrite Hex, Hd.
  destruct (decide _); [done|]. destruct (_ && _); [done|].
  rewrite andb_false_r. apply common_dtype_object_l.
Qed.

Lemma combined_dtype_object_r a b i :
  dtype_of b = object → notna (default NA (values a !! i)) = false →
  is_Some (values b !! i) →
  combined_dtype a b = object.
Proof.
  intros Hd Hn [y Hy].
  assert (i < max (length (values a)) (length (values b)))%nat as Hi.
  { apply lookup_lt_Some in Hy. lia. }
  pose proof (combined_dtype_taken a b i Hi) as Hex. simpl in Hex. rewrite Hn in Hex.
  unfold combined_dtype. rewrite Hex, Hd.
  destruct (decide _) as [e|]; [done|]. rewrite andb_false_r.
  destruct (_ && _); [done|]. apply common_dtype_object_r.
Qed.

Lemma combine_first_strings a b :
  strings_in_object a → strings_in_object b → strings_in_object (combine_first a b).
Proof.
  intros Ha Hb v Hv Hstr. cbn [combine_first dtype_of].
  apply list_elem_of_lookup_1 in Hv as [i Hi].
  pose proof (combine_first_lookup a b i) as Hl. rewrite Hi in Hl. simpl in Hl.
  rewrite Hl, cast_value_is_str in Hstr.
  destruct (notna (default NA (values a !! i))) eqn:Hn.
  - apply (combined_dtype_object_l a b i); [|done].
    destruct (values a !! i) as [x|] eqn:Hx; [|done].
    apply (Ha x); [by eapply list_elem_of_lookup_2 | done].
  - destruct (values b !! i) as [y|] eqn:Hy; simpl in Hstr; [|done].
    apply (combined_dtype_object_r a b i); [|done|by eexists].
    apply (Hb y); [by eapply list_elem_of_lookup_2 | done].
Qed.

Section text_columns.
Variable parse_float : pystr → option Qc.
Variable repr_float : Qc → pystr.

Lemma infer_column_strings tokens :
  strings_in_object (infer_column parse_float tokens).
Proof.
  intros v. unfold infer_column.
  destruct (decide (tokens = [])); [done|].
  destruct (forallb _ _); [|done]. simpl.
  intros (t & -> & _)%list_elem_of_fmap. simpl.
  rewrite cast_value_is_str. unfold csv_number_cell.
  destruct (is_na_token t); [done|].
  destruct (parse_number parse_float t) as [x|] eqn:Hp; simpl; [|done].
  by rewrite (parse_number_is_str _ _ _ Hp).
Qed.

(** In the table the script builds from a CSV, the integer columns hold
    text only when their dtype is object. *)
Lemma canonical_int_column_strings raw b c s :
  build_canonical (read_csv_table parse_float raw) = Ok b →
  c ∈ int_cols → df_get b c = Some s → strings_in_object s.
Proof.
  intros Hb Hc Hs.
  destruct (decide (c ∈ canonical_fields)) as [Hcan|Hcan].
  - destruct (build_canonical_Ok _ _ c Hb Hcan) as (a0 & b0 & Ha & Hb0 & Hget).
    assert (s = combine_first a0 b0) as -> by congruence.
    rewrite df_get_read_csv_table in Ha, Hb0.
    destruct (label_position _ _) in Ha; simpl in Ha; [|done].
    destruct (label_position _ _) in Hb0; simpl in Hb0; [|done].
    injection Ha as <-. injection Hb0 as <-.
    apply combine_first_strings; apply infer_column_strings.
  - rewrite (build_canonical_other _ _ c Hb Hcan), df_get_read_csv_table in Hs.
    destruct (label_position _ _) in Hs; simpl in Hs; [|done].
    injection Hs as <-. apply infer_column_strings.
Qed.

(** Hence every string cell of an integer column is sanitized before it is
    read as a number, on the path [main] takes. *)
Lemma prepare_sanitizes raw b p msgs c s i t :
  build_canonical (read_csv_table parse_float raw) = Ok b →
  prepare parse_float repr_float (read_csv_table parse_float raw) = (Ok p, msgs) →
  c ∈ int_cols → df_get b c = Some s → values s !! i = Some (VStr t) →
  cell p c i =
  int64_of_text parse_float (values (sanitize repr_float s)) (VStr (sanitize_str t)).
Proof.
  intros Hb Hp Hc Hs Hv.
  destruct (prepare_Ok parse_float repr_float _ b Hb) as (p' & msgs' & Hp' & _ & _ & Hin).
  assert (p' = p) as -> by congruence.
  destruct (Hin c s Hc Hs) as (s' & Hs' & _ & Hcells).
  rewrite (cell_of_get _ _ _ _ Hs').
  assert (dtype_of s = object) as Hd.
  { eapply (canonical_int_column_strings raw b c s Hb Hc Hs (VStr t)); [|done].
    by eapply list_elem_of_lookup_2. }
  unfold coerced_cells, presanitized in Hcells.
  rewrite (decide_True _ _ Hd), string_array_sanitize in Hcells.
  subst s'. cbn [values]. rewrite list_lookup_fmap.
  pose proof (sanitize_lookup repr_float s i) as Hl. rewrite Hv in Hl.
  destruct (values (sanitize repr_float s) !! i) as [v|] eqn:Hv'; simpl in Hl.
  - by subst v.
  - apply lookup_ge_None in Hv'. apply lookup_lt_Some in Hv.
    unfold sanitize, str_remove, map_values, astype_string in Hv'. simpl in Hv'.
    rewrite !length_fmap in Hv'. lia.
Qed.

End text_columns.

(** ** The stable reference sort *)

Section reference_sorts.
Import Reference.

Lemma indexed_fst l : (indexed l).*1 = seq 0 (length l).
Proof.
  apply list_eq. intros i. unfold indexed.
  rewrite list_lookup_fmap, list_lookup_imap.
  destruct (l !! i) as [a|] eqn:Hl; simpl.
  - symmetry. apply lookup_seq. split; [done | by eapply lookup_lt_Some].
  - symmetry. apply lookup_seq_ge. by apply lookup_ge_None.
Qed.

Lemma indexed_elem l x : x ∈ indexed l → key_at l x.1 = x.2.
Proof.
  intros [i Hi]%list_elem_of_lookup_1. unfold indexed in Hi.
  rewrite list_lookup_imap in Hi. unfold key_at.
  destruct (l !! i) as [a|] eqn:Hl; simpl in Hi; [|done].
  injection Hi as <-. simpl. by rewrite Hl.
Qed.

Lemma StronglySorted_fmap_on {A B} (R : relation A) (R' : relation B) (f : A → B) l :
  StronglySorted R l →
  (∀ x y, x ∈ l → y ∈ l → R x y → R' (f x) (f y)) →
  StronglySorted R' (f <$> l).
Proof.
  induction 1 as [|x l Hs IH Hall]; intros Hf; simpl; [constructor|].
  constructor.
  - apply IH. intros a b Ha Hb. apply Hf; by right.
  - apply Forall_fmap, Forall_forall. intros y Hy. simpl.
    rewrite Forall_forall in Hall. apply Hf; [by left | by right | by apply Hall].
Qed.

#[local] Instance before_stable_trans : Transitive before_stable.
Proof. intros [??] [??] [??]. unfold before_stable. simpl. lia. Qed.
#[local] Instance before_stable_total : Total before_stable.
Proof. intros [??] [??]. unfold before_stable. simpl. lia. Qed.

Lemma argsort_by_valid (R : relation (nat * Z)) `{!∀ x y, Decision (R x y)}
    `{!Transitive R} `{!Total R} (R' : relation Z → relation nat) l :
  (∀ x y, x ∈ indexed l → y ∈ indexed l → R x y → R' (λ a b, True) x.1 y.1) →
  StronglySorted (R' (λ a b, True)) ((merge_sort R (indexed l)).*1).
Proof.
  intros HR. eapply StronglySorted_fmap_on; [by apply StronglySorted_merge_sort|].
  intros x y Hx Hy. apply HR; by rewrite <- (merge_sort_Permutation R).
Qed.

Lemma argsort_mergesort_valid : argsort_valid argsort_mergesort.
Proof.
  intros l. unfold argsort_mergesort. split.
  - by rewrite merge_sort_Permutation, indexed_fst.
  - apply (argsort_by_valid before_stable (λ _ i j, key_at l j ≤ key_at l i)).
    intros x y Hx Hy. rewrite (indexed_elem l x Hx), (indexed_elem l y Hy).
    unfold before_stable. lia.
Qed.

Lemma argsort_mergesort_stable : argsort_stable argsort_mergesort.
Proof.
  intros l. unfold argsort_mergesort.
  apply (argsort_by_valid before_stable
           (λ _ i j, key_at l i = key_at l j → (i ≤ j)%nat)).
  intros x y Hx Hy. rewrite (indexed_elem l x Hx), (indexed_elem l y Hy).
  unfold before_stable. lia.
Qed.

End reference_sorts.

(** ** The properties on the sample inputs *)

Section samples.
Import Reference Samples.

Lemma build_canonical_first_non_null_witness :
  build_canonical table = Ok canonical ∧ "age" ∈ canonical_fields ∧
  cell canonical "age" 0 ≈ cell table "age_misc" 0 ∧
  cell canonical "age" 1 = NA ∧
  cell canonical "age" 2 ≈ cell table "age_standard" 2.
Proof.
  assert (H1 : build_canonical table = Ok canonical) by (vm_compute; reflexivity).
  assert (H2 : "age" ∈ canonical_fields) by (apply (bool_decide_unpack _); reflexivity).
  split_and!; [exact H1 | exact H2 | | |].
  - destruct (build_canonical_first_non_null table canonical "age" 0 H1 H2)
      as (_ & H & _).
    apply H; vm_compute; reflexivity.
  - destruct (build_canonical_first_non_null table canonical "age" 1 H1 H2)
      as (_ & _ & H).
    apply H; vm_compute; reflexivity.
  - destruct (build_canonical_first_non_null table canonical "age" 2 H1 H2)
      as (H & _ & _).
    apply H; vm_compute; reflexivity.
Defined.

Lemma dedupe_rows_keeps_most_complete_witness :
  argsort_valid argsort_mergesort ∧
  dedupe_rows argsort_mergesort prepared = Ok deduped ∧
  (1 < nrows prepared)%nat ∧
  ∃ k j, (k < nrows prepared)%nat ∧ (j < nrows deduped)%nat ∧
    row_key prepared KEY k = row_key prepared KEY 1 ∧
    (∀ c, c ≠ "_nnz" → cell deduped c j = cell prepared c k) ∧
    (∀ i', (i' < nrows prepared)%nat →
           row_key prepared KEY i' = row_key prepared KEY 1 →
           nnz prepared i' ≤ nnz prepared k).
Proof.
  assert (H1 : dedupe_rows argsort_mergesort prepared = Ok deduped)
    by (vm_compute; reflexivity).
  assert (H2 : (1 < nrows prepared)%nat) by (vm_compute; lia).
  split_and!; [exact argsort_mergesort_valid | exact H1 | exact H2 |].
  destruct (dedupe_rows_keeps_most_complete argsort_mergesort prepared deduped 1
              argsort_mergesort_valid H1 H2)
    as (k & j & Hk & Hj & Hkey & Hcells & _ & Hmax & _).
  exists k, j. split_and!; assumption.
Defined.

Lemma dedupe_rows_unique_key_witness :
  dedupe_rows argsort_mergesort prepared = Ok deduped ∧
  (0 < nrows deduped)%nat ∧ (1 < nrows deduped)%nat ∧ 0%nat ≠ 1%nat ∧
  row_key deduped KEY 0 ≠ row_key deduped KEY 1.
Proof.
  assert (H1 : dedupe_rows argsort_mergesort prepared = Ok deduped)
    by (vm_compute; reflexivity).
  assert (H2 : (0 < nrows deduped)%nat) by (vm_compute; lia).
  assert (H3 : (1 < nrows deduped)%nat) by (vm_compute; lia).
  assert (H4 : 0%nat ≠ 1%nat) by lia.
  split_and!; [exact H1 | exact H2 | exact H3 | exact H4 |].
  exact (dedupe_rows_unique_key argsort_mergesort prepared deduped 0 1 H1 H2 H3 H4).
Defined.

Lemma coerce_nullable_ints_sanitizes_witness :
  NoDup int_cols ∧ "matches_played" ∈ int_cols ∧
  df_get stats "matches_played" = Some matches ∧ dtype_of matches = object ∧
  values matches !! 0%nat = Some (VStr (lit "1,234")) ∧
  ∃ df' msgs,
    coerce_nullable_ints parse_float_none repr_float_ratio stats int_cols
    = (Ok df', msgs) ∧
    cell df' "matches_played" 0 = VInt 1234.
Proof.
  assert (H2 : "matches_played" ∈ int_cols) by (apply (bool_decide_unpack _); reflexivity).
  assert (H3 : df_get stats "matches_played" = Some matches) by reflexivity.
  assert (H4 : dtype_of matches = object) by reflexivity.
  assert (H5 : values matches !! 0%nat = Some (VStr (lit "1,234"))) by reflexivity.
  split_and!; [exact int_cols_NoDup | exact H2 | exact H3 | exact H4 | exact H5 |].
  destruct (coerce_nullable_ints_sanitizes parse_float_none repr_float_ratio
              stats int_cols "matches_played" matches 0 (lit "1,234")
              int_cols_NoDup H2 H3 H4 H5)
    as (df' & msgs & s' & Hrun & _ & _ & _ & _ & _ & _ & Hint & _).
  exists df', msgs. split; [exact Hrun | exact (Hint eq_refl)].
Defined.

Lemma empty_age_standard_falls_back_witness :
  label_position "age_standard" (header raw) = Some 10%nat ∧
  label_position "age_misc" (header raw) = Some 11%nat ∧
  records raw !! 0%nat = Some (default [] (records raw !! 0%nat)) ∧
  default [] (default [] (records raw !! 0%nat) !! 10%nat) = [] ∧
  default [] (default [] (records raw !! 0%nat) !! 11%nat) = lit "24" ∧
  prepare parse_float_none repr_float_ratio table
  = (Ok prepared, (prepare parse_float_none repr_float_ratio table).2) ∧
  cell prepared "age" 0 ≈ VInt 24.
Proof.
  assert (H1 : label_position "age_standard" (header raw) = Some 10%nat) by (vm_compute; reflexivity).
  assert (H2 : label_position "age_misc" (header raw) = Some 11%nat) by (vm_compute; reflexivity).
  assert (H3 : records raw !! 0%nat = Some (default [] (records raw !! 0%nat)))
    by (vm_compute; reflexivity).
  assert (H4 : default [] (default [] (records raw !! 0%nat) !! 10%nat) = [])
    by (vm_compute; reflexivity).
  assert (H5 : default [] (default [] (records raw !! 0%nat) !! 11%nat) = lit "24")
    by (vm_compute; reflexivity).
  assert (H6 : prepare parse_float_none repr_float_ratio table
               = (Ok prepared, (prepare parse_float_none repr_float_ratio table).2))
    by (vm_compute; reflexivity).
  split_and!; [exact H1 | exact H2 | exact H3 | exact H4 | exact H5 | exact H6 |].
  destruct (empty_age_standard_falls_back parse_float_none repr_float_ratio
              argsort_mergesort raw 0 _ 10 11 prepared _ H1 H2 H3 H4 H5 H6)
    as (_ & H & _).
  exact H.
Defined.

Lemma parquet_failure_is_contained_witness :
  read_csv parse_float_none tokenize_plain world INPUT_CSV = Ok table ∧
  finalize parse_float_none repr_float_ratio argsort_mergesort table
  = (Ok historical, []) ∧
  to_parquet_unavailable historical = inr "Unable to find a usable engine" ∧
  (run to_parquet_unavailable world).1 = Ok () ∧
  files (run to_parquet_unavailable world).2 !! OUTPUT_CSV
  = files (run to_parquet_ok world).2 !! OUTPUT_CSV ∧
  stdout (run to_parquet_unavailable world).2
  = [MsgParquetSkipped "Unable to find a usable engine"; MsgDone].
Proof.
  assert (H1 : read_csv parse_float_none tokenize_plain world INPUT_CSV = Ok table)
    by (vm_compute; reflexivity).
  assert (H2 : finalize parse_float_none repr_float_ratio argsort_mergesort table
               = (Ok historical, [])) by (vm_compute; reflexivity).
  assert (H3 : to_parquet_unavailable historical = inr "Unable to find a usable engine")
    by reflexivity.
  destruct (parquet_failure_is_contained parse_float_none repr_float_ratio
              argsort_mergesort tokenize_plain to_csv_plain to_parquet_unavailable
              world table historical [] _ H1 H2 H3) as (Hok & _ & Hout & Hsame).
  split_and!; [exact H1 | exact H2 | exact H3 | exact Hok | symmetry; apply Hsame
              | exact Hout].
Defined.

Lemma main_reads_input_only_witness :
  files world !! INPUT_CSV = files world_again !! INPUT_CSV ∧
  (run to_parquet_ok world).1 = (run to_parquet_unavailable world_again).1 ∧
  files (run to_parquet_ok world).2 !! OUTPUT_CSV
  = files (run to_parquet_unavailable world_again).2 !! OUTPUT_CSV.
Proof.
  assert (H1 : files world !! INPUT_CSV = files world_again !! INPUT_CSV)
    by (vm_compute; reflexivity).
  destruct (main_reads_input_only parse_float_none repr_float_ratio argsort_mergesort
              tokenize_plain to_csv_plain to_parquet_ok to_parquet_unavailable
              world world_again H1) as [Hres Hcsv].
  split_and!; [exact H1 | exact Hres |].
  destruct Hcsv as (_ & H & _); [vm_compute; reflexivity | exact H].
Defined.


Lemma missing_variant_column_aborts_witness :
  read_csv parse_float_none tokenize_plain world_without_age_misc INPUT_CSV
  = Ok table_without_age_misc ∧
  "age_misc" ∈ to_drop ∧ df_get table_without_age_misc "age_misc" = None ∧
  run to_parquet_ok world_without_age_misc
  = (Err AttributeError, world_without_age_misc).
Proof.
  assert (H1 : read_csv parse_float_none tokenize_plain world_without_age_misc INPUT_CSV
               = Ok table_without_age_misc) by (vm_compute; reflexivity).
  assert (H2 : "age_misc" ∈ to_drop) by (apply (bool_decide_unpack _); reflexivity).
  assert (H3 : df_get table_without_age_misc "age_misc" = None) by reflexivity.
  split_and!; [exact H1 | exact H2 | exact H3 |].
  destruct (missing_variant_column_aborts parse_float_none repr_float_ratio
              argsort_mergesort tokenize_plain to_csv_plain to_parquet_ok
              world_without_age_misc table_without_age_misc "age_misc" H1 H2 H3)
    as (_ & H & _).
  exact H.
Defined.

(** Against the tie-break of C2.  [squad] holds twenty-four records, of
    which the records 2 and 6, and no others, share their key.  The two
    are equally complete, and the first of them in the input is record 2;
    sorted by NumPy's quicksort the way [sort_values] does it, the table
    keeps record 6 and drops record 2.  So the first of the tied rows is
    not always the one kept. *)
Lemma dedupe_keeps_later_of_ties :
  dedupe_rows nargsort_desc squad = Ok squad_deduped ∧
  row_key squad KEY 2 = row_key squad KEY 6 ∧
  nnz squad 2 = nnz squad 6 ∧
  (∀ i, (i < nrows squad)%nat → row_key squad KEY i = row_key squad KEY 2 →
        i = 2%nat ∨ i = 6%nat) ∧
  (∃ j, (j < nrows squad_deduped)%nat ∧
        cell squad_deduped "shirt" j = cell squad "shirt" 6) ∧
  (∀ j, (j < nrows squad_deduped)%nat →
        cell squad_deduped "shirt" j ≠ cell squad "shirt" 2) ∧
  ¬ first_of_ties_kept nargsort_desc.
Proof.
  assert (Hd : dedupe_rows nargsort_desc squad = Ok squad_deduped)
    by (vm_compute; reflexivity).
  assert (Hn : nrows squad_deduped = 23%nat) by (vm_compute; reflexivity).
  assert (Hgroup : ∀ i, (i < nrows squad)%nat →
            row_key squad KEY i = row_key squad KEY 2 → i = 2%nat ∨ i = 6%nat).
  { assert (Forall (λ i, row_key squad KEY i = row_key squad KEY 2 →
                         i = 2%nat ∨ i = 6%nat) (seq 0 24)) as Hall
      by (apply (bool_decide_unpack _); vm_compute; reflexivity).
    intros i Hi. apply (proj1 (Forall_forall _ _) Hall), elem_of_seq.
    change (nrows squad) with 24%nat in Hi. lia. }
  assert (Hout : ∀ j, (j < nrows squad_deduped)%nat →
            cell squad_deduped "shirt" j ≠ cell squad "shirt" 2).
  { assert (Forall (λ j, cell squad_deduped "shirt" j ≠ cell squad "shirt" 2)
              (seq 0 23)) as Hall
      by (apply (bool_decide_unpack _); vm_compute; reflexivity).
    intros j Hj. apply (proj1 (Forall_forall _ _) Hall), elem_of_seq. lia. }
  split_and!.
  - exact Hd.
  - vm_compute; reflexivity.
  - vm_compute; reflexivity.
  - exact Hgroup.
  - assert (Exists (λ j, cell squad_deduped "shirt" j = cell squad "shirt" 6)
              (seq 0 23)) as Hex
      by (apply (bool_decide_unpack _); vm_compute; reflexivity).
    apply Exists_exists in Hex as (j & Hj%elem_of_seq & Hcell).
    exists j. split; [lia | exact Hcell].
  - exact Hout.
  - intros H.
    destruct (H squad squad_deduped 2%nat Hd ltac:(vm_compute; lia))
      as (k & j & Hk & Hj & Hkey & Hcells & Hfirst).
    assert (k = 2%nat) as ->.
    { destruct (Hgroup k Hk Hkey) as [->| ->]; [done|].
      destruct (Hfirst 2%nat ltac:(vm_compute; lia) eq_refl) as [Hlt|[_ Hle]];
        [vm_compute in Hlt; done | lia]. }
    exact (Hout j Hj (Hcells "shirt" ltac:(done))).
Qed.

(** C4, at the record of [csv_text] that has no season.  The record is in
    the deduplicated table and its season is not the current-season
    literal, yet it is not in the persisted table: on the nullable string
    column that [clean_strings] leaves, the comparison with the literal is
    missing where the season is, and the filter drops the row. *)
Lemma missing_season_row_not_persisted :
  run to_parquet_ok world = (Ok (), (run to_parquet_ok world).2) ∧
  prepare parse_float_none repr_float_ratio table = (Ok prepared, []) ∧
  dedupe_rows argsort_mergesort prepared = Ok deduped ∧
  files (run to_parquet_ok world).2 !! OUTPUT_CSV = Some (to_csv_plain historical) ∧
  (2 < nrows deduped)%nat ∧
  cell deduped "season" 2 ≠ VStr CURRENT_SEASON ∧
  ∀ j, (j < nrows historical)%nat →
       cell historical "player" j ≠ cell deduped "player" 2.
Proof.
  split_and!.
  - vm_compute; reflexivity.
  - vm_compute; reflexivity.
  - vm_compute; reflexivity.
  - vm_compute; reflexivity.
  - vm_compute. lia.
  - vm_compute. discriminate.
  - intros j Hj. assert (j = 0%nat) as -> by (vm_compute in Hj; lia).
    vm_compute. discriminate.
Qed.

(** C7, at a file without the [age_misc] column.  The file loads, and the
    run is then ended by the exception that canonicalization raises:
    nothing is written and nothing is printed, although the step comes
    after the load. *)
Lemma step_after_load_aborts :
  read_csv parse_float_none tokenize_plain world_without_age_misc INPUT_CSV
  = Ok table_without_age_misc ∧
  run to_parquet_ok world_without_age_misc
  = (Err AttributeError, world_without_age_misc).
Proof. split; vm_compute; reflexivity. Qed.


End samples.

(** * Further properties of the script *)

(** ** [drop_redundant_source_cols] *)

Lemma filter_ext_in {A} (P Q : A → Prop) `{!∀ x, Decision (P x)} `{!∀ x, Decision (Q x)}
    (l : list A) :
  (∀ x, x ∈ l → P x ↔ Q x) → filter P l = filter Q l.
Proof.
  induction l as [|x l IH]; intros Hext; [done|].
  rewrite !filter_cons.
  destruct (decide (P x)) as [HP|HP], (decide (Q x)) as [HQ|HQ].
  - f_equal. apply IH. intros y Hy. apply Hext. by right.
  - exfalso. apply HQ, Hext; [by left | done].
  - exfalso. apply HP, Hext; [by left | done].
  - apply IH. intros y Hy. apply Hext. by right.
Qed.

Lemma filter_idemp {A} (P : A → Prop) `{!∀ x, Decision (P x)} (l : list A) :
  filter P (filter P l) = filter P l.
Proof.
  induction l as [|x l IH]; [done|].
  rewrite filter_cons. destruct (decide (P x)); [|done].
  rewrite filter_cons_True by done. by rewrite IH.
Qed.

Lemma assoc_get_elem c s (l : list (string * Series)) :
  (c, s) ∈ l → is_Some (assoc_get c l).
Proof.
  induction l as [|[c' s'] l IH]; [by intros []%elem_of_nil|].
  intros [[= <- <-]|Hin]%elem_of_cons; simpl.
  - rewrite decide_True by done. by eexists.
  - destruct (decide (c' = c)); [by eexists | by apply IH].
Qed.

Lemma drop_redundant_source_cols_eq df :
  drop_redundant_source_cols df
  = mkDF (nrows df) (filter (λ p, p.1 ∉ to_drop) (columns df)).
Proof.
  unfold drop_redundant_source_cols, drop_cols. f_equal.
  apply filter_ext_in. intros [c s] Hin. simpl.
  rewrite list_elem_of_filter, has_col_true.
  pose proof (assoc_get_elem c s _ Hin) as Hsome. unfold df_get. tauto.
Qed.

Lemma df_get_drop_redundant_cases df c :
  df_get (drop_redundant_source_cols df) c
  = if decide (c ∈ to_drop) then None else df_get df c.
Proof.
  rewrite drop_redundant_source_cols_eq. unfold df_get. simpl.
  pose proof (assoc_get_filter (λ c, c ∉ to_drop) c (columns df)) as E.
  cbv beta in E. rewrite E.
  destruct (decide (c ∈ to_drop)); [by rewrite decide_False by auto | by rewrite decide_True].
Qed.

(** X1. The ten source columns are gone, whichever of them the table had;
    the other columns stay as they were and in their order; dropping again
    changes nothing. *)
Theorem drop_redundant_source_cols_removes_ten df :
  nrows (drop_redundant_source_cols df) = nrows df ∧
  columns (drop_redundant_source_cols df)
  = filter (λ p, p.1 ∉ to_drop) (columns df) ∧
  (∀ c, df_get (drop_redundant_source_cols df) c
        = if decide (c ∈ to_drop) then None else df_get df c) ∧
  drop_redundant_source_cols (drop_redundant_source_cols df)
  = drop_redundant_source_cols df.
Proof.
  split_and!.
  - done.
  - by rewrite drop_redundant_source_cols_eq.
  - apply df_get_drop_redundant_cases.
  - rewrite (drop_redundant_source_cols_eq df).
    rewrite drop_redundant_source_cols_eq. simpl. f_equal. apply filter_idemp.
Qed.

(** ** [coalesce] *)

Lemma first_notna_head_eq x y vs :
  x ≈ y → first_notna (x :: vs) ≈ first_notna (y :: vs).
Proof.
  intros H. simpl. rewrite (notna_value_eq _ _ H). by destruct (notna y).
Qed.

Lemma reduce_from_first_notna acc ss :
  ∃ r, reduce_from (Some acc) (Some <$> ss) = Ok (Some r) ∧
    ∀ i, default NA (values r !! i)
         ≈ first_notna ((λ x, default NA (values x !! i)) <$> (acc :: ss)).
Proof.
  revert acc. induction ss as [|b ss IH]; intros acc.
  - exists acc. split; [done|]. intros i. simpl. by destruct (default NA _).
  - destruct (IH (combine_first acc b)) as (r & Hr & Hcells).
    exists r. split; [exact Hr|]. intros i.
    eapply value_eq_trans; [apply Hcells|].
    rewrite !fmap_cons.
    eapply value_eq_trans.
    { apply first_notna_head_eq. rewrite combine_first_lookup. apply cast_value_eq. }
    simpl. destruct (notna (default NA (values acc !! i))) eqn:Ha.
    + by rewrite Ha.
    + done.
Qed.

(** X2. Over any number of series [coalesce] takes, row by row, the first
    cell that is not missing, reading its arguments left to right. *)
Theorem coalesce_first_non_null s ss :
  ∃ r, coalesce (Some <$> (s :: ss)) = Ok (Some r) ∧
    ∀ i, default NA (values r !! i)
         ≈ first_notna ((λ x, default NA (values x !! i)) <$> (s :: ss)).
Proof. apply reduce_from_first_notna. Qed.

Lemma reduce_from_None acc rest :
  acc = None ∧ rest ≠ [] ∨ None ∈ rest →
  reduce_from acc rest = Err AttributeError.
Proof.
  revert acc. induction rest as [|b rest IH]; intros acc.
  - intros [[_ []]|[]%elem_of_nil]. done.
  - intros H. simpl. destruct acc as [a|], b as [b|]; simpl; try done.
    apply IH. right. destruct H as [[? _]|[?|?]%elem_of_cons]; done.
Qed.

(** X3. Called on two or more arguments one of which is [None] (an absent
    column), [coalesce] raises AttributeError, wherever the [None] stands;
    called on a single argument it returns it untouched, and on none it
    raises TypeError. *)
Theorem coalesce_raises_on_None series :
  None ∈ series → (2 ≤ length series)%nat →
  coalesce series = Err AttributeError ∧
  (∀ o, coalesce [o] = Ok o) ∧ coalesce [] = Err TypeError.
Proof.
  intros Hin Hlen. split_and!; [|done..].
  destruct series as [|a [|b rest]]; simpl in Hlen; [lia..|].
  unfold coalesce. apply reduce_from_None.
  apply elem_of_cons in Hin as [<-|Hin]; [left | by right]. done.
Qed.

(** ** [build_canonical] on the whole frame *)

(** X4. [build_canonical] writes the five canonical columns and nothing
    else: every other column, the ten sources included, and the number of
    rows are as before; a canonical cell is missing exactly when both of
    its sources are. *)
Theorem build_canonical_touches_five_columns df df' :
  build_canonical df = Ok df' →
  nrows df' = nrows df ∧
  (∀ c, c ∉ canonical_fields → df_get df' c = df_get df c) ∧
  (∀ f i, f ∈ canonical_fields →
     notna (cell df' f i)
     = notna (cell df (f +:+ "_standard") i) || notna (cell df (f +:+ "_misc") i)).
Proof.
  intros H. split_and!.
  - by apply nrows_build_canonical.
  - intros c Hc. by apply build_canonical_other.
  - intros f i Hf.
    destruct (build_canonical_Ok df df' f H Hf) as (a & b & Ha & Hb & Hc).
    rewrite (cell_of_get _ _ _ _ Ha), (cell_of_get _ _ _ _ Hb), (cell_of_get _ _ _ _ Hc).
    rewrite combine_first_lookup, (notna_value_eq _ _ (cast_value_eq _ _)).
    destruct (notna (default NA (values a !! i))) eqn:E; simpl; by rewrite ?E.
Qed.

(** ** [clean_strings] *)

Lemma lstrip_head s c : head (lstrip s) = Some c → is_space c = false.
Proof.
  induction s as [|x s IH]; simpl; [done|].
  destruct (is_space x) eqn:Hx; [done|]. simpl. by intros [= <-].
Qed.

Lemma lstrip_suffix s : ∃ k, s = k ++ lstrip s.
Proof.
  induction s as [|x s [k IH]]; simpl; [by exists []|].
  destruct (is_space x); [|by exists []].
  exists (x :: k). simpl. by f_equal.
Qed.

Lemma lstrip_id s : (∀ c, head s = Some c → is_space c = false) → lstrip s = s.
Proof. destruct s as [|x s]; simpl; [done|]. intros H. by rewrite (H x). Qed.

(** [strip] leaves the empty text or a trimmed one. *)
Lemma strip_shape t : strip t = [] ∨ trimmed (strip t).
Proof.
  unfold strip. set (u := lstrip t). set (w := lstrip (reverse u)).
  destruct w as [|c0 w'] eqn:Hw; [by left|]. right. rewrite <- Hw.
  assert (w ≠ []) as Hne by (by rewrite Hw).
  split_and!.
  - intros Hr. apply Hne. by rewrite <- (reverse_involutive w), Hr.
  - intros c. rewrite head_reverse. intros Hl.
    destruct (lstrip_suffix (reverse u)) as [k Hk]. fold w in Hk.
    assert (last (reverse u) = Some c) as Hlu.
    { rewrite Hk, last_app. by rewrite Hl. }
    rewrite last_reverse in Hlu. by apply (lstrip_head t).
  - intros c. rewrite last_reverse. apply lstrip_head.
Qed.

Lemma strip_trimmed t : trimmed t → strip t = t.
Proof.
  intros (_ & Hh & Hl). unfold strip.
  rewrite (lstrip_id t Hh).
  rewrite (lstrip_id (reverse t)) by (intros c; rewrite head_reverse; apply Hl).
  apply reverse_involutive.
Qed.

Section cleaning.
Variable repr_float : Qc → pystr.

Abbreviation clean := (clean_column repr_float).

Lemma clean_column_lookup s i :
  default NA (values (clean s) !! i) =
  match astype_string_value repr_float (default NA (values s !! i)) with
  | VStr t => if decide (strip t = []) then NA else VStr (strip t)
  | v => v
  end.
Proof.
  unfold clean_column, replace_empty, str_strip, astype_string, map_values. simpl.
  rewrite !list_lookup_fmap. destruct (values s !! i) as [v|]; simpl; [|done].
  destruct (astype_string_value repr_float v) as [| | |t]; simpl; try done.
  destruct (decide (strip t = [])) as [->|Hne].
  - by rewrite decide_True.
  - rewrite decide_False; [done|]. by intros [= ?].
Qed.

Lemma clean_column_length s : length (values (clean s)) = length (values s).
Proof.
  unfold clean_column, replace_empty, str_strip, astype_string, map_values. simpl.
  by rewrite !length_fmap.
Qed.

Lemma clean_column_shape s i :
  default NA (values (clean s) !! i) = NA ∨
  ∃ t, default NA (values (clean s) !! i) = VStr t ∧ trimmed t.
Proof.
  rewrite clean_column_lookup.
  destruct (astype_string_value repr_float _) as [| | |t] eqn:Hv;
    try (by destruct (default NA (values s !! i))); [by left|].
  destruct (decide (strip t = [])); [by left|]. right.
  exists (strip t). split; [done|]. by destruct (strip_shape t).
Qed.

(** X5. In a cleaned column every cell is missing or a text that is not
    empty and has no white space at either end; a text cell holds its
    stripped text, and becomes missing when nothing but white space was in
    it. *)
Theorem clean_column_cells s i :
  (default NA (values (clean s) !! i) = NA ∨
   ∃ t, default NA (values (clean s) !! i) = VStr t ∧ trimmed t) ∧
  (∀ t, values s !! i = Some (VStr t) →
     default NA (values (clean s) !! i)
     = if decide (strip t = []) then NA else VStr (strip t)) ∧
  dtype_of (clean s) = string_dtype ∧
  length (values (clean s)) = length (values s).
Proof.
  split_and!.
  - apply clean_column_shape.
  - intros t Ht. by rewrite clean_column_lookup, Ht.
  - done.
  - apply clean_column_length.
Qed.

Lemma clean_value_fixed v :
  (v = NA ∨ ∃ t, v = VStr t ∧ trimmed t) →
  match astype_string_value repr_float v with
  | VStr t => if decide (strip t = []) then NA else VStr (strip t)
  | v' => v'
  end = v.
Proof.
  intros [->|(t & -> & Ht)]; simpl; [done|].
  rewrite (strip_trimmed t Ht). rewrite decide_False; [done|]. by destruct Ht.
Qed.

Lemma clean_column_fixed s : clean (clean s) = clean s.
Proof.
  assert (∀ s1 s2, dtype_of s1 = dtype_of s2 →
            (∀ i, values s1 !! i = values s2 !! i) → s1 = s2) as Hext.
  { intros [d1 v1] [d2 v2]. simpl. intros -> H. f_equal. by apply list_eq. }
  apply Hext; [done|]. intros i.
  pose proof (clean_column_length s) as Hlen.
  pose proof (clean_column_length (clean s)) as Hlen2. rewrite Hlen in Hlen2.
  destruct (decide (i < length (values s))%nat) as [Hlt|Hge].
  - destruct (lookup_lt_is_Some_2 (values (clean s)) i) as [v Hv]; [lia|].
    destruct (lookup_lt_is_Some_2 (values (clean (clean s))) i) as [v' Hv']; [lia|].
    pose proof (clean_column_lookup (clean s) i) as H. rewrite Hv, Hv' in H. simpl in H.
    rewrite clean_value_fixed in H.
    + by rewrite Hv, Hv', H.
    + pose proof (clean_column_shape s i) as Hshape. by rewrite Hv in Hshape.
  - by rewrite !lookup_ge_None_2 by lia.
Qed.

(** X6. Cleaning a cleaned column changes nothing. *)
Theorem clean_column_idempotent s :
  clean_column repr_float (clean_column repr_float s) = clean_column repr_float s.
Proof. apply clean_column_fixed. Qed.

Lemma clean_strings_loop_column df cols c s :
  (∀ c', c' ∈ cols → is_Some (df_get df c')) → df_get df c = Some s →
  ∃ df', clean_strings_loop repr_float df cols = Ok df' ∧
    df_get df' c = Some (if decide (c ∈ cols) then clean s else s).
Proof.
  revert df s. induction cols as [|c0 cols IH]; intros df s Hall Hs;
    cbn [clean_strings_loop].
  - exists df. split; [done|]. by rewrite decide_False by apply not_elem_of_nil.
  - destruct (Hall c0) as [s0 Hs0]; [by left|]. rewrite Hs0.
    assert (Hall' : ∀ c', c' ∈ cols →
              is_Some (df_get (set_col df c0 (clean s0)) c')).
    { intros c' Hc'. rewrite df_get_set_col. destruct (decide (c0 = c')); [by eexists|].
      apply Hall. by right. }
    destruct (decide (c0 = c)) as [->|Hne].
    + assert (s0 = s) as -> by congruence.
      destruct (IH (set_col df c (clean s)) (clean s) Hall') as (df' & -> & Hget).
      { apply df_get_set_col_eq. }
      exists df'. split; [done|]. rewrite Hget.
      rewrite (decide_True (P := c ∈ c :: cols)) by (by left).
      destruct (decide (c ∈ cols)); [by rewrite clean_column_fixed | done].
    + destruct (IH (set_col df c0 (clean s0)) s Hall') as (df' & -> & Hget).
      { by rewrite df_get_set_col_ne. }
      exists df'. split; [done|]. rewrite Hget.
      destruct (decide (c ∈ cols)) as [Hin|Hnin].
      * rewrite decide_True; [done | by right].
      * rewrite decide_False; [done|]. by intros [->|?]%elem_of_cons.
Qed.

(** X7. [clean_strings] never raises; it skips the labels the table lacks,
    replaces each listed column the table has by its cleaned version (also
    when a label is listed twice), and leaves the other columns, the set of
    columns and the number of rows as they were. *)
Theorem clean_strings_cleans_listed df cols c s :
  df_get df c = Some s →
  ∃ df', clean_strings repr_float df cols = Ok df' ∧
    df_get df' c = Some (if decide (c ∈ cols) then clean s else s) ∧
    nrows df' = nrows df ∧
    (∀ c', has_col df' c' = has_col df c') ∧
    (∀ c', c' ∉ cols → df_get df' c' = df_get df c').
Proof.
  intros Hs.
  destruct (clean_strings_spec repr_float df cols) as (df' & H & Hn & Hh & Ho).
  destruct (clean_strings_loop_column df (filter (λ c, has_col df c = true) cols) c s)
    as (df'' & H' & Hget); [by intros c' [_ ?]%present_filter | done |].
  unfold clean_strings in H. assert (df'' = df') as -> by congruence.
  exists df'. split_and!; [done| |done..].
  rewrite Hget. apply f_equal.
  destruct (decide (c ∈ cols)) as [Hin|Hnin].
  - rewrite decide_True; [done|]. apply present_filter. split; [done | by eexists].
  - rewrite decide_False; [done|]. by intros [? _]%present_filter.
Qed.

End cleaning.

(** ** [coerce_floats] and the fallback of [coerce_nullable_ints] *)

Lemma to_float_value_shape v v' :
  to_float_value v = Ok v' → v' = NA ∨ ∃ q, v' = VFloat q.
Proof. destruct v; simpl; intros [= <-]; eauto. Qed.

Lemma astype_float_shape s s' i :
  astype_float s = Ok s' →
  dtype_of s' = float64 ∧
  (default NA (values s' !! i) = NA ∨ ∃ q, default NA (values s' !! i) = VFloat q).
Proof.
  unfold astype_float. destruct (traverse _ _) as [vs|] eqn:Ht; simpl; [|done].
  intros [= <-]. simpl. split; [done|]. apply traverse_Ok in Ht.
  destruct (vs !! i) as [v'|] eqn:Hv; simpl; [|by left].
  destruct (Forall2_lookup_r _ _ _ _ _ Ht Hv) as (v & _ & Hf).
  by eapply to_float_value_shape.
Qed.




Section numeric_columns.
Variable parse_float : pystr → option Qc.
Variable repr_float : Qc → pystr.

Abbreviation numeric_of := (to_numeric parse_float).
Abbreviation numeric_cell := (to_numeric_value parse_float).

Lemma coerce_floats_loop_column df cols c s :
  NoDup cols → (∀ c', c' ∈ cols → is_Some (df_get df c')) →
  c ∈ cols → df_get df c = Some s →
  ∃ df' s', coerce_floats_loop parse_float df cols = Ok df' ∧
    df_get df' c = Some s' ∧ astype_float (numeric_of s) = Ok s'.
Proof.
  intros Hnd. revert df. induction cols as [|c0 cols IH]; intros df Hall Hc Hs;
    [by apply elem_of_nil in Hc|].
  apply NoDup_cons in Hnd as [Hc0 Hnd]. cbn [coerce_floats_loop].
  destruct (Hall c0) as [s0 Hs0]; [by left|]. rewrite Hs0.
  destruct (astype_float_to_numeric_total parse_float s0) as [s1 Hs1].
  rewrite Hs1. cbn [mbind result_bind].
  assert (Hall' : ∀ c', c' ∈ cols → is_Some (df_get (set_col df c0 s1) c')).
  { intros c' Hc'. rewrite df_get_set_col. destruct (decide (c0 = c')); [by eexists|].
    apply Hall. by right. }
  destruct (decide (c0 = c)) as [->|Hne].
  - assert (s0 = s) as -> by congruence.
    destruct (coerce_floats_loop_spec parse_float (set_col df c s1) cols Hall')
      as (df' & -> & _ & _ & Ho).
    exists df', s1. split_and!; [done| |done].
    rewrite Ho by done. apply df_get_set_col_eq.
  - apply elem_of_cons in Hc as [->|Hc]; [done|].
    apply (IH Hnd _ Hall' Hc). by rewrite df_get_set_col_ne.
Qed.

(** X8. [coerce_floats] never raises.  Each listed column the table has
    becomes a float64 column whose cells are floats or missing: a number
    keeps its value, a text is read as it stands, with no separator or
    dash removed, and an empty or unreadable text becomes missing.  The
    other columns and the number of rows stay as they were. *)
Theorem coerce_floats_makes_floats df cols c s :
  NoDup cols → c ∈ cols → df_get df c = Some s →
  ∃ df' s', coerce_floats parse_float df cols = Ok df' ∧
    df_get df' c = Some s' ∧ dtype_of s' = float64 ∧
    (∀ i, default NA (values s' !! i) ≈ numeric_cell (default NA (values s !! i)) ∧
          (default NA (values s' !! i) = NA ∨
           ∃ q, default NA (values s' !! i) = VFloat q)) ∧
    nrows df' = nrows df ∧
    (∀ c', c' ∉ cols → df_get df' c' = df_get df c').
Proof.
  intros Hnd Hc Hs.
  destruct (coerce_floats_spec parse_float df cols) as (df' & H & Hn & _ & Ho).
  destruct (coerce_floats_loop_column df (filter (λ c, has_col df c = true) cols) c s)
    as (df'' & s' & H' & Hget & Hs'); [by apply NoDup_filter
      | by intros c' [_ ?]%present_filter
      | apply present_filter; split; [done | by eexists] | done |].
  unfold coerce_floats in H. assert (df'' = df') as -> by congruence.
  exists df', s'. split_and!; [done|done| |..|done|done].
  - by destruct (astype_float_shape _ _ 0 Hs').
  - intros i. split.
    + eapply value_eq_trans; [by apply astype_float_lookup | apply to_numeric_lookup].
    + by destruct (astype_float_shape _ _ i Hs').
Qed.






End numeric_columns.

(** ** [dedupe_rows] on the whole frame *)

(** X11. [dedupe_rows] returns exactly when the table has no rows or
    holds the four key columns: a table without rows is returned before
    the key columns are looked up.  Otherwise it raises KeyError on the
    first key column, in the order player, team, league, season, that is
    absent. *)
Theorem dedupe_rows_key_error argsort_desc df :
  argsort_valid argsort_desc →
  (is_Ok (dedupe_rows argsort_desc df) ↔
     nrows df = 0%nat ∨ ∀ c, c ∈ KEY → is_Some (df_get df c)) ∧
  (∀ e, dedupe_rows argsort_desc df = Err e →
     (0 < nrows df)%nat ∧
     ∃ c, e = KeyError c ∧ c ∈ KEY ∧ df_get df c = None ∧
          head (filter (λ c, has_col df c = false) KEY) = Some c).
Proof.
  intros Hvalid. pose proof (sort_order_nil argsort_desc df Hvalid) as Hnil.
  split.
  - split.
    + intros [out Hout]. destruct (decide (nrows df = 0%nat)) as [Hn|Hn]; [by left|].
      right. intros c Hc. eapply dedupe_rows_Ok_keys; [done| |done].
      by rewrite Hnil.
    + intros [Hn|Hall]; [|by apply dedupe_rows_total].
      apply dedupe_rows_empty. by apply Hnil.
  - intros e. rewrite dedupe_rows_unfold.
    destruct (decide (sort_order argsort_desc df = [])) as [He|He]; [done|].
    destruct (filter _ KEY) as [|c l] eqn:Hf; [done|]. intros [= <-].
    assert (c ∈ filter (λ c, has_col df c = false) KEY) as Hc by (rewrite Hf; by left).
    apply list_elem_of_filter in Hc as [Hn Hc]. apply has_col_false in Hn.
    split.
    + rewrite Hnil in He. lia.
    + exists c. by split_and!.
Qed.

Lemma kept_rows_NoDup argsort_desc df : NoDup (kept_rows argsort_desc df).
Proof. eapply NoDup_fmap_1, kept_rows_keys_NoDup. Qed.

(** X12. [dedupe_rows] invents no row and loses no key: the output has at
    most as many rows as the input, at least one when the input has one,
    each output row is an input row cell for cell, and the helper column
    [_nnz] is not in the output (an input column of that name is lost),
    while every other column is kept. *)
Theorem dedupe_rows_selects_rows argsort_desc df out :
  argsort_valid argsort_desc → dedupe_rows argsort_desc df = Ok out →
  (nrows out ≤ nrows df)%nat ∧
  ((0 < nrows df)%nat → (0 < nrows out)%nat) ∧
  (∀ j, (j < nrows out)%nat →
     ∃ i, (i < nrows df)%nat ∧ ∀ c, c ≠ "_nnz" → cell out c j = cell df c i) ∧
  (∀ c, has_col out c = if decide (c = "_nnz") then false else has_col df c).
Proof.
  intros Hv H. split_and!.
  - rewrite (dedupe_rows_nrows _ _ _ H).
    assert (kept_rows argsort_desc df ⊆+ seq 0 (nrows df)) as Hsub.
    { apply NoDup_submseteq; [apply kept_rows_NoDup|].
      intros k Hk. apply elem_of_seq. pose proof (kept_rows_lt _ Hv df k Hk). lia. }
    apply submseteq_length in Hsub. by rewrite length_seq in Hsub.
  - intros Hpos.
    destruct (most_complete_kept _ Hv df out 0 H Hpos) as (_ & j & _ & Hj & _). lia.
  - intros j Hj. rewrite (dedupe_rows_nrows _ _ _ H) in Hj.
    destruct (lookup_lt_is_Some_2 _ _ Hj) as [i Hi]. exists i. split.
    + eapply (kept_rows_lt _ Hv). by eapply list_elem_of_lookup_2.
    + intros c Hc. by eapply dedupe_rows_cell.
  - intros c. unfold has_col. apply dedupe_rows_Ok in H. subst out.
    rewrite df_get_drop_cols.
    destruct (decide (c = "_nnz")) as [->|Hne].
    + rewrite decide_True by (by left). apply bool_decide_eq_false. by intros [? ?].
    + rewrite decide_False by (by intros ?%list_elem_of_singleton).
      rewrite df_get_take_rows, df_get_set_col_ne by done.
      apply bool_decide_ext. by rewrite fmap_is_Some.
Qed.

(** X13. When no two rows of the input share a key, [dedupe_rows] keeps
    them all: the output has as many rows as the input and holds each
    input row. *)
Theorem dedupe_rows_keeps_distinct argsort_desc df out :
  argsort_valid argsort_desc → dedupe_rows argsort_desc df = Ok out →
  (∀ i j, (i < nrows df)%nat → (j < nrows df)%nat →
          row_key df KEY i = row_key df KEY j → i = j) →
  nrows out = nrows df ∧
  ∀ i, (i < nrows df)%nat →
    ∃ j, (j < nrows out)%nat ∧ ∀ c, c ≠ "_nnz" → cell out c j = cell df c i.
Proof.
  intros Hv H Hinj.
  assert (Hall : ∀ i, (i < nrows df)%nat →
            ∃ j, (j < nrows out)%nat ∧ kept_rows argsort_desc df !! j = Some i ∧
                 ∀ c, c ≠ "_nnz" → cell out c j = cell df c i).
  { intros i Hi.
    destruct (most_complete_kept _ Hv df out i H Hi)
      as (k & j & Hk & Hj & Hkept & Hkey & Hcells & _).
    assert (k = i) as -> by (by apply Hinj). eauto. }
  split.
  - rewrite (dedupe_rows_nrows _ _ _ H).
    assert (kept_rows argsort_desc df ≡ₚ seq 0 (nrows df)) as Hperm.
    { apply NoDup_Permutation; [apply kept_rows_NoDup | apply NoDup_seq |].
      intros k. rewrite elem_of_seq. split.
      - intros Hk. pose proof (kept_rows_lt _ Hv df k Hk). lia.
      - intros [_ Hk]. destruct (Hall k) as (j & _ & Hj & _); [lia|].
        by eapply list_elem_of_lookup_2. }
    apply Permutation_length in Hperm. by rewrite length_seq in Hperm.
  - intros i Hi. destruct (Hall i Hi) as (j & ? & _ & ?). eauto.
Qed.

(** ** The season filter *)

Lemma mask_positions_sorted b m :
  StronglySorted lt (mask_positions b m) ∧ Forall (λ i, b ≤ i)%nat (mask_positions b m).
Proof.
  revert b. induction m as [|x m IH]; intros b; simpl.
  - split; constructor.
  - destruct (IH (S b)) as [Hs Hf].
    assert (Forall (λ i, b ≤ i)%nat (mask_positions (S b) m)) as Hf'
      by (eapply Forall_impl; [exact Hf | simpl; lia]).
    destruct x as [[]|]; [|done..].
    split; constructor; [done| |lia|done].
    eapply Forall_impl; [exact Hf | simpl; lia].
Qed.

Lemma mask_positions_all b m :
  Forall (λ x, x = Some true) m → mask_positions b m = seq b (length m).
Proof.
  revert b. induction m as [|x m IH]; intros b; [done|].
  intros [-> Hm]%Forall_cons. simpl. f_equal. by apply IH.
Qed.

Lemma take_rows_all idxs df :
  take_rows (seq 0 (length idxs)) (take_rows idxs df) = take_rows idxs df.
Proof.
  rewrite take_rows_take_rows.
  - by rewrite <- list_as_lookups.
  - apply Forall_forall. intros p Hp%elem_of_seq. lia.
Qed.

(** X14. The season filter keeps the selected rows in their input order,
    cell for cell, keeps every column, and applying it to its own result
    changes nothing. *)
Theorem historical_of_idempotent df h :
  historical_of df = Ok h →
  historical_of h = Ok h ∧
  nrows h = length (historical_rows df) ∧
  StronglySorted lt (historical_rows df) ∧
  (∀ j i c, historical_rows df !! j = Some i → cell h c j = cell df c i) ∧
  (∀ c, has_col h c = has_col df c).
Proof.
  intros Hh. destruct (historical_of_Ok df h Hh) as (s & Hs & ->).
  split_and!.
  - unfold historical_of. rewrite df_get_take_rows, Hs. simpl.
    unfold getitem_mask. f_equal.
    rewrite mask_positions_all.
    + unfold series_ne, take_series. simpl. rewrite !length_fmap.
      apply take_rows_all.
    + apply Forall_forall. intros x [j Hj]%list_elem_of_lookup_1.
      unfold series_ne, take_series in Hj. simpl in Hj.
      rewrite !list_lookup_fmap in Hj.
      destruct (historical_rows df !! j) as [i|] eqn:Hi; simpl in Hj; [|done].
      injection Hj as <-.
      assert (i ∈ historical_rows df) as Hin by (by eapply list_elem_of_lookup_2).
      unfold historical_rows in Hin. rewrite Hs in Hin.
      apply elem_of_mask_positions in Hin as (p & -> & Hp). simpl in Hp.
      unfold series_ne in Hp. rewrite list_lookup_fmap in Hp.
      change (0 + p)%nat with p.
      destruct (values s !! p) as [v|]; simpl in Hp |- *; [|done].
      by injection Hp.
  - done.
  - unfold historical_rows. rewrite Hs. apply mask_positions_sorted.
  - intros j i c Hj. by rewrite cell_take_rows, Hj.
  - intros c. apply has_col_take_rows.
Qed.

(** ** The persisted frame *)

Section persisted_frame.
Variable parse_float : pystr → option Qc.
Variable repr_float : Qc → pystr.
Variable argsort_desc : list Z → list nat.

Abbreviation prepare' := (prepare parse_float repr_float).
Abbreviation finalize' := (finalize parse_float repr_float argsort_desc).

Lemma finalize_Err_inv df e msgs :
  finalize' df = (Err e, msgs) →
  e = AttributeError ∨ ∃ c, c ∈ KEY ∧ e = KeyError c.
Proof.
  unfold finalize, prog_lift.
  intros [Hp|(p & l1 & l2 & Hp & H2 & ->)]%prog_then_Err_inv.
  - left. destruct (build_canonical df) as [b|e'] eqn:Hb.
    + destruct (prepare_Ok parse_float repr_float df b Hb) as (p & m & Hp' & _).
      congruence.
    + rewrite (prepare_Err parse_float repr_float df e' Hb) in Hp.
      injection Hp as -> _. by destruct (build_canonical_Err df e Hb).
  - right. apply prog_then_Err_inv in H2 as [[= Hd _]|(d & l3 & l4 & [= Hd _] & [= Hh _] & _)].
    + destruct (dedupe_rows_Err _ _ _ Hd) as (c & ? & _ & ?). eauto.
    + unfold historical_of in Hh. destruct (df_get d "season"); [done|].
      injection Hh as <-. exists "season". split; [|done].
      unfold KEY. set_solver.
Qed.

Lemma prepare_has_col df b p msgs c :
  build_canonical df = Ok b → prepare' df = (Ok p, msgs) →
  has_col p c = has_col (drop_redundant_source_cols b) c.
Proof.
  intros Hb. unfold prepare, prog_lift. rewrite Hb. simpl.
  destruct (clean_strings_spec repr_float (drop_redundant_source_cols b) canon_str)
    as (d1 & -> & _ & Hh1 & _). simpl.
  destruct (coerce_nullable_ints_spec parse_float repr_float d1 int_cols int_cols_NoDup)
    as (d2 & m & -> & _ & Hh2 & _). simpl.
  destruct (coerce_floats_spec parse_float d2 float_cols) as (d3 & -> & _ & Hh3 & _).
  intros [= <- _]. by rewrite Hh3, Hh2, Hh1.
Qed.

(** X17. The persisted table has exactly these columns: the five canonical
    ones and the columns of the input, less the ten source columns and
    less a column named [_nnz]. *)
Theorem finalize_columns df h msgs c :
  finalize' df = (Ok h, msgs) →
  has_col h c = true ↔
  (c ∉ to_drop) ∧ c ≠ "_nnz" ∧ (c ∈ canonical_fields ∨ has_col df c = true).
Proof.
  intros (p & d & Hp & Hd & Hh)%finalize_Ok_inv.
  destruct (build_canonical df) as [b|e] eqn:Hb;
    [|by rewrite (prepare_Err _ _ _ _ Hb) in Hp].
  destruct (historical_of_Ok d h Hh) as (s & _ & ->).
  rewrite has_col_take_rows.
  apply dedupe_rows_Ok in Hd. subst d.
  assert (has_col (drop_cols (take_rows (kept_rows argsort_desc p)
                     (set_col p "_nnz" (notna_sum p))) ["_nnz"]) c
          = if decide (c = "_nnz") then false else has_col p c) as ->.
  { unfold has_col. rewrite df_get_drop_cols.
    destruct (decide (c = "_nnz")) as [->|Hne].
    - rewrite decide_True by (by left). apply bool_decide_eq_false. by intros [? ?].
    - rewrite decide_False by (by intros ?%list_elem_of_singleton).
      rewrite df_get_take_rows, df_get_set_col_ne by done.
      apply bool_decide_ext. by rewrite fmap_is_Some. }
  rewrite (prepare_has_col df b p msgs c Hb Hp).
  assert (has_col (drop_redundant_source_cols b) c
          = if decide (c ∈ to_drop) then false else has_col b c) as ->.
  { unfold has_col.
    rewrite df_get_drop_redundant_cases.
    destruct (decide (c ∈ to_drop)); [|done].
    apply bool_decide_eq_false. by intros [? ?]. }
  assert (has_col b c = true ↔ c ∈ canonical_fields ∨ has_col df c = true) as Hbc.
  { destruct (decide (c ∈ canonical_fields)) as [Hcan|Hcan].
    - destruct (build_canonical_Ok df b c Hb Hcan) as (sa & sb & _ & _ & Hget).
      rewrite has_col_true, Hget. split; [by left | by eexists].
    - unfold has_col. rewrite (build_canonical_other df b c Hb Hcan).
      fold (has_col df c). tauto. }
  destruct (decide (c = "_nnz")), (decide (c ∈ to_drop)); try tauto; split;
    try done; tauto.
Qed.

Lemma prepare_other_columns df b :
  build_canonical df = Ok b →
  ∃ p msgs, prepare' df = (Ok p, msgs) ∧ nrows p = nrows b ∧
    ∀ c, c ∉ to_drop → c ∉ canon_str → c ∉ int_cols → c ∉ float_cols →
         df_get p c = df_get b c.
Proof.
  intros Hb. unfold prepare, prog_lift. rewrite Hb. simpl.
  destruct (clean_strings_spec repr_float (drop_redundant_source_cols b) canon_str)
    as (d1 & -> & Hn1 & _ & Ho1). simpl.
  destruct (coerce_nullable_ints_spec parse_float repr_float d1 int_cols int_cols_NoDup)
    as (d2 & m & -> & Hn2 & _ & Ho2 & _). simpl.
  destruct (coerce_floats_spec parse_float d2 float_cols) as (d3 & -> & Hn3 & _ & Ho3).
  eexists _, _. split; [reflexivity|]. split; [by rewrite Hn3, Hn2, Hn1|].
  intros c ? ? ? ?. rewrite Ho3, Ho2, Ho1 by done. by apply df_get_drop_redundant.
Qed.

(** X18. The preparation steps raise only when one of the ten source
    columns is absent, and then it is AttributeError; otherwise they
    return a frame with as many rows as the input, in which every column
    that no step names is as it was read. *)
Theorem prepare_raises_only_for_missing_source df :
  (is_Ok (prepare' df).1 ↔ ∀ c, c ∈ to_drop → is_Some (df_get df c)) ∧
  (∀ e, (prepare' df).1 = Err e → e = AttributeError ∧ (prepare' df).2 = []) ∧
  (∀ p, (prepare' df).1 = Ok p →
     nrows p = nrows df ∧
     ∀ c, c ∉ canonical_fields → c ∉ to_drop → c ∉ canon_str → c ∉ int_cols →
          c ∉ float_cols → df_get p c = df_get df c).
Proof.
  destruct (build_canonical df) as [b|e0] eqn:Hb.
  - destruct (prepare_other_columns df b Hb) as (p & msgs & Hp & Hn & Hother).
    rewrite Hp. cbn [fst snd]. split_and!.
    + split; [|by exists p]. intros _ c Hc.
      destruct (decide (is_Some (df_get df c))) as [|Hno]; [done|].
      apply eq_None_not_Some in Hno.
      by rewrite (build_canonical_missing df c Hc Hno) in Hb.
    + discriminate.
    + intros ? [= <-]. split; [by rewrite Hn, (nrows_build_canonical df b Hb)|].
      intros c Hcan ? ? ? ?. rewrite Hother by done.
      by apply build_canonical_other.
  - rewrite (prepare_Err parse_float repr_float df e0 Hb). cbn [fst snd].
    destruct (build_canonical_Err df e0 Hb) as (-> & c & Hc & Hnone).
    split_and!.
    + split; [by intros [? ?]|]. intros Hall.
      destruct (Hall c Hc) as [s Hs]. congruence.
    + by intros ? [= <-].
    + discriminate.
Qed.

(** The season column reaches the filter cleaned: [season] is one of the
    canonical identifiers, and no later step touches it. *)
Lemma prepare_season df p msgs s0 :
  prepare' df = (Ok p, msgs) → df_get df "season" = Some s0 →
  df_get p "season" = Some (clean_column repr_float s0).
Proof.
  intros Hp Hs.
  destruct (build_canonical df) as [b|e] eqn:Hb;
    [|by rewrite (prepare_Err parse_float repr_float df e Hb) in Hp].
  revert Hp. unfold prepare, prog_lift. rewrite Hb. simpl.
  set (b' := drop_redundant_source_cols b).
  assert (Hs' : df_get b' "season" = Some s0).
  { subst b'. destruct (KEY_apart "season") as (Hd & Hc & _); [unfold KEY; set_solver|].
    by rewrite (df_get_drop_redundant b "season" Hd),
               (build_canonical_other df b "season" Hb Hc). }
  destruct (clean_strings_loop_column repr_float b'
              (filter (λ c, has_col b' c = true) canon_str) "season" s0)
    as (d1 & Hd1 & Hget1); [by intros c' [_ ?]%present_filter | done |].
  rewrite decide_True in Hget1
    by (apply present_filter; split; [unfold canon_str; set_solver | by eexists]).
  unfold clean_strings. rewrite Hd1. simpl.
  destruct (coerce_nullable_ints_spec parse_float repr_float d1 int_cols int_cols_NoDup)
    as (d2 & m2 & -> & _ & _ & Ho2 & _). simpl.
  destruct (coerce_floats_spec parse_float d2 float_cols) as (d3 & -> & _ & _ & Ho3).
  simpl. intros [= <- _].
  rewrite Ho3, Ho2; [done|..]; by apply (bool_decide_unpack _).
Qed.

(** On a cleaned season column the filter keeps the rows whose season is
    a text other than the literal, and only those. *)
Lemma historical_rows_cleaned d idxs s0 i :
  df_get d "season" = Some (take_series idxs (clean_column repr_float s0)) →
  i ∈ historical_rows d ↔ ∃ t, cell d "season" i = VStr t ∧ t ≠ CURRENT_SEASON.
Proof.
  intros Hs. unfold historical_rows. rewrite Hs, (cell_of_get _ _ _ _ Hs).
  set (s := take_series idxs (clean_column repr_float s0)).
  rewrite elem_of_mask_positions. split.
  - intros (p' & Hi & Hm). change (0 + p')%nat with p' in Hi. subst i.
    destruct (series_ne_true _ _ _ Hm) as (v & Hv & Hne). rewrite Hv.
    cbn [default].
    assert (v = NA ∨ ∃ t, v = VStr t) as [->|[t ->]].
    { subst s. unfold take_series in Hv. cbn [values] in Hv.
      rewrite list_lookup_fmap in Hv.
      destruct (idxs !! p') as [k|]; cbn [fmap option_fmap option_map] in Hv; [|done].
      injection Hv as Hv. rewrite <- Hv.
      destruct (clean_column_shape repr_float s0 k) as [H|(t & H & _)]; eauto. }
    + by rewrite (series_ne_missing s _ p' eq_refl Hv) in Hm.
    + exists t. split; [done|]. congruence.
  - intros (t & Hc & Hne). exists i. split; [done|].
    destruct (values s !! i) as [v|] eqn:Hv; simpl in Hc; [subst v|done].
    by apply (series_ne_str s t).
Qed.

(** X22. Steps 2 to 6 complete exactly when the ten source columns and
    the season column are in the table and, unless the table has no rows,
    the other three key columns too. *)
Theorem finalize_Ok_iff df :
  argsort_valid argsort_desc →
  is_Ok (finalize' df).1 ↔
  (∀ c, c ∈ to_drop → is_Some (df_get df c)) ∧
  is_Some (df_get df "season") ∧
  (nrows df = 0%nat ∨ ∀ c, c ∈ KEY → is_Some (df_get df c)).
Proof.
  intros Hvalid. split.
  - intros [h Hh]. destruct (finalize' df) as [r msgs] eqn:Hf. simpl in Hh. subst r.
    apply finalize_Ok_inv in Hf as (p & d & Hp & Hd & Hhis).
    destruct (build_canonical df) as [b|e] eqn:Hb;
      [|by rewrite (prepare_Err parse_float repr_float df e Hb) in Hp].
    destruct (prepare_Ok parse_float repr_float df b Hb) as (p' & msgs' & Hp' & Hn & Hh & _).
    assert (p' = p) as Hpp by congruence. subst p'.
    split_and!.
    + intros c Hc. destruct (df_get df c) eqn:Hg; [by eexists|].
      by rewrite (build_canonical_missing df c Hc Hg) in Hb.
    + apply (key_col_prepared df b p "season" Hb Hh); [unfold KEY; set_solver|].
      unfold historical_of in Hhis.
      rewrite (dedupe_rows_get argsort_desc p d "season" Hd) in Hhis by done.
      by destruct (df_get p "season"); [eexists|].
    + destruct (decide (nrows df = 0%nat)) as [|Hne]; [by left|]. right.
      intros c Hc. apply (key_col_prepared df b p c Hb Hh Hc).
      eapply dedupe_rows_Ok_keys; [done| |done].
      rewrite (sort_order_nil argsort_desc p Hvalid), Hn,
              (nrows_build_canonical df b Hb). done.
  - intros (Hall & Hseason & Hkeys).
    destruct (build_canonical_total df Hall) as [b Hb].
    destruct (prepare_Ok parse_float repr_float df b Hb) as (p & msgs & Hp & Hn & Hh & _).
    assert (is_Ok (dedupe_rows argsort_desc p)) as [d Hd].
    { destruct Hkeys as [H0|Hkeys].
      - apply dedupe_rows_empty. apply (sort_order_nil argsort_desc p Hvalid).
        by rewrite Hn, (nrows_build_canonical df b Hb).
      - apply dedupe_rows_total. intros c Hc.
        apply (key_col_prepared df b p c Hb Hh Hc). by apply Hkeys. }
    destruct (historical_of_total d) as [h Hh'].
    { rewrite (dedupe_rows_get argsort_desc p d "season" Hd) by done.
      apply fmap_is_Some.
      apply (key_col_prepared df b p "season" Hb Hh); [unfold KEY; set_solver|done]. }
    rewrite (finalize_Ok_intro parse_float repr_float argsort_desc df p d h msgs Hp Hd Hh').
    by eexists.
Qed.

End persisted_frame.

(** ** [main] *)

Section whole_run.
Variable parse_float : pystr → option Qc.
Variable repr_float : Qc → pystr.
Variable argsort_desc : list Z → list nat.
Variable tokenize : string → option RawTable.
Variable to_csv : DataFrame → string.
Variable to_parquet : DataFrame → string + string.

Abbreviation finalize' := (finalize parse_float repr_float argsort_desc).
Abbreviation read_csv' := (read_csv parse_float tokenize).
Abbreviation main' :=
  (main parse_float repr_float argsort_desc tokenize to_csv to_parquet).

(** X15. A run that fails writes nothing: the files and directories are
    as it found them and the console only grew.  The exception is
    FileNotFoundError (no input file), ParserError, AttributeError (a
    source column is absent) or KeyError on one of the four key columns. *)
Theorem main_failure_writes_nothing w e w' :
  main' w = (Err e, w') →
  files w' = files w ∧ dirs w' = dirs w ∧ stdout w `prefix_of` stdout w' ∧
  (e = FileNotFoundError ∧ files w !! INPUT_CSV = None ∨ e = ParserError ∨
   e = AttributeError ∨ ∃ c, c ∈ KEY ∧ e = KeyError c).
Proof.
  unfold main, read_csv.
  destruct (files w !! INPUT_CSV) as [content|] eqn:Hin.
  - destruct (tokenize content) as [raw|].
    + destruct (finalize' (read_csv_table parse_float raw)) as [[h|e'] msgs] eqn:Hf;
        [done|].
      intros [= -> <-]. split_and!; [done|done|by apply prefix_app_r|].
      destruct (finalize_Err_inv _ _ _ _ _ _ Hf) as [->|?]; auto.
    + intros [= <- <-]. split_and!; auto.
  - intros [= <- <-]. split_and!; auto.
Qed.

(** X16. A run that completes has created the output directory, left the
    CSV of the historical table at the CSV path, written the columnar file
    when and only when the columnar writer worked, touched no other file,
    and ended its console output with the final message. *)
Theorem main_success_effects w w' :
  main' w = (Ok (), w') →
  ∃ df h msgs,
    read_csv' w INPUT_CSV = Ok df ∧ finalize' df = (Ok h, msgs) ∧
    files w' !! OUTPUT_CSV = Some (to_csv h) ∧
    files w' !! OUTPUT_PARQUET
    = match to_parquet h with
      | inl content => Some content
      | inr _ => files w !! OUTPUT_PARQUET
      end ∧
    (∀ path, path ≠ OUTPUT_CSV → path ≠ OUTPUT_PARQUET →
             files w' !! path = files w !! path) ∧
    OUTPUT_DIR ∈ dirs w' ∧ dirs w ⊆ dirs w' ∧
    stdout w `prefix_of` stdout w' ∧ last (stdout w') = Some MsgDone.
Proof.
  intros (df & h & msgs & Hr & Hf & ->)%main_Ok_inv.
  exists df, h, msgs. split_and!.
  - done.
  - done.
  - apply files_save_csv.
  - unfold save. destruct (to_parquet h); simpl.
    + apply lookup_insert_eq.
    + by rewrite lookup_insert_ne.
  - intros path H1 H2. by apply (files_save_other to_csv to_parquet h (print_all msgs w)).
  - unfold save. destruct (to_parquet h); simpl; set_solver.
  - unfold save. destruct (to_parquet h); simpl; set_solver.
  - unfold save. destruct (to_parquet h); simpl.
    + rewrite <- app_assoc. by apply prefix_app_r.
    + rewrite <- !app_assoc. by apply prefix_app_r.
  - unfold save. destruct (to_parquet h); simpl; apply last_snoc.
Qed.

(** X21. What a run persists.  When the run completes, the CSV file
    holds the rows of the deduplicated table that the season filter
    selects, and the filter selects exactly the rows whose season is a
    text other than the current-season literal: a row of the current
    season is left out, and so is a row whose season is missing. *)
Theorem main_persists_historical w w' :
  main' w = (Ok (), w') →
  ∃ df p d msgs,
    read_csv' w INPUT_CSV = Ok df ∧
    prepare parse_float repr_float df = (Ok p, msgs) ∧
    dedupe_rows argsort_desc p = Ok d ∧
    files w' !! OUTPUT_CSV = Some (to_csv (take_rows (historical_rows d) d)) ∧
    StronglySorted lt (historical_rows d) ∧
    (∀ i, i ∈ historical_rows d ↔
          ∃ t, cell d "season" i = VStr t ∧ t ≠ CURRENT_SEASON) ∧
    (∀ i, cell d "season" i = NA → i ∉ historical_rows d).
Proof.
  intros (df & h & msgs & Hr & Hf & ->)%main_Ok_inv.
  apply finalize_Ok_inv in Hf as (p & d & Hp & Hd & Hh).
  destruct (historical_of_Ok d h Hh) as (sd & Hsd & ->).
  rewrite (dedupe_rows_get argsort_desc p d "season" Hd) in Hsd by done.
  destruct (df_get p "season") as [sp|] eqn:Hsp; [|done].
  assert (∃ s0, df_get df "season" = Some s0) as [s0 Hs0].
  { destruct (build_canonical df) as [b|e] eqn:Hb;
      [|by rewrite (prepare_Err parse_float repr_float df e Hb) in Hp].
    destruct (prepare_Ok parse_float repr_float df b Hb)
      as (p' & m' & Hp' & _ & Hcols & _).
    assert (p' = p) as -> by congruence.
    apply (key_col_prepared df b p "season" Hb Hcols); [unfold KEY; set_solver|].
    by eexists. }
  rewrite (prepare_season parse_float repr_float df p msgs s0 Hp Hs0) in Hsp.
  injection Hsp as <-.
  assert (Hiff : ∀ i, i ∈ historical_rows d ↔
            ∃ t, cell d "season" i = VStr t ∧ t ≠ CURRENT_SEASON).
  { intros i. eapply (historical_rows_cleaned repr_float).
    by rewrite (dedupe_rows_get argsort_desc p d "season" Hd),
               (prepare_season parse_float repr_float df p msgs s0 Hp Hs0) by done. }
  exists df, p, d, msgs. split_and!; [done..| | |done|].
  - apply files_save_csv.
  - unfold historical_rows. destruct (df_get d "season"); [|constructor].
    apply mask_positions_sorted.
  - intros i Hna (t & Ht & _)%Hiff. congruence.
Qed.

End whole_run.

(** ** The further properties on the sample inputs *)

Section more_samples.
Import Reference Samples Roster.

Lemma coalesce_raises_on_None_witness :
  None ∈ [Some matches; None] ∧ (2 ≤ length [Some matches; None])%nat ∧
  coalesce [Some matches; None] = Err AttributeError.
Proof.
  assert (H1 : None ∈ [Some matches; None]) by (right; left).
  assert (H2 : (2 ≤ length [Some matches; None])%nat) by (simpl; lia).
  split_and!; [exact H1 | exact H2 |].
  exact (proj1 (coalesce_raises_on_None [Some matches; None] H1 H2)).
Defined.

Lemma build_canonical_touches_five_columns_witness :
  build_canonical table = Ok canonical ∧
  nrows canonical = nrows table ∧
  df_get canonical "goals" = df_get table "goals" ∧
  notna (cell canonical "age" 0) = true ∧
  notna (cell canonical "age" 1) = false.
Proof.
  assert (H1 : build_canonical table = Ok canonical) by (vm_compute; reflexivity).
  destruct (build_canonical_touches_five_columns table canonical H1)
    as (Hn & Hother & Hcell).
  split_and!; [exact H1 | exact Hn | | |].
  - apply Hother. apply (bool_decide_unpack _). reflexivity.
  - rewrite (Hcell "age" 0%nat) by (apply (bool_decide_unpack _); reflexivity).
    vm_compute; reflexivity.
  - rewrite (Hcell "age" 1%nat) by (apply (bool_decide_unpack _); reflexivity).
    vm_compute; reflexivity.
Defined.

Lemma clean_column_cells_witness :
  values names !! 0%nat = Some (VStr (lit " John Doe ")) ∧
  values names !! 1%nat = Some (VStr (lit "  ")) ∧
  default NA (values (clean_column repr_float_ratio names) !! 0%nat)
  = VStr (lit "John Doe") ∧
  default NA (values (clean_column repr_float_ratio names) !! 1%nat) = NA.
Proof.
  assert (H0 : values names !! 0%nat = Some (VStr (lit " John Doe "))) by reflexivity.
  assert (H1 : values names !! 1%nat = Some (VStr (lit "  "))) by reflexivity.
  split_and!; [exact H0 | exact H1 | |].
  - destruct (clean_column_cells repr_float_ratio names 0) as (_ & H & _).
    rewrite (H _ H0). vm_compute; reflexivity.
  - destruct (clean_column_cells repr_float_ratio names 1) as (_ & H & _).
    rewrite (H _ H1). vm_compute; reflexivity.
Defined.

Lemma clean_strings_cleans_listed_witness :
  df_get roster "player" = Some names ∧
  ∃ df', clean_strings repr_float_ratio roster canon_str = Ok df' ∧
    df_get df' "player" = Some (clean_column repr_float_ratio names) ∧
    df_get df' "goals" = Some goals.
Proof.
  assert (H1 : df_get roster "player" = Some names) by reflexivity.
  split; [exact H1|].
  destruct (clean_strings_cleans_listed repr_float_ratio roster canon_str
              "player" names H1) as (df' & Hrun & Hget & _ & _ & Hother).
  exists df'. split_and!; [exact Hrun | |].
  - rewrite Hget. rewrite decide_True; [reflexivity|].
    apply (bool_decide_unpack _). reflexivity.
  - rewrite Hother; [reflexivity|].
    apply (bool_decide_unpack _). reflexivity.
Defined.

Lemma coerce_floats_makes_floats_witness :
  NoDup float_cols ∧ "goals_per90" ∈ float_cols ∧
  df_get roster "goals_per90" = Some per90 ∧
  ∃ df' s', coerce_floats parse_float_none roster float_cols = Ok df' ∧
    df_get df' "goals_per90" = Some s' ∧ dtype_of s' = float64 ∧
    df_get df' "player" = Some names.
Proof.
  assert (H1 : NoDup float_cols) by (apply (bool_decide_unpack _); vm_compute; reflexivity).
  assert (H2 : "goals_per90" ∈ float_cols) by (apply (bool_decide_unpack _); reflexivity).
  assert (H3 : df_get roster "goals_per90" = Some per90) by reflexivity.
  split_and!; [exact H1 | exact H2 | exact H3 |].
  destruct (coerce_floats_makes_floats parse_float_none roster float_cols
              "goals_per90" per90 H1 H2 H3)
    as (df' & s' & Hrun & Hget & Hd & _ & _ & Hother).
  exists df', s'. split_and!; [exact Hrun | exact Hget | exact Hd |].
  rewrite Hother; [reflexivity|]. apply (bool_decide_unpack _). reflexivity.
Defined.



Lemma dedupe_rows_key_error_witness :
  argsort_valid argsort_mergesort ∧
  dedupe_rows argsort_mergesort stats = Err (KeyError "player") ∧
  ¬ is_Ok (dedupe_rows argsort_mergesort stats) ∧
  (0 < nrows stats)%nat ∧ df_get stats "player" = None ∧
  is_Ok (dedupe_rows argsort_mergesort table_header_only).
Proof.
  assert (H1 : dedupe_rows argsort_mergesort stats = Err (KeyError "player"))
    by (vm_compute; reflexivity).
  destruct (dedupe_rows_key_error argsort_mergesort stats argsort_mergesort_valid)
    as [Hiff Herr].
  destruct (Herr _ H1) as (Hpos & c & [= <-] & _ & Hnone & _).
  split_and!; [exact argsort_mergesort_valid | exact H1 | | exact Hpos | exact Hnone |].
  - intros Hok. destruct (proj1 Hiff Hok) as [Hn|Hall]; [lia|].
    destruct (Hall "player") as [s Hs]; [by left|]. rewrite Hnone in Hs. discriminate Hs.
  - apply (dedupe_rows_key_error argsort_mergesort table_header_only
             argsort_mergesort_valid).
    left. vm_compute; reflexivity.
Defined.

Lemma dedupe_rows_selects_rows_witness :
  argsort_valid argsort_mergesort ∧
  dedupe_rows argsort_mergesort prepared = Ok deduped ∧
  (nrows deduped ≤ nrows prepared)%nat ∧ (0 < nrows deduped)%nat ∧
  has_col deduped "_nnz" = false ∧ has_col deduped "goals" = has_col prepared "goals".
Proof.
  assert (H1 : dedupe_rows argsort_mergesort prepared = Ok deduped)
    by (vm_compute; reflexivity).
  destruct (dedupe_rows_selects_rows argsort_mergesort prepared deduped
              argsort_mergesort_valid H1) as (Hle & Hpos & _ & Hcols).
  split_and!; [exact argsort_mergesort_valid | exact H1 | exact Hle | | |].
  - apply Hpos. vm_compute; lia.
  - exact (Hcols "_nnz").
  - exact (Hcols "goals").
Defined.

Lemma dedupe_rows_keeps_distinct_witness :
  argsort_valid argsort_mergesort ∧
  dedupe_rows argsort_mergesort deduped = Ok deduped_again ∧
  (∀ i j, (i < nrows deduped)%nat → (j < nrows deduped)%nat →
          row_key deduped KEY i = row_key deduped KEY j → i = j) ∧
  nrows deduped_again = nrows deduped.
Proof.
  assert (H1 : dedupe_rows argsort_mergesort deduped = Ok deduped_again)
    by (vm_compute; reflexivity).
  assert (H2 : ∀ i j, (i < nrows deduped)%nat → (j < nrows deduped)%nat →
               row_key deduped KEY i = row_key deduped KEY j → i = j).
  { intros i j Hi Hj. change (nrows deduped) with 3%nat in Hi, Hj.
    destruct i as [|[|[|i]]]; [| | |lia];
      (destruct j as [|[|[|j]]]; [| | |lia]);
      intros Hk; try reflexivity; vm_compute in Hk; discriminate Hk. }
  split_and!; [exact argsort_mergesort_valid | exact H1 | exact H2 |].
  exact (proj1 (dedupe_rows_keeps_distinct argsort_mergesort deduped deduped_again
                  argsort_mergesort_valid H1 H2)).
Defined.

Lemma historical_of_idempotent_witness :
  historical_of deduped = Ok historical ∧
  historical_of historical = Ok historical ∧
  nrows historical = length (historical_rows deduped).
Proof.
  assert (H1 : historical_of deduped = Ok historical) by (vm_compute; reflexivity).
  destruct (historical_of_idempotent deduped historical H1) as (Hagain & Hn & _).
  split_and!; [exact H1 | exact Hagain | exact Hn].
Defined.

Lemma finalize_columns_witness :
  finalize parse_float_none repr_float_ratio argsort_mergesort table
  = (Ok historical, []) ∧
  has_col historical "goals" = true ∧ has_col historical "age" = true ∧
  has_col historical "age_misc" = false.
Proof.
  assert (H1 : finalize parse_float_none repr_float_ratio argsort_mergesort table
               = (Ok historical, [])) by (vm_compute; reflexivity).
  pose proof (finalize_columns parse_float_none repr_float_ratio argsort_mergesort
                table historical [] "goals" H1) as Hgoals.
  pose proof (finalize_columns parse_float_none repr_float_ratio argsort_mergesort
                table historical [] "age" H1) as Hage.
  pose proof (finalize_columns parse_float_none repr_float_ratio argsort_mergesort
                table historical [] "age_misc" H1) as Hmisc.
  split_and!; [exact H1 | | |].
  - apply Hgoals. split_and!.
    + apply (bool_decide_unpack _). reflexivity.
    + discriminate.
    + right. vm_compute; reflexivity.
  - apply Hage. split_and!.
    + apply (bool_decide_unpack _). reflexivity.
    + discriminate.
    + left. apply (bool_decide_unpack _). reflexivity.
  - destruct (has_col historical "age_misc") eqn:E; [|reflexivity].
    destruct (proj1 Hmisc eq_refl) as [Hn _]. exfalso. apply Hn.
    apply (bool_decide_unpack _). reflexivity.
Defined.

Lemma main_failure_writes_nothing_witness :
  run to_parquet_ok world_without_age_misc
  = (Err AttributeError, (run to_parquet_ok world_without_age_misc).2) ∧
  files (run to_parquet_ok world_without_age_misc).2 = files world_without_age_misc ∧
  dirs (run to_parquet_ok world_without_age_misc).2 = dirs world_without_age_misc.
Proof.
  assert (H1 : run to_parquet_ok world_without_age_misc
               = (Err AttributeError, (run to_parquet_ok world_without_age_misc).2))
    by (vm_compute; reflexivity).
  destruct (main_failure_writes_nothing parse_float_none repr_float_ratio
              argsort_mergesort tokenize_plain to_csv_plain to_parquet_ok
              world_without_age_misc _ _ H1) as (Hf & Hd & _).
  split_and!; [exact H1 | exact Hf | exact Hd].
Defined.

Lemma main_success_effects_witness :
  run to_parquet_unavailable world_again
  = (Ok (), (run to_parquet_unavailable world_again).2) ∧
  files (run to_parquet_unavailable world_again).2 !! INPUT_CSV
  = files world_again !! INPUT_CSV ∧
  OUTPUT_DIR ∈ dirs (run to_parquet_unavailable world_again).2 ∧
  last (stdout (run to_parquet_unavailable world_again).2) = Some MsgDone.
Proof.
  assert (H1 : run to_parquet_unavailable world_again
               = (Ok (), (run to_parquet_unavailable world_again).2))
    by (vm_compute; reflexivity).
  destruct (main_success_effects parse_float_none repr_float_ratio
              argsort_mergesort tokenize_plain to_csv_plain to_parquet_unavailable
              world_again _ H1)
    as (df & h & msgs & _ & _ & _ & _ & Hother & Hdir & _ & _ & Hlast).
  split_and!; [exact H1 | | exact Hdir | exact Hlast].
  apply Hother; discriminate.
Defined.

Lemma prepare_raises_only_for_missing_source_witness :
  (prepare parse_float_none repr_float_ratio table).1 = Ok prepared ∧
  nrows prepared = nrows table ∧
  df_get table_without_age_misc "age_misc" = None ∧
  ¬ is_Ok (prepare parse_float_none repr_float_ratio table_without_age_misc).1.
Proof.
  assert (H1 : (prepare parse_float_none repr_float_ratio table).1 = Ok prepared)
    by (vm_compute; reflexivity).
  assert (H2 : df_get table_without_age_misc "age_misc" = None) by reflexivity.
  destruct (prepare_raises_only_for_missing_source parse_float_none repr_float_ratio
              table) as (_ & _ & Hok).
  destruct (prepare_raises_only_for_missing_source parse_float_none repr_float_ratio
              table_without_age_misc) as (Hiff & _ & _).
  split_and!; [exact H1 | exact (proj1 (Hok prepared H1)) | exact H2 |].
  intros Hall. pose proof (proj1 Hiff Hall "age_misc") as Hsome.
  destruct Hsome as [s Hs]; [apply (bool_decide_unpack _); reflexivity|].
  rewrite H2 in Hs. discriminate Hs.
Defined.

Lemma main_persists_historical_witness :
  run to_parquet_ok world = (Ok (), (run to_parquet_ok world).2) ∧
  dedupe_rows argsort_mergesort prepared = Ok deduped ∧
  files (run to_parquet_ok world).2 !! OUTPUT_CSV
  = Some (to_csv_plain (take_rows (historical_rows deduped) deduped)) ∧
  cell deduped "season" 2 = NA ∧ 2%nat ∉ historical_rows deduped.
Proof.
  assert (H1 : run to_parquet_ok world = (Ok (), (run to_parquet_ok world).2))
    by (vm_compute; reflexivity).
  assert (H2 : dedupe_rows argsort_mergesort prepared = Ok deduped)
    by (vm_compute; reflexivity).
  assert (H3 : cell deduped "season" 2 = NA) by (vm_compute; reflexivity).
  destruct (main_persists_historical parse_float_none repr_float_ratio
              argsort_mergesort tokenize_plain to_csv_plain to_parquet_ok
              world _ H1)
    as (df & p & d & msgs & Hr & Hp & Hd & Hcsv & _ & _ & Hna).
  assert (df = table) as ->.
  { assert (read_csv parse_float_none tokenize_plain world INPUT_CSV = Ok table)
      as Hr' by (vm_compute; reflexivity).
    congruence. }
  assert (p = prepared) as ->.
  { assert (prepare parse_float_none repr_float_ratio table = (Ok prepared, []))
      as Hp' by (vm_compute; reflexivity).
    congruence. }
  assert (d = deduped) as -> by congruence.
  split_and!; [exact H1 | exact H2 | exact Hcsv | exact H3 | exact (Hna 2%nat H3)].
Defined.

Lemma finalize_Ok_iff_witness :
  argsort_valid argsort_mergesort ∧
  nrows table_header_only = 0%nat ∧ df_get table_header_only "player" = None ∧
  is_Ok (finalize parse_float_none repr_float_ratio argsort_mergesort
           table_header_only).1.
Proof.
  assert (H1 : nrows table_header_only = 0%nat) by (vm_compute; reflexivity).
  assert (H2 : df_get table_header_only "player" = None) by (vm_compute; reflexivity).
  split_and!; [exact argsort_mergesort_valid | exact H1 | exact H2 |].
  apply (finalize_Ok_iff parse_float_none repr_float_ratio argsort_mergesort
           table_header_only argsort_mergesort_valid).
  split_and!.
  - apply Forall_forall. apply (bool_decide_unpack _). vm_compute; reflexivity.
  - apply (bool_decide_unpack _). vm_compute; reflexivity.
  - left. exact H1.
Defined.

End more_samples.
